(** * claudecode-bot: command dispatcher and tool-use orchestrator

    A shallow embedding of the parts of [src/utils.js] (the [createTools]
    module: shell detection, command normalisation, [executeCommand]) and of
    [src/telegram.js] ([processWithClaude], [handleUserText]) that the
    specification talks about, followed by the theorems that settle the
    specification's claims against that embedding.  [Dispatcher] reads the
    tool input at the types the tool schema declares, [AnyInput] reads it
    as whatever JSON values the request holds.

    Further modules embed the delivery helpers of [src/utils.js]
    ([withRetries], [createTelegramHelpers]), the settings and the list of
    authorised users of [startTelegramBot], [loadConfig], [runHealer],
    [cleanupOldFilesInDataDir], the search for ffmpeg of [src/openai.js] and
    [browseWebsite] of [src/browser.js], with the properties that the code
    of these functions shows.

    Strings are JavaScript strings restricted to code units below 256, one
    [ascii] per code unit.  Regular expressions are kept as syntax trees that
    mirror the literals of the source and are run by a backtracking matcher
    with the priorities of the JavaScript engine (greedy quantifiers, ordered
    alternatives, leftmost match).  Where a comment quotes the source, [Q]
    stands for the double quote character, and a blank keeps a star apart
    from a closing parenthesis. *)

From Stdlib Require Import String Ascii List Bool Arith NArith ZArith Lia.
Import ListNotations.
Open Scope string_scope.
Open Scope bool_scope.
Open Scope nat_scope.

Set Implicit Arguments.

(* ===================================================================== *)
(** ** JavaScript string primitives *)
(* ===================================================================== *)

Module Js.

(** Code unit of a character. *)
Definition code (c : ascii) : nat := nat_of_ascii c.

(** [WhiteSpace] and [LineTerminator] code units below 256: TAB, LF, VT, FF,
    CR, SP and NBSP.  This is the set of [\s] and of [String.prototype.trim]. *)
Definition is_space (c : ascii) : bool :=
  let n := code c in
  ((9 <=? n) && (n <=? 13)) || (n =? 32) || (n =? 160).

(** [\w] is [[A-Za-z0-9_]]. *)
Definition is_word (c : ascii) : bool :=
  let n := code c in
  ((48 <=? n) && (n <=? 57)) || ((65 <=? n) && (n <=? 90))
  || (n =? 95) || ((97 <=? n) && (n <=? 122)).

(** [.] matches everything but a line terminator. *)
Definition is_dot (c : ascii) : bool :=
  let n := code c in negb ((n =? 10) || (n =? 13)).

(** Canonicalisation used by the [i] flag on code units below 256: only the
    ASCII letters have a case variant that can match. *)
Definition lower (c : ascii) : ascii :=
  let n := code c in
  if (65 <=? n) && (n <=? 90) then ascii_of_nat (n + 32) else c.

Fixpoint toLowerCase (s : string) : string :=
  match s with
  | EmptyString => EmptyString
  | String c s' => String (lower c) (toLowerCase s')
  end.

Fixpoint trimStart (s : string) : string :=
  match s with
  | String c s' => if is_space c then trimStart s' else s
  | EmptyString => EmptyString
  end.

(** Removes trailing white space: a character is kept when it is not white
    space or when something that is kept follows it. *)
Fixpoint trimEnd (s : string) : string :=
  match s with
  | EmptyString => EmptyString
  | String c s' =>
      match trimEnd s' with
      | EmptyString => if is_space c then EmptyString else String c EmptyString
      | t => String c t
      end
  end.

(** [s.trim()] *)
Definition trim (s : string) : string := trimEnd (trimStart s).

(** [s.startsWith(p)] *)
Definition startsWith (p s : string) : bool := String.prefix p s.

(** [s.includes(p)] *)
Fixpoint includes (p s : string) : bool :=
  String.prefix p s
  || match s with
     | String _ s' => includes p s'
     | EmptyString => false
     end.

(** JavaScript truthiness of a string: the empty string is falsy. *)
Definition truthy (s : string) : bool :=
  match s with EmptyString => false | _ => true end.

(** [(x || QQ).toString()] for a field that is a string or [undefined]. *)
Definition orEmpty (x : option string) : string :=
  match x with Some s => s | None => EmptyString end.

(** Truthiness of a field that is a string or [undefined]. *)
Definition otruthy (x : option string) : bool := truthy (orEmpty x).

Fixpoint all (f : ascii -> bool) (s : string) : bool :=
  match s with
  | EmptyString => true
  | String c s' => f c && all f s'
  end.

End Js.

(* ===================================================================== *)
(** ** Regular expressions *)
(* ===================================================================== *)

Module Regex.

Import Js.

(** Syntax.  Every quantifier of the source ranges over a single character
    class, so [Star] takes a class.  [Mark] is the boundary of a capture group
    whose text the source reads ([m[1]], [m[3]], [unc[2]]). *)
Inductive re : Type :=
| Eps
| Chr (f : ascii -> bool)
| Cat (a b : re)
| Alt (a b : re)
| Star (f : ascii -> bool)
| Bol
| Eol
| Wb
| Mark.

(** A continuation receives the marks recorded so far (most recent first; a
    mark is the input that remained when the matcher passed it), the
    character before the current position, and the remaining input. *)
Definition cont : Type :=
  list string -> option ascii -> string -> option (list string).

Definition wordp (p : option ascii) : bool :=
  match p with Some c => is_word c | None => false end.

Definition wordh (s : string) : bool :=
  match s with String c _ => is_word c | EmptyString => false end.

Definition orelse {A} (x y : option A) : option A :=
  match x with Some _ => x | None => y end.

(** Greedy [f*]: take one more character first, give back on failure. *)
Fixpoint star (f : ascii -> bool) (k : cont) (ms : list string)
  (p : option ascii) (s : string) : option (list string) :=
  match s with
  | String c s' =>
      if f c then orelse (star f k ms (Some c) s') (k ms p s) else k ms p s
  | EmptyString => k ms p s
  end.

Fixpoint m (r : re) (k : cont) (ms : list string) (p : option ascii)
  (s : string) : option (list string) :=
  match r with
  | Eps => k ms p s
  | Chr f =>
      match s with
      | String c s' => if f c then k ms (Some c) s' else None
      | EmptyString => None
      end
  | Cat a b => m a (m b k) ms p s
  | Alt a b => orelse (m a k ms p s) (m b k ms p s)
  | Star f => star f k ms p s
  | Bol => match p with None => k ms p s | Some _ => None end
  | Eol => match s with EmptyString => k ms p s | String _ _ => None end
  | Wb => if xorb (wordp p) (wordh s) then k ms p s else None
  | Mark => k (s :: ms) p s
  end.

Definition accept : cont := fun ms _ _ => Some ms.

(** Leftmost match: try every start position in turn. *)
Fixpoint search (r : re) (p : option ascii) (s : string)
  : option (list string) :=
  orelse (m r accept [] p s)
         (match s with
          | String c s' => search r (Some c) s'
          | EmptyString => None
          end).

(** [s.match(r)] without the [g] flag: the marks of the leftmost match. *)
Definition exec (r : re) (s : string) : option (list string) :=
  search r None s.

Definition isSome {A} (x : option A) : bool :=
  match x with Some _ => true | None => false end.

(** [r.test(s)] *)
Definition test (r : re) (s : string) : bool := isSome (exec r s).

(** Text between two marks: [opened] and [closed] are the inputs that
    remained at the opening and at the closing parenthesis. *)
Definition between (opened closed : string) : string :=
  substring 0 (String.length opened - String.length closed) opened.

(** *** Building blocks *)

Definition ch (c : ascii) : ascii -> bool := fun x => Ascii.eqb x c.
Definition chi (c : ascii) : ascii -> bool :=
  fun x => Ascii.eqb (lower x) (lower c).
Definition oneof (cs : string) : ascii -> bool :=
  fun x => includes (String x EmptyString) cs.
Definition non (f : ascii -> bool) : ascii -> bool := fun x => negb (f x).

Fixpoint seq (rs : list re) : re :=
  match rs with
  | [] => Eps
  | [r] => r
  | r :: rs' => Cat r (seq rs')
  end.

Fixpoint alts (rs : list re) : re :=
  match rs with
  | [] => Chr (fun _ => false)
  | [r] => r
  | r :: rs' => Alt r (alts rs')
  end.

(** A literal, case sensitive. *)
Fixpoint lit (w : string) : re :=
  match w with
  | EmptyString => Eps
  | String c w' => Cat (Chr (ch c)) (lit w')
  end.

(** A literal under the [i] flag. *)
Fixpoint liti (w : string) : re :=
  match w with
  | EmptyString => Eps
  | String c w' => Cat (Chr (chi c)) (liti w')
  end.

Definition plus (f : ascii -> bool) : re := Cat (Chr f) (Star f).
Definition opt (r : re) : re := Alt r Eps.

End Regex.

(* ===================================================================== *)
(** ** Command dispatcher ([createTools] of the tools module) *)
(* ===================================================================== *)

Module Dispatcher.

Import Js Regex.

(** The double quote character and the two-quote string of the source. *)
Definition dq : ascii := ascii_of_nat 34.
Definition q : string := String dq EmptyString.
Definition qq : string := String dq (String dq EmptyString).
Definition nl : string := String (ascii_of_nat 10) EmptyString.

Definition is_alpha (c : ascii) : bool :=
  let n := code c in
  ((65 <=? n) && (n <=? 90)) || ((97 <=? n) && (n <=? 122)).

Definition is_quote (c : ascii) : bool :=
  Ascii.eqb c dq || Ascii.eqb c "'"%char.

Definition is_slash (c : ascii) : bool :=
  Ascii.eqb c "\"%char || Ascii.eqb c "/"%char.

(** *** Shell selection *)

Definition verbs : list string :=
  ["Get"; "Set"; "New"; "Remove"; "Write"; "Select"; "Where"; "ForEach";
   "Out"; "Format"; "Start"].

Definition pipe_verbs : list string :=
  ["Select"; "Where"; "ForEach"; "Out"; "Format"].

(** [/\$\w+/] *)
Definition re_variable : re := seq [Chr (ch "$"); plus is_word].

(** [/\b(Get|Set|New|Remove|Write|Select|Where|ForEach|Out|Format|Start)-\w+\b/] *)
Definition re_cmdlet : re :=
  seq [Wb; alts (map lit verbs); Chr (ch "-"); plus is_word; Wb].

(** [/\|\s*(Select|Where|ForEach|Out|Format)-\w+\b/] *)
Definition re_pipe : re :=
  seq [Chr (ch "|"); Star is_space; alts (map lit pipe_verbs);
       Chr (ch "-"); plus is_word; Wb].

Definition shouldUsePowerShell (command : string) : bool :=
  if negb (truthy command) then false
  else
    includes nl command
    || test re_variable command
    || test re_cmdlet command
    || test re_pipe command.

(** [shell] is the hint after its default [auto] has been filled in;
    [use_powershell] is a boolean or [undefined]; [command] and [script] are
    strings or [undefined]. *)
Definition detectShell (shell : string) (command script : option string)
  (use_powershell : option bool) : string :=
  if truthy shell && negb (String.eqb shell "auto") then shell
  else
    match use_powershell with
    | Some b => if b then "powershell" else "cmd"
    | None =>
        if otruthy script && shouldUsePowerShell (orEmpty script)
        then "powershell"
        else if otruthy command && shouldUsePowerShell (orEmpty command)
        then "powershell"
        else "cmd"
    end.

Definition pickScriptExtension (shell script : string) : string :=
  if String.eqb shell "powershell" then ".ps1"
  else if String.eqb shell "bash" then ".sh"
  else if String.eqb shell "cmd" then ".cmd"
  else if truthy script && shouldUsePowerShell script then ".ps1"
  else ".cmd".

(** *** Chrome launches *)

(** [v.replace(/Q/g, '\\Q')] *)
Fixpoint escapeQuotes (v : string) : string :=
  match v with
  | EmptyString => EmptyString
  | String c v' =>
      if Ascii.eqb c dq then String "\"%char (String dq (escapeQuotes v'))
      else String c (escapeQuotes v')
  end.

Definition _quoteCmdArg (v : string) : string :=
  if negb (truthy v) then v
  else if includes " " v then q ++ escapeQuotes v ++ q else v.

(** [/^start\s+QQ\s+.+chrome\.exe/i] *)
Definition re_start_title_chrome_exe : re :=
  seq [Bol; liti "start"; plus is_space; lit qq; plus is_space; plus is_dot;
       liti "chrome.exe"].

(** [/[Q']?[A-Za-z]:\\[^Q']*chrome\.exe/i] *)
Definition re_drive_chrome_exe : re :=
  seq [opt (Chr is_quote); Chr is_alpha; lit ":\"; Star (non is_quote);
       liti "chrome.exe"].

(** [/^start\s+chrome(?:\.exe)?\b(.* )$/i], group 1 between the marks *)
Definition re_start_chrome : re :=
  seq [Bol; liti "start"; plus is_space; liti "chrome"; opt (liti ".exe");
       Wb; Mark; Star is_dot; Mark; Eol].

(** [/^start\s+QQ\s+chrome(?:\.exe)?\b(.* )$/i] *)
Definition re_start_title_chrome : re :=
  seq [Bol; liti "start"; plus is_space; lit qq; plus is_space; liti "chrome";
       opt (liti ".exe"); Wb; Mark; Star is_dot; Mark; Eol].

(** [/^chrome(?:\.exe)?\b(.* )$/i] *)
Definition re_chrome : re :=
  seq [Bol; liti "chrome"; opt (liti ".exe"); Wb; Mark; Star is_dot; Mark;
       Eol].

(** The text of the only capture group of a match, [m[1]]. *)
Definition group1 (marks : list string) : string :=
  match marks with
  | closed :: opened :: _ => between opened closed
  | _ => EmptyString
  end.

Record rewrite_result : Type := {
  changed : bool;
  rw_command : string;
  didTryChrome : bool
}.

Section WithChrome.

(** What [resolveChromeExe()] returns on this machine: the configured path,
    one of the two standard install locations, or the bare executable name. *)
Variable chromeExe : string.

Definition startWithExe (rest : string) : string :=
  trim ("start " ++ qq ++ " " ++ _quoteCmdArg chromeExe
        ++ (if truthy rest then " " ++ rest else EmptyString)).

Definition rewriteStartChrome (command : string) : rewrite_result :=
  let trimmed := trim command in
  if negb (truthy trimmed) then
    {| changed := false; rw_command := trimmed; didTryChrome := false |}
  else if test re_start_title_chrome_exe trimmed
          || (startsWith "start " trimmed && test re_drive_chrome_exe trimmed)
  then {| changed := false; rw_command := trimmed; didTryChrome := true |}
  else
    match exec re_start_chrome trimmed with
    | Some ms =>
        {| changed := true; didTryChrome := true;
           rw_command := startWithExe (trim (group1 ms)) |}
    | None =>
    match exec re_start_title_chrome trimmed with
    | Some ms =>
        {| changed := true; didTryChrome := true;
           rw_command := startWithExe (trim (group1 ms)) |}
    | None =>
    match exec re_chrome trimmed with
    | Some ms =>
        let rest := trim (group1 ms) in
        if String.eqb (toLowerCase chromeExe) "chrome.exe" then
          {| changed := false; rw_command := trimmed; didTryChrome := true |}
        else
          {| changed := true; didTryChrome := true;
             rw_command :=
               trim (_quoteCmdArg chromeExe
                     ++ (if truthy rest then " " ++ rest else EmptyString)) |}
    | None =>
        {| changed := false; rw_command := trimmed; didTryChrome := false |}
    end end end.

End WithChrome.

(** [/https?:\/\/\S+/i], the whole match between the marks *)
Definition re_url : re :=
  seq [Mark; liti "http"; opt (Chr (chi "s")); lit "://"; plus (non is_space);
       Mark].

Definition extractFirstUrl (text : string) : option string :=
  match exec re_url text with
  | Some ms => Some (group1 ms)
  | None => None
  end.

(** *** Normalisation of [start] commands *)

Definition isLikelyInvalidWindowsTarget (target : string) : bool :=
  let t := trim target in
  String.eqb t "\\" || String.eqb t "\".

(** [/^https?:\/\/\S+$/i] *)
Definition re_whole_url : re :=
  seq [Bol; liti "http"; opt (Chr (chi "s")); lit "://"; plus (non is_space);
       Eol].

Definition looksLikeUrl (maybeUrl : string) : bool :=
  test re_whole_url (trim maybeUrl).

(** [/^[\\/]+/] *)
Definition re_leading_slashes : re := seq [Bol; plus is_slash; Mark].

(** [s.replace(/^[\\/]+/, QQ)]: what follows the match, or [s] itself. *)
Definition stripLeadingSlashes (s : string) : string :=
  match exec re_leading_slashes s with
  | Some (rest :: _) => rest
  | _ => s
  end.

(** [/^start\s*$/i] *)
Definition re_start_bare : re := seq [Bol; liti "start"; Star is_space; Eol].

(** [/^start\s+QQ\s*$/i] *)
Definition re_start_empty_title : re :=
  seq [Bol; liti "start"; plus is_space; lit qq; Star is_space; Eol].

(** [/^start\s+Q[^Q]*Q\s*$/i] *)
Definition re_start_title_only : re :=
  seq [Bol; liti "start"; plus is_space; lit q; Star (non (ch dq)); lit q;
       Star is_space; Eol].

(** The optional title of the later patterns, [(\s+QQ\s* )?]. *)
Definition re_title : re := opt (seq [plus is_space; lit qq; Star is_space]).

(** [/^start(\s+QQ\s* )?\s+([\\/]+)(https?:\/\/\S+)\s*$/i], group 3 between
    the marks *)
Definition re_start_slashed_url : re :=
  seq [Bol; liti "start"; re_title; plus is_space; plus is_slash;
       Mark; liti "http"; opt (Chr (chi "s")); lit "://"; plus (non is_space);
       Mark; Star is_space; Eol].

(** [/^start(\s+QQ\s* )?\s+\\\\\s*$/i] *)
Definition re_start_unc_root2 : re :=
  seq [Bol; liti "start"; re_title; plus is_space; lit "\\"; Star is_space;
       Eol].

(** [/^start(\s+QQ\s* )?\s+\\\s*$/i] *)
Definition re_start_unc_root1 : re :=
  seq [Bol; liti "start"; re_title; plus is_space; lit "\"; Star is_space;
       Eol].

(** [/^start(\s+QQ\s* )?\s+(\\\\[^\\\s]+)\s*$/i], group 2 between the marks *)
Definition re_start_unc_server : re :=
  seq [Bol; liti "start"; re_title; plus is_space;
       Mark; lit "\\"; plus (fun c => negb (Ascii.eqb c "\"%char || is_space c));
       Mark; Star is_space; Eol].

Inductive normalized : Type :=
| Reject (reason : string)
| Rewrite (command : string)
| Ok (command : string).

Definition reason_no_target : string :=
  "Refusing to run 'start' with no target (would trigger 'Windows cannot find \\' dialog). Specify an app or URL.".

Definition reason_slashed_url (stripped : string) : string :=
  "Looks like a URL with a leading \\ or /. "
  ++ "Use the URL without the leading slash, or ask the bot to browse it. "
  ++ "Example: " ++ stripped.

Definition reason_unc_root : string :=
  "Refusing to run an invalid Windows target path (\\) that triggers a popup.".

Definition reason_unc_server (target : string) : string :=
  "Refusing to run a malformed UNC path (" ++ target ++ "). "
  ++ "UNC paths must be like \\server\\share\\...".

Definition normalizeCmdStart (command : string) : normalized :=
  let trimmed := trim command in
  if test re_start_bare trimmed
     || test re_start_empty_title trimmed
     || test re_start_title_only trimmed
  then Reject reason_no_target
  else
    let stripped := stripLeadingSlashes trimmed in
    if negb (String.eqb stripped trimmed) && looksLikeUrl stripped
    then Reject (reason_slashed_url stripped)
    else
      match exec re_start_slashed_url trimmed with
      | Some ms => Rewrite ("start " ++ qq ++ " " ++ q ++ group1 ms ++ q)
      | None =>
          if test re_start_unc_root2 trimmed || test re_start_unc_root1 trimmed
          then Reject reason_unc_root
          else
            match exec re_start_unc_server trimmed with
            | Some ms => Reject (reason_unc_server (group1 ms))
            | None => Ok trimmed
            end
      end.

(** *** [executeCommand] *)

(** The tool input: every field is a string (a boolean for [use_powershell])
    or [undefined], as the tool schema declares them; module [AnyInput]
    below reads an input whose fields hold other values.  [timeout_ms] and
    [cwd] are handed to the child process unchanged and take part in no
    decision. *)
Record exec_input : Type := {
  command : option string;
  script : option string;
  shell : option string;
  file_path : option string;
  use_powershell : option bool
}.

(** [{success, error, output}] *)
Record result : Type := {
  success : bool;
  error : option string;
  output : option string
}.

Definition failure (msg : string) : result :=
  {| success := false; error := Some msg; output := Some EmptyString |}.

Inductive interpreter : Type := ViaPowerShell | ViaBash | ViaCmd.

(** What a call does.  [Return] is a result handed back before any file is
    written and before any process is spawned; the three others are the three
    places where the source reaches the operating system:
    [tryLaunchChromeDetached], [writeTempScriptFile] followed by
    [execPromise], and [execPromise] on the command text. *)
Inductive plan : Type :=
| Return (r : result)
| LaunchChromeDetached (commandText : string)
| RunScript (via : interpreter) (script extension : string)
    (preferredPath : option string)
| RunCommand (via : interpreter) (commandText : string).

Definition spawns (p : plan) : bool :=
  match p with Return _ => false | _ => true end.

(** [/\bchrome\.exe\b/i], [/\b--new-window\b/i], [/\b--app=/i] *)
Definition re_chrome_exe : re := seq [Wb; liti "chrome.exe"; Wb].
Definition re_new_window : re := seq [Wb; liti "--new-window"; Wb].
Definition re_app : re := seq [Wb; liti "--app="].

Definition reason_invalid_target : string :=
  "Refusing to run an invalid Windows target path (\\).".

Definition reason_no_target_cmd : string :=
  "Refusing to run 'start' with no target (would trigger Windows 'cannot find \\' dialog).".

Definition interpreterOf (effectiveShell : string) : interpreter :=
  if String.eqb effectiveShell "powershell" then ViaPowerShell
  else if String.eqb effectiveShell "bash" then ViaBash
  else ViaCmd.

(** The last step of command mode: the choice of the interpreter, with the
    second guard against a bare [start] on the [cmd] side. *)
Definition runCommandText (effectiveShell command : string) : plan :=
  match interpreterOf effectiveShell with
  | ViaPowerShell => RunCommand ViaPowerShell command
  | ViaBash => RunCommand ViaBash command
  | ViaCmd =>
      let safeCmd := trim command in
      if test re_start_bare safeCmd || test re_start_empty_title safeCmd
      then Return (failure reason_no_target_cmd)
      else RunCommand ViaCmd command
  end.

Section WithChromeExe.

Variable chromeExe : string.

(** The [cmd]-only block of command mode. *)
Definition guardCmd (command : string) : plan :=
  let chromeRewrite := rewriteStartChrome chromeExe command in
  let command :=
    if changed chromeRewrite then rw_command chromeRewrite else command in
  if didTryChrome chromeRewrite then LaunchChromeDetached command
  else if test re_chrome_exe command
          && (isSome (extractFirstUrl command)
              || test re_new_window command
              || test re_app command)
  then LaunchChromeDetached command
  else
    match normalizeCmdStart command with
    | Reject reason => Return (failure reason)
    | n =>
        let command :=
          match n with Rewrite c => c | _ => command end in
        if isLikelyInvalidWindowsTarget (trim command)
        then Return (failure reason_invalid_target)
        else runCommandText "cmd" command
    end.

Definition nonEmptyString (x : option string) : bool :=
  match x with
  | Some s => 0 <? String.length (trim s)
  | None => false
  end.

Definition executeCommand (i : exec_input) : plan :=
  let shell := match shell i with Some s => s | None => "auto" end in
  let effectiveShell :=
    detectShell shell (command i) (script i) (use_powershell i) in
  let hasScript := nonEmptyString (script i) in
  let hasCommand := nonEmptyString (command i) in
  if negb hasScript && negb hasCommand then
    Return (failure "No command/script provided.")
  else if hasScript then
    let ext := pickScriptExtension effectiveShell (orEmpty (script i)) in
    RunScript (interpreterOf effectiveShell) (orEmpty (script i)) ext
      (file_path i)
  else if String.eqb effectiveShell "cmd" then guardCmd (orEmpty (command i))
  else runCommandText effectiveShell (orEmpty (command i)).

End WithChromeExe.

End Dispatcher.

(* ===================================================================== *)
(** ** The command dispatcher on any input *)
(* ===================================================================== *)

(** [runTool] hands the [input] object of a request to [executeCommand] as
    the reasoning service sent it, so a field holds whatever JSON value was
    sent, not only what the tool schema declares.  [Dispatcher] above reads
    [command], [script], [shell] and [use_powershell] at their declared
    types; here they are read as the source reads them, and every exception
    of the body is caught by the [catch] of [executeCommand].  [file_path]
    is looked at by the script branch only and stays at its declared type.
    Lemma [declared_input_agrees] below shows that both readings give the
    same plan for an input of the declared types. *)

Module AnyInput.

Import Js Regex.

(** A JSON value, or [undefined] for a field that is absent, with what the
    code reads of it.  A number is an integer here and the code reads only
    whether it is zero (a fraction is read like the integers other than
    zero).  Of an array the code reads whether one of its items is the line
    feed string ([includes]) and the text that [String] makes of it, which is
    what the regular expressions are tested on.  An object has no [includes]
    method. *)
Inductive value : Type :=
| VUndefined
| VNull
| VBoolean (b : bool)
| VNumber (n : Z)
| VString (s : string)
| VArray (hasLineFeed : bool) (joined : string)
| VObject.

(** Truthiness. *)
Definition truthy (v : value) : bool :=
  match v with
  | VUndefined | VNull => false
  | VBoolean b => b
  | VNumber n => negb (Z.eqb n 0)
  | VString s => Js.truthy s
  | VArray _ _ | VObject => true
  end.

(** [v === s] for a string literal [s]. *)
Definition same (v : value) (s : string) : bool :=
  match v with VString t => String.eqb t s | _ => false end.

(** The text of a value that is known to be a string. *)
Definition text (v : value) : string :=
  match v with VString s => s | _ => EmptyString end.

(** [typeof v === "string" && v.trim().length > 0] *)
Definition nonEmptyString (v : value) : bool :=
  match v with
  | VString s => 0 <? String.length (trim s)
  | _ => false
  end.

(** The default of a destructured field: it stands in for [undefined]
    only. *)
Definition orDefault (v d : value) : value :=
  match v with VUndefined => d | _ => v end.

(** [shouldUsePowerShell].  On a truthy value without an [includes] method
    the call [command.includes] throws a [TypeError], whose message names the
    parameter of this function. *)
Definition shouldUsePowerShell (command : value) : string + bool :=
  if negb (truthy command) then inr false
  else
    match command with
    | VString s =>
        inr (includes Dispatcher.nl s
             || test Dispatcher.re_variable s
             || test Dispatcher.re_cmdlet s
             || test Dispatcher.re_pipe s)
    | VArray hasLineFeed joined =>
        inr (hasLineFeed
             || test Dispatcher.re_variable joined
             || test Dispatcher.re_cmdlet joined
             || test Dispatcher.re_pipe joined)
    | _ => inl "command.includes is not a function"
    end.

(** [x && shouldUsePowerShell(x)], as a condition. *)
Definition looksLikePowerShell (x : value) : string + bool :=
  if truthy x then shouldUsePowerShell x else inr false.

(** [detectShell]: the shell, which is the hint itself when it is truthy and
    not [auto], or the message of the exception. *)
Definition detectShell (shell command script use_powershell : value)
  : string + value :=
  if truthy shell && negb (same shell "auto") then inr shell
  else
    match use_powershell with
    | VBoolean b => inr (VString (if b then "powershell" else "cmd"))
    | _ =>
        match looksLikePowerShell script with
        | inl message => inl message
        | inr true => inr (VString "powershell")
        | inr false =>
            match looksLikePowerShell command with
            | inl message => inl message
            | inr true => inr (VString "powershell")
            | inr false => inr (VString "cmd")
            end
        end
    end.

(** [pickScriptExtension], called with a script that is a string. *)
Definition pickScriptExtension (shell : value) (script : string) : string :=
  if same shell "powershell" then ".ps1"
  else if same shell "bash" then ".sh"
  else if same shell "cmd" then ".cmd"
  else if Js.truthy script && Dispatcher.shouldUsePowerShell script
  then ".ps1"
  else ".cmd".

Definition interpreterOf (effectiveShell : value) : Dispatcher.interpreter :=
  if same effectiveShell "powershell" then Dispatcher.ViaPowerShell
  else if same effectiveShell "bash" then Dispatcher.ViaBash
  else Dispatcher.ViaCmd.

(** The last step of command mode, for a command that is a string. *)
Definition runCommandText (effectiveShell : value) (command : string)
  : Dispatcher.plan :=
  match interpreterOf effectiveShell with
  | Dispatcher.ViaPowerShell =>
      Dispatcher.RunCommand Dispatcher.ViaPowerShell command
  | Dispatcher.ViaBash => Dispatcher.RunCommand Dispatcher.ViaBash command
  | Dispatcher.ViaCmd =>
      let safeCmd := trim command in
      if test Dispatcher.re_start_bare safeCmd
         || test Dispatcher.re_start_empty_title safeCmd
      then Dispatcher.Return (Dispatcher.failure Dispatcher.reason_no_target_cmd)
      else Dispatcher.RunCommand Dispatcher.ViaCmd command
  end.

Record exec_input : Type := {
  command : value;
  script : value;
  shell : value;
  file_path : option string;
  use_powershell : value
}.

(** [executeCommand].  The default [auto] of [shell] is filled in for an
    absent field only; an exception of [detectShell] reaches the [catch],
    which hands back its message with an empty output. *)
Definition executeCommand (chromeExe : string) (i : exec_input)
  : Dispatcher.plan :=
  let shell := orDefault (shell i) (VString "auto") in
  match detectShell shell (command i) (script i) (use_powershell i) with
  | inl message => Dispatcher.Return (Dispatcher.failure message)
  | inr effectiveShell =>
      let hasScript := nonEmptyString (script i) in
      let hasCommand := nonEmptyString (command i) in
      if negb hasScript && negb hasCommand then
        Dispatcher.Return (Dispatcher.failure "No command/script provided.")
      else if hasScript then
        let ext := pickScriptExtension effectiveShell (text (script i)) in
        Dispatcher.RunScript (interpreterOf effectiveShell) (text (script i))
          ext (file_path i)
      else if same effectiveShell "cmd" then
        Dispatcher.guardCmd chromeExe (text (command i))
      else runCommandText effectiveShell (text (command i))
  end.



End AnyInput.

(* ===================================================================== *)
(** ** Tool-use orchestrator ([processWithClaude], [handleUserText]) *)
(* ===================================================================== *)

Module Orchestrator.

Import Js Regex.

(** *** Protocol data *)

(** The [input] object of a tool request, as the list of its string fields;
    a missing object is the empty list. *)
Definition tool_input : Type := list (string * string).

Fixpoint field (k : string) (i : tool_input) : option string :=
  match i with
  | [] => None
  | (k', v) :: i' => if String.eqb k k' then Some v else field k i'
  end.

Inductive block : Type :=
| Text (text : string)
| ToolUse (id name : string) (input : tool_input)
| Thinking (text : string).

Definition is_tool_use (b : block) : bool :=
  match b with ToolUse _ _ _ => true | _ => false end.

Definition block_id (b : block) : string :=
  match b with ToolUse id _ _ => id | _ => EmptyString end.

Definition block_name (b : block) : string :=
  match b with ToolUse _ name _ => name | _ => EmptyString end.

Definition block_input (b : block) : tool_input :=
  match b with ToolUse _ _ input => input | _ => [] end.

(** The object that is serialised into a [tool_result] block.  A boolean
    field that the source leaves out is [false] here. *)
Record tool_result : Type := {
  success : bool;
  deferred : bool;
  deduped : bool;
  error : option string;
  note : option string;
  fingerprint : option string;
  output : option string
}.

Record tool_result_block : Type := {
  tool_use_id : string;
  result : tool_result
}.

Inductive role : Type := User | Assistant.

Inductive body : Type :=
| Plain (text : string)
| Blocks (blocks : list block)
| Results (results : list tool_result_block).

Record message : Type := {
  msg_role : role;
  msg_body : body
}.

Record response : Type := {
  stop_reason : string;
  content : list block
}.

Record run_result : Type := {
  replyText : string;
  updatedMessages : list message
}.

(** [options] of [processWithClaude] after the defaults have been filled in. *)
Record options : Type := {
  allowTools : bool;
  deepThinking : bool;
  thinkingBudgetTokens : N;
  stepConfirm : bool
}.

(** What the run does to the outside, in the order in which it does it: a
    request to the reasoning service, a call of a tool handler with what came
    back (a thrown message or a result envelope), a message to the chat. *)
Inductive event : Type :=
| Asked (thinking : option N) (messages : list message)
| Invoked (name : string) (input : tool_input)
    (outcome : string + Dispatcher.result)
| Said (chatId : nat) (text : string).

Definition is_invoked (e : event) : bool :=
  match e with Invoked _ _ _ => true | _ => false end.

Definition is_asked (e : event) : bool :=
  match e with Asked _ _ => true | _ => false end.

(** *** Fingerprints *)

(** [/\bchrome(\.exe)?\b/i] *)
Definition re_chrome_word : re :=
  seq [Wb; liti "chrome"; opt (liti ".exe"); Wb].

(** [/https?:\/\/\S+/i] *)
Definition re_has_url : re :=
  seq [liti "http"; opt (Chr (chi "s")); lit "://"; plus (non is_space)].

(** [/^start\b/i] *)
Definition re_start_word : re := seq [Bol; liti "start"; Wb].

Definition fingerprintBrowserAction (name : string) (input : tool_input)
  : option string :=
  if String.eqb name "browse_website" then
    let u := trim (orEmpty (field "url" input)) in
    let t := trim (orEmpty (field "task" input)) in
    if negb (truthy u) then None else Some ("browse:" ++ u ++ "|" ++ t)
  else if String.eqb name "execute_command" then
    let c := trim (orEmpty (field "command" input)) in
    if negb (truthy c) then None
    else
      let isChrome := test re_chrome_word c in
      let hasUrl := test re_has_url c in
      let isStartUrl := test re_start_word c && hasUrl in
      let isChromeLaunch := isChrome && (hasUrl || test re_start_word c) in
      if negb isStartUrl && negb isChromeLaunch then None
      else Some ("exec:" ++ c)
  else None.

(** [executedBrowserActions.has(fp)] *)
Definition has (fp : string) (set : list string) : bool :=
  existsb (String.eqb fp) set.

(** [executedBrowserActions.add(fp)] *)
Definition add (fp : string) (set : list string) : list string :=
  if has fp set then set else (set ++ [fp])%list.

(** *** The three kinds of result the orchestrator writes itself *)

Definition deferredResult : tool_result :=
  {| success := false; deferred := true; deduped := false;
     error := Some "Deferred by step-by-step mode. The agent should continue in a follow-up step.";
     note := None; fingerprint := None; output := None |}.

Definition dedupedResult (fp : string) : tool_result :=
  {| success := true; deferred := false; deduped := true; error := None;
     note := Some "Skipped duplicate browser action (already executed in this request).";
     fingerprint := Some fp; output := None |}.

Definition unknownToolResult (name : string) : tool_result :=
  {| success := false; deferred := false; deduped := false;
     error := Some ("Unknown tool: " ++ name);
     note := None; fingerprint := None; output := None |}.

(** The result envelope of a tool handler, seen as such an object. *)
Definition ofEnvelope (r : Dispatcher.result) : tool_result :=
  {| success := Dispatcher.success r; deferred := false; deduped := false;
     error := Dispatcher.error r; note := None; fingerprint := None;
     output := Dispatcher.output r |}.

(** *** History *)

Definition MAX_HISTORY_MESSAGES : nat := 40.

Definition trimHistory (messages : list message) : list message :=
  if length messages <=? MAX_HISTORY_MESSAGES then messages
  else skipn (length messages - MAX_HISTORY_MESSAGES) messages.

(** [chatHistory]: a map from chat identifiers to message lists. *)
Definition history : Type := nat -> option (list message).

Definition emptyHistory : history := fun _ => None.

Definition setHistory (h : history) (chatId : nat) (ms : list message)
  : history :=
  fun c => if Nat.eqb c chatId then Some ms else h c.

(** *** Final text *)

(** [s.split(nl)] on the line feed. *)
Fixpoint splitLines (s : string) : list string :=
  match s with
  | EmptyString => [EmptyString]
  | String c s' =>
      if Ascii.eqb c (ascii_of_nat 10) then EmptyString :: splitLines s'
      else
        match splitLines s' with
        | l :: ls => String c l :: ls
        | [] => [String c EmptyString]
        end
  end.

(** [lines.join(nl)] *)
Fixpoint joinLines (ls : list string) : string :=
  match ls with
  | [] => EmptyString
  | [l] => l
  | l :: ls' => l ++ Dispatcher.nl ++ joinLines ls'
  end.

(** [/continue\s+or\s+stop\?/i] *)
Definition re_continue_or_stop : re :=
  seq [liti "continue"; plus is_space; liti "or"; plus is_space;
       liti "stop?"].

(** [/would you like me to (take|continue|proceed)/i] *)
Definition re_would_you_like : re :=
  seq [liti "would you like me to ";
       alts [liti "take"; liti "continue"; liti "proceed"]].

Fixpoint texts (bs : list block) : list string :=
  match bs with
  | [] => []
  | Text t :: bs' => t :: texts bs'
  | _ :: bs' => texts bs'
  end.

Definition finalText (content : list block) : string :=
  let textContent := joinLines (texts content) in
  let textContent :=
    trim (joinLines
            (filter (fun line => negb (test re_would_you_like line))
               (filter (fun line => negb (test re_continue_or_stop line))
                  (splitLines textContent)))) in
  if truthy textContent then textContent else "Task completed.".

(** *** Effects *)

Section Run.

(** The outside world: the reasoning service, the tool handlers and the
    machine they act on.  A call either returns or throws a message. *)
Variable W : Type.

(** [anthropic.messages.create], with the thinking budget when extended
    thinking is requested; the system prompt, the model and the tool schemas
    are the same at every call. *)
Variable create : option N -> list message -> W -> (string + response) * W.

(** [toolApi.runTool] *)
Variable runTool :
  string -> tool_input -> W -> (string + Dispatcher.result) * W.

(** Configuration read once at start-up. *)
Variable MAX_AGENT_ITERATIONS : nat.
Variable STOP_AFTER_SUCCESSFUL_BROWSE : bool.

Record state : Type := {
  world : W;
  trace : list event
}.

(** Computations that read and change the state and may throw. *)
Definition M (A : Type) : Type := state -> (string + A) * state.

Definition ret {A} (x : A) : M A := fun st => (inr x, st).

Definition throw {A} (msg : string) : M A := fun st => (inl msg, st).

Definition bind {A B} (c : M A) (k : A -> M B) : M B :=
  fun st =>
    match c st with
    | (inr x, st') => k x st'
    | (inl msg, st') => (inl msg, st')
    end.

(** [try { c } catch (e) { handler(e.message) }] *)
Definition try {A} (c : M A) (handler : string -> M A) : M A :=
  fun st =>
    match c st with
    | (inr x, st') => (inr x, st')
    | (inl msg, st') => handler msg st'
    end.

Notation "x <- c ;; k" := (bind c (fun x => k))
  (at level 61, c at next level, right associativity).
Notation "c ;;; k" := (bind c (fun _ => k))
  (at level 61, right associativity).

Definition log (e : event) (st : state) : state :=
  {| world := world st; trace := (trace st ++ [e])%list |}.

Definition ask (thinking : option N) (messages : list message)
  : M response :=
  fun st =>
    let (r, w) := create thinking messages (world st) in
    (r, {| world := w; trace := (trace st ++ [Asked thinking messages])%list |}).

Definition invoke (name : string) (input : tool_input)
  : M Dispatcher.result :=
  fun st =>
    let (r, w) := runTool name input (world st) in
    (r, {| world := w; trace := (trace st ++ [Invoked name input r])%list |}).

(** [safeSendMessage] never throws. *)
Definition safeSendMessage (chatId : nat) (text : string) : M unit :=
  fun st => (inr tt, log (Said chatId text) st).

(** *** One assistant response *)

(** The variables of the loop over the tool requests of one response;
    [executedBrowserActions] lives for the whole run. *)
Record turn : Type := {
  toolResultsBlocks : list tool_result_block;
  executedThisResponse : nat;
  stopAfterBrowseSuccess : bool;
  executedBrowserActions : list string
}.

Definition newTurn (executed : list string) : turn :=
  {| toolResultsBlocks := []; executedThisResponse := 0;
     stopAfterBrowseSuccess := false; executedBrowserActions := executed |}.

Definition known (name : string) : bool :=
  String.eqb name "execute_command" || String.eqb name "take_screenshot"
  || String.eqb name "capture_webcam_photo"
  || String.eqb name "browse_website" || String.eqb name "run_healer".

(** The progress message sent before a tool runs.  The two dashes of the
    healer message are outside the code units modelled here and are written
    as hyphens. *)
Definition announcement (name : string) (input : tool_input) : string :=
  if String.eqb name "execute_command" then
    let preview :=
      if otruthy (field "script" input) then
        "[script:"
        ++ (if otruthy (field "shell" input) then orEmpty (field "shell" input)
            else "auto")
        ++ "] " ++ orEmpty (field "file_path" input)
      else orEmpty (field "command" input) in
    "Executing: " ++ (if truthy preview then preview else "(empty)")
  else if String.eqb name "take_screenshot" then "Taking screenshot..."
  else if String.eqb name "capture_webcam_photo" then
    "Capturing webcam photo..."
  else if String.eqb name "browse_website" then
    "Browsing: " ++ orEmpty (field "url" input)
  else "Running healer (installing dependencies, updating paths - may take 2-5 min)...".

Definition push (t : turn) (id : string) (r : tool_result) : turn :=
  {| toolResultsBlocks :=
       (toolResultsBlocks t ++ [{| tool_use_id := id; result := r |}])%list;
     executedThisResponse := executedThisResponse t;
     stopAfterBrowseSuccess := stopAfterBrowseSuccess t;
     executedBrowserActions := executedBrowserActions t |}.

(** The bookkeeping after a tool has run: the fingerprint of a successful
    [execute_command] or [browse_website] is remembered, the counter of the
    response goes up, and a successful browse raises the stop flag. *)
Definition record (t : turn) (name : string) (fp : option string)
  (r : Dispatcher.result) : turn :=
  let remembers :=
    String.eqb name "execute_command" || String.eqb name "browse_website" in
  {| toolResultsBlocks := toolResultsBlocks t;
     executedThisResponse := executedThisResponse t + 1;
     stopAfterBrowseSuccess :=
       if String.eqb name "browse_website" && STOP_AFTER_SUCCESSFUL_BROWSE
          && Dispatcher.success r
       then true else stopAfterBrowseSuccess t;
     executedBrowserActions :=
       match fp with
       | Some f =>
           if remembers && Dispatcher.success r
           then add f (executedBrowserActions t)
           else executedBrowserActions t
       | None => executedBrowserActions t
       end |}.

(** The body of [for (const toolUse of toolUses)]. *)
Definition step (chatId : nat) (stepConfirm : bool) (t : turn)
  (toolUse : block) : M turn :=
  let id := block_id toolUse in
  let name := block_name toolUse in
  let input := block_input toolUse in
  let shouldExecute := negb (stepConfirm && (1 <=? executedThisResponse t)) in
  let fp := fingerprintBrowserAction name input in
  if negb shouldExecute then ret (push t id deferredResult)
  else if match fp with
          | Some f => has f (executedBrowserActions t)
          | None => false
          end
  then ret (push t id (dedupedResult (orEmpty fp)))
  else if known name then
    safeSendMessage chatId (announcement name input) ;;;
    r <- invoke name input ;;
    ret (push (record t name fp r) id (ofEnvelope r))
  else ret (push t id (unknownToolResult name)).

Fixpoint forEach (chatId : nat) (stepConfirm : bool) (toolUses : list block)
  (t : turn) : M turn :=
  match toolUses with
  | [] => ret t
  | toolUse :: rest =>
      t' <- step chatId stepConfirm t toolUse ;;
      forEach chatId stepConfirm rest t'
  end.

(** *** The run *)

Definition budget (o : options) : N :=
  N.max 1024 (N.min 32000 (thinkingBudgetTokens o)).

(** The first request: with thinking when it is on, and once more without it
    when that call throws. *)
Definition firstRequest (o : options) (convo : list message) : M response :=
  if deepThinking o
  then try (ask (Some (budget o)) convo) (fun _ => ask None convo)
  else ask None convo.

(** A request inside the loop: one more attempt without thinking when the
    call throws, whether thinking was on or not. *)
Definition nextRequest (o : options) (convo : list message) : M response :=
  try (ask (if deepThinking o then Some (budget o) else None) convo)
      (fun _ => ask None convo).

(** What follows the loop: the last response joins the history and its text
    becomes the reply. *)
Definition finish (convo : list message) (r : response) : run_result :=
  {| replyText := finalText (content r);
     updatedMessages :=
       (convo
        ++ [{| msg_role := Assistant; msg_body := Blocks (content r) |}])%list
  |}.

(** [while (response.stop_reason === tool_use)].  The loop leaves at the
    latest when [iterations] passes [MAX_AGENT_ITERATIONS]; [fuel] only makes
    the recursion structural, and [S MAX_AGENT_ITERATIONS - iterations] of it
    is never used up (lemma [loop_fuel] below). *)
Fixpoint loop (fuel : nat) (chatId : nat) (o : options) (iterations : nat)
  (executed : list string) (convo : list message) (r : response)
  : M run_result :=
  match fuel with
  | 0 => ret (finish convo r)
  | S fuel' =>
      if negb (String.eqb (stop_reason r) "tool_use") then ret (finish convo r)
      else
        let iterations := iterations + 1 in
        if MAX_AGENT_ITERATIONS <? iterations then ret (finish convo r)
        else if negb (allowTools o) then ret (finish convo r)
        else
          let toolUses := filter is_tool_use (content r) in
          match toolUses with
          | [] => ret (finish convo r)
          | _ =>
              t <- forEach chatId (stepConfirm o) toolUses (newTurn executed) ;;
              let convo :=
                (convo
                 ++ [{| msg_role := Assistant;
                        msg_body := Blocks (content r) |};
                     {| msg_role := User;
                        msg_body := Results (toolResultsBlocks t) |}])%list in
              if stopAfterBrowseSuccess t then
                ret {| replyText := "Browser task completed.";
                       updatedMessages := convo |}
              else
                r' <- nextRequest o convo ;;
                loop fuel' chatId o iterations (executedBrowserActions t)
                  convo r'
          end
  end.

(** The body of the [try] block of [processWithClaude]. *)
Definition attempt (messages : list message) (chatId : nat) (o : options)
  : M run_result :=
  r <- firstRequest o messages ;;
  loop (S MAX_AGENT_ITERATIONS) chatId o 0 [] messages r.

Definition processWithClaude (messages : list message) (chatId : nat)
  (o : options) : M run_result :=
  try (attempt messages chatId o)
      (fun msg =>
         ret {| replyText := "Error: " ++ msg; updatedMessages := messages |}).

(** Start-up defaults of the options. *)
Variable DEEP_THINKING : bool.
Variable THINKING_BUDGET_TOKENS : N.
Variable STEP_CONFIRM : bool.

Definition sendLongMessage (chatId : nat) (text : string) : M unit :=
  fun st => (inr tt, log (Said chatId text) st).

(** [handleUserText]: the session store is read, the run is made on the
    trimmed history extended with the new text, and what the run returns is
    stored, trimmed again. *)
Definition handleUserText (chatHistory : history) (chatId : nat)
  (text : string) : M history :=
  let prior := match chatHistory chatId with Some ms => ms | None => [] end in
  let next :=
    (prior ++ [{| msg_role := User; msg_body := Plain text |}])%list in
  res <- processWithClaude (trimHistory next) chatId
           {| allowTools := true; deepThinking := DEEP_THINKING;
              thinkingBudgetTokens := THINKING_BUDGET_TOKENS;
              stepConfirm := STEP_CONFIRM |} ;;
  let chatHistory :=
    setHistory chatHistory chatId (trimHistory (updatedMessages res)) in
  sendLongMessage chatId (replyText res) ;;;
  ret chatHistory.

End Run.

End Orchestrator.

(* ===================================================================== *)
(** ** Vocabulary of the statements *)
(* ===================================================================== *)

Module Props.

Import Js Regex Orchestrator.

(** *** Matches of a regular expression *)

(** The character before the position that is reached from a position after
    [p] by reading [w]. *)
Fixpoint lastc (p : option ascii) (w : string) : option ascii :=
  match w with
  | EmptyString => p
  | String c w' => lastc (Some c) w'
  end.

(** [Match r p w s]: at a position that follows the character [p], the
    expression [r] can read exactly [w], with [s] the input after [w]. *)
Inductive Match : re -> option ascii -> string -> string -> Prop :=
| match_eps p s : Match Eps p EmptyString s
| match_chr f c p s : f c = true -> Match (Chr f) p (String c EmptyString) s
| match_cat a b p w1 w2 s :
    Match a p w1 (w2 ++ s) -> Match b (lastc p w1) w2 s ->
    Match (Cat a b) p (w1 ++ w2) s
| match_alt_l a b p w s : Match a p w s -> Match (Alt a b) p w s
| match_alt_r a b p w s : Match b p w s -> Match (Alt a b) p w s
| match_star f p w s : all f w = true -> Match (Star f) p w s
| match_bol s : Match Bol None EmptyString s
| match_eol p : Match Eol p EmptyString EmptyString
| match_wb p s : xorb (wordp p) (wordh s) = true -> Match Wb p EmptyString s
| match_mark p s : Match Mark p EmptyString s.

(** *** What the specification calls structured-shell text *)

(** The text contains a line feed. *)
Definition has_newline (t : string) : Prop :=
  exists a b, t = a ++ Dispatcher.nl ++ b.

(** The text contains the variable sigil followed by a word character. *)
Definition has_variable (t : string) : Prop :=
  exists a c b, t = a ++ "$" ++ String c b /\ is_word c = true.

(** The verbs that the specification lists for a verb-noun token. *)
Definition listed_verbs : list string :=
  ["Get"; "Set"; "New"; "Remove"; "Write"; "Select"; "Where"; "ForEach";
   "Out"; "Format"; "Start"].

(** The verbs that the specification lists after a pipe. *)
Definition piped_verbs : list string :=
  ["Select"; "Where"; "ForEach"; "Out"; "Format"].

(** The text contains a token that starts, where no word is under way, with
    one of the listed verbs, a hyphen and a word character. *)
Definition has_cmdlet (t : string) : Prop :=
  exists a v c b,
    t = a ++ v ++ "-" ++ String c b
    /\ In v listed_verbs
    /\ is_word c = true
    /\ wordp (lastc None a) = false.

(** The text contains a pipe that feeds, possibly after white space, into
    one of the five listed verbs followed by a hyphen and a word character. *)
Definition has_pipe (t : string) : Prop :=
  exists a ws v c b,
    t = a ++ "|" ++ ws ++ v ++ "-" ++ String c b
    /\ all is_space ws = true
    /\ In v piped_verbs
    /\ is_word c = true.

Definition structured (t : string) : Prop :=
  has_newline t \/ has_variable t \/ has_cmdlet t \/ has_pipe t.

(** *** Commands *)

(** The shell that [executeCommand] settles on for an input. *)
Definition effectiveShell (i : Dispatcher.exec_input) : string :=
  Dispatcher.detectShell
    (match Dispatcher.shell i with Some s => s | None => "auto" end)
    (Dispatcher.command i) (Dispatcher.script i)
    (Dispatcher.use_powershell i).

(** A shell is pinned: the hint is truthy and is not [auto]. *)
Definition pinnedShell (i : AnyInput.exec_input) : bool :=
  AnyInput.truthy (AnyInput.shell i)
  && negb (AnyInput.same (AnyInput.shell i) "auto").

(** [use_powershell] is a boolean. *)
Definition flagged (i : AnyInput.exec_input) : bool :=
  match AnyInput.use_powershell i with
  | AnyInput.VBoolean _ => true
  | _ => false
  end.

(** A value that the shell heuristic can read: it is falsy, a string or an
    array. *)
Definition readable (v : AnyInput.value) : bool :=
  negb (AnyInput.truthy v)
  || match v with
     | AnyInput.VString _ | AnyInput.VArray _ _ => true
     | _ => false
     end.

(** The two tests of the [cmd] block that hand a command to the detached
    Chrome launcher. *)
Definition routedToChrome (chromeExe command : string) : bool :=
  Dispatcher.didTryChrome (Dispatcher.rewriteStartChrome chromeExe command)
  || (test Dispatcher.re_chrome_exe command
      && (isSome (Dispatcher.extractFirstUrl command)
          || test Dispatcher.re_new_window command
          || test Dispatcher.re_app command)).

(** The empty launch target in the words of the specification: the word
    [start] in any letter case, followed by white space only, or by white
    space and one quoted text (empty or not) with nothing but white space
    after it. *)
Definition empty_launch (t : string) : Prop :=
  exists w ws,
    toLowerCase w = "start"
    /\ all is_space ws = true
    /\ (t = w ++ ws
        \/ exists title ws2,
             ws <> ""
             /\ all (non (ch Dispatcher.dq)) title = true
             /\ all is_space ws2 = true
             /\ t = w ++ ws ++ Dispatcher.q ++ title ++ Dispatcher.q ++ ws2).

(** A continuation whose success does not depend on the marks. *)
Definition insensitive (k : cont) : Prop :=
  forall ms ms' p s, isSome (k ms p s) = isSome (k ms' p s).

(** The tool calls of a trace. *)
Definition invocations (tr : list event) : list event := filter is_invoked tr.

(** The requests to the reasoning service of a trace. *)
Definition requests (tr : list event) : list event := filter is_asked tr.

(** The fingerprint of a request was already executed successfully. *)
Definition seen (executed : list string) (b : block) : bool :=
  match fingerprintBrowserAction (block_name b) (block_input b) with
  | Some f => has f executed
  | None => false
  end.

(** A request that step mode lets through and that still does not run: it is
    a duplicate or it names no tool. *)
Definition passedOver (executed : list string) (b : block) : bool :=
  seen executed b || negb (known (block_name b)).

(** The result written for such a request. *)
Definition passedOverResult (b : block) : tool_result :=
  match fingerprintBrowserAction (block_name b) (block_input b) with
  | Some f =>
      if known (block_name b) then dedupedResult f
      else unknownToolResult (block_name b)
  | None => unknownToolResult (block_name b)
  end.

(** The [tool_result] block that answers a request. *)
Definition answer (b : block) (r : tool_result) : tool_result_block :=
  {| tool_use_id := block_id b; result := r |}.

(** A turn with more result blocks and nothing else changed. *)
Definition extend (t : turn) (l : list tool_result_block) : turn :=
  {| toolResultsBlocks := (toolResultsBlocks t ++ l)%list;
     executedThisResponse := executedThisResponse t;
     stopAfterBrowseSuccess := stopAfterBrowseSuccess t;
     executedBrowserActions := executedBrowserActions t |}.

(** The fingerprint of a tool call that was made. *)
Definition attempted (e : event) : option string :=
  match e with
  | Invoked name input _ => fingerprintBrowserAction name input
  | _ => None
  end.

(** The fingerprint of a tool call that succeeded. *)
Definition succeeded (e : event) : option string :=
  match e with
  | Invoked name input (inr r) =>
      if Dispatcher.success r then fingerprintBrowserAction name input
      else None
  | _ => None
  end.

Definition remember (executed : list string) (e : event) : list string :=
  match succeeded e with
  | Some f => add f executed
  | None => executed
  end.

(** The set of executed fingerprints after a stretch of trace. *)
Fixpoint after (executed : list string) (tr : list event) : list string :=
  match tr with
  | [] => executed
  | e :: tr' => after (remember executed e) tr'
  end.

(** No tool call of the stretch has a fingerprint that had succeeded before
    it, starting from the set [executed]. *)
Fixpoint fresh (executed : list string) (tr : list event) : Prop :=
  match tr with
  | [] => True
  | e :: tr' =>
      match attempted e with
      | Some f => has f executed = false
      | None => True
      end
      /\ fresh (remember executed e) tr'
  end.

(** A stretch of trace without tool calls. *)
Definition onlyRequests (added : list event) : Prop :=
  Forall (fun e => is_invoked e = false) added.

Definition assistant (bs : list block) : message :=
  {| msg_role := Assistant; msg_body := Blocks bs |}.

Definition toolResults (rs : list tool_result_block) : message :=
  {| msg_role := User; msg_body := Results rs |}.

(** The call identifiers of the tool requests of a response. *)
Definition requested (bs : list block) : list string :=
  map block_id (filter is_tool_use bs).

(** [n] rounds: each an assistant message with at least one tool request,
    followed by the user message whose result blocks carry the identifiers of
    these requests, one each and in their order. *)
Inductive Rounds : nat -> list message -> Prop :=
| rounds_nil : Rounds 0 []
| rounds_cons n bs rs l :
    requested bs <> [] ->
    map tool_use_id rs = requested bs ->
    Rounds n l ->
    Rounds (S n) (assistant bs :: toolResults rs :: l).

Fixpoint sameIds (xs ys : list string) : bool :=
  match xs, ys with
  | [], [] => true
  | x :: xs', y :: ys' => String.eqb x y && sameIds xs' ys'
  | _, _ => false
  end.

(** The protocol check on a history: every assistant message with tool
    requests is followed at once by a user message that answers exactly
    these requests. *)
Fixpoint answered (ms : list message) : bool :=
  match ms with
  | [] => true
  | m :: rest =>
      match msg_role m, msg_body m with
      | Assistant, Blocks bs =>
          match requested bs with
          | [] => true
          | ids =>
              match rest with
              | {| msg_role := User; msg_body := Results rs |} :: _ =>
                  sameIds ids (map tool_use_id rs)
              | _ => false
              end
          end
      | _, _ => true
      end
      && answered rest
  end.

(** The requests that a stretch of history answers, each with the result
    written for it: the tool requests of an assistant message are paired, in
    their order, with the result blocks of the user message that follows
    it. *)
Fixpoint exchanges (ms : list message) : list (block * tool_result) :=
  match ms with
  | [] => []
  | m :: rest =>
      (match msg_role m, msg_body m, rest with
       | Assistant, Blocks bs,
         {| msg_role := User; msg_body := Results rs |} :: _ =>
           combine (filter is_tool_use bs) (map result rs)
       | _, _, _ => []
       end ++ exchanges rest)%list
  end.

(** The executed fingerprints once a request has been answered: its
    fingerprint joins them when the answer is the result of a call that
    succeeded, which is the one answer that reports success and is not
    marked as a duplicate. *)
Definition noted (executed : list string) (x : block * tool_result)
  : list string :=
  match fingerprintBrowserAction (block_name (fst x)) (block_input (fst x))
  with
  | Some f =>
      if success (snd x) && negb (deduped (snd x)) then add f executed
      else executed
  | None => executed
  end.

(** Every request of the list whose fingerprint was executed successfully
    before it is answered by the duplicate notice or, in step mode only, by
    the deferral. *)
Fixpoint settled (sc : bool) (executed : list string)
  (xs : list (block * tool_result)) : Prop :=
  match xs with
  | [] => True
  | x :: xs' =>
      (forall f,
         fingerprintBrowserAction (block_name (fst x)) (block_input (fst x))
         = Some f ->
         has f executed = true ->
         snd x = dedupedResult f \/ (sc = true /\ snd x = deferredResult))
      /\ settled sc (noted executed x) xs'
  end.

(** The answer to a request is the result of a call of its tool that the
    stretch of trace holds. *)
Definition executedIn (tr : list event) (x : block * tool_result) : Prop :=
  exists r,
    snd x = ofEnvelope r
    /\ In (Invoked (block_name (fst x)) (block_input (fst x)) (inr r)) tr.

(** An answer that reports success and is not marked as a duplicate comes
    from a call in the stretch of trace. *)
Definition accounted (tr : list event) (x : block * tool_result) : Prop :=
  success (snd x) = true -> deduped (snd x) = false -> executedIn tr x.

End Props.

(* ===================================================================== *)
(** ** Concrete worlds for the examples *)
(* ===================================================================== *)

Module Scenarios.

Import Js Regex Orchestrator.

(** A reasoning service that answers from a script: the world is the number
    of requests made so far, and a request past the end of the script throws. *)
Definition scripted (script : list (string + response))
  : option N -> list message -> nat -> (string + response) * nat :=
  fun _ _ n => (nth n script (inl "socket hang up"), S n).

(** A reasoning service that gives the same answer to every request. *)
Definition constant (r : string + response)
  : option N -> list message -> nat -> (string + response) * nat :=
  fun _ _ n => (r, S n).

Definition done : Dispatcher.result :=
  {| Dispatcher.success := true; Dispatcher.error := None;
     Dispatcher.output := Some "done" |}.

(** Tool handlers that always succeed. *)
Definition succeeding
  : string -> tool_input -> nat -> (string + Dispatcher.result) * nat :=
  fun _ _ n => (inr done, n).

Definition start : state nat := {| world := 0; trace := [] |}.

Definition hello : list message :=
  [{| msg_role := User; msg_body := Plain "hello" |}].

Definition stepByStep : options :=
  {| allowTools := true; deepThinking := false;
     thinkingBudgetTokens := 8000%N; stepConfirm := true |}.

Definition screenshot (id : string) : block := ToolUse id "take_screenshot" [].

Definition browse (id : string) : block :=
  ToolUse id "browse_website"
    [("url", "https://example.com"); ("task", "read the title")].

(** A request to open an address in the regular Chrome. *)
Definition launch (id : string) : block :=
  ToolUse id "execute_command"
    [("command", "start chrome https://example.com")].

Definition wantsTool (bs : list block) : string + response :=
  inr {| stop_reason := "tool_use"; content := bs |}.

Definition says (text : string) : string + response :=
  inr {| stop_reason := "end_turn"; content := [Text text] |}.

(** A turn of step mode in which one tool has already run. *)
Definition afterOneTool : turn :=
  {| toolResultsBlocks :=
       [{| tool_use_id := "a"; result := ofEnvelope done |}];
     executedThisResponse := 1;
     stopAfterBrowseSuccess := false;
     executedBrowserActions := [] |}.

(** A turn of a run in which the browse of [browse] has succeeded before. *)
Definition afterBrowse : turn :=
  {| toolResultsBlocks := [];
     executedThisResponse := 0;
     stopAfterBrowseSuccess := false;
     executedBrowserActions :=
       ["browse:https://example.com|read the title"] |}.

(** The first standard install location of Chrome. *)
Definition chrome : string :=
  "C:\Program Files\Google\Chrome\Application\chrome.exe".

(** A tool input with a command and nothing else. *)
Definition commandLine (c : string) : Dispatcher.exec_input :=
  {| Dispatcher.command := Some c; Dispatcher.script := None;
     Dispatcher.shell := None; Dispatcher.file_path := None;
     Dispatcher.use_powershell := None |}.

(** A tool input with a command and a pinned shell. *)
Definition pinned (c sh : string) : Dispatcher.exec_input :=
  {| Dispatcher.command := Some c; Dispatcher.script := None;
     Dispatcher.shell := Some sh; Dispatcher.file_path := None;
     Dispatcher.use_powershell := None |}.

(** A tool input whose [command] holds any value and nothing else. *)
Definition onlyCommand (v : AnyInput.value) : AnyInput.exec_input :=
  {| AnyInput.command := v; AnyInput.script := AnyInput.VUndefined;
     AnyInput.shell := AnyInput.VUndefined; AnyInput.file_path := None;
     AnyInput.use_powershell := AnyInput.VUndefined |}.

End Scenarios.

(* ===================================================================== *)
(** ** Delivery helpers ([withRetries], [createTelegramHelpers]) *)
(* ===================================================================== *)

Module Helpers.

Import Js.

(** [String.prototype.toLowerCase] on code units below 256: the ASCII
    capitals and the Latin-1 capitals (all of 192 to 222 but the
    multiplication sign) move up by 32. *)
Definition lowerCase (c : ascii) : ascii :=
  let n := code c in
  if ((65 <=? n) && (n <=? 90))
     || ((192 <=? n) && (n <=? 222) && negb (n =? 215))
  then ascii_of_nat (n + 32) else c.

Fixpoint toLower (s : string) : string :=
  match s with
  | EmptyString => EmptyString
  | String c s' => String (lowerCase c) (toLower s')
  end.

(** The fields of a thrown error that the helpers read; each is a string
    or [undefined].  A code that is not a string equals none of the listed
    codes and is here a string that is none of them (or [None] when it is
    falsy); a message that is not a string is the string the template makes
    of it. *)
Record js_error : Type := {
  code : option string;
  message : option string;
  cause_code : option string;
  cause_message : option string
}.

Definition transientCodes : list string :=
  ["ECONNRESET"; "ENOTFOUND"; "EAI_AGAIN"; "ETIMEDOUT"; "ECONNREFUSED";
   "EFATAL"].

Definition transientPhrases : list string :=
  ["econnreset"; "enotfound"; "etimedout"; "socket hang up"].

Definition isTransientNetworkError (err : js_error) : bool :=
  let code :=
    if otruthy (code err) then orEmpty (code err)
    else orEmpty (cause_code err) in
  let msg :=
    toLower (orEmpty (message err) ++ " " ++ orEmpty (cause_message err)) in
  existsb (String.eqb code) transientCodes
  || existsb (fun phrase => includes phrase msg) transientPhrases.

(** *** [withRetries] *)

Section Retry.

(** The state the attempts act on, and the pause between two attempts. *)
Variable St : Type.
Variable sleep : N -> St -> St.

Variable A : Type.

(** [fn]: it returns a value or throws. *)
Variable fn : St -> (js_error + A) * St.

Variable retries : nat.
Variable baseDelayMs maxDelayMs : N.

(** [Math.min(maxDelayMs, baseDelayMs * Math.pow(2, attempt - 1))] *)
Definition delay (attempt : nat) : N :=
  N.min maxDelayMs (baseDelayMs * 2 ^ N.of_nat (attempt - 1)).

(** [while (true)]: the loop is left by a return or a throw, at the latest
    when [attempt] passes [retries]; [fuel] only makes the recursion
    structural, and [retries - attempt] of it is never used up. *)
Fixpoint retryLoop (fuel attempt : nat) (st : St) : (js_error + A) * St :=
  match fn st with
  | (inr x, st') => (inr x, st')
  | (inl e, st') =>
      let attempt := attempt + 1 in
      if negb (isTransientNetworkError e) || (retries <? attempt)
      then (inl e, st')
      else
        match fuel with
        | 0 => (inl e, st')
        | S fuel' => retryLoop fuel' attempt (sleep (delay attempt) st')
        end
  end.

Definition withRetries (st : St) : (js_error + A) * St :=
  retryLoop retries 0 st.

End Retry.

(** *** [createTelegramHelpers] *)

(** [chunkString]: [str.slice(i, i + maxLen)] for [i] from 0 in steps of
    [maxLen] while [i < str.length].  With [maxLen = 0] and a text that is
    not empty the source never leaves the loop; the recursion here stops
    after [str.length] pieces, which is enough for every [maxLen] above 0. *)
Fixpoint chunkLoop (fuel : nat) (str : string) (maxLen i : nat)
  : list string :=
  match fuel with
  | 0 => []
  | S fuel' =>
      if i <? String.length str
      then substring i maxLen str :: chunkLoop fuel' str maxLen (i + maxLen)
      else []
  end.

Definition chunkString (str : string) (maxLen : nat) : list string :=
  chunkLoop (String.length str) str maxLen 0.

Section Bot.

(** The world of the transport, and [bot.sendMessage]: it delivers or
    throws. *)
Variable W : Type.
Variable sendMessage : nat -> string -> W -> (js_error + unit) * W.

(** What goes out: every call of [bot.sendMessage] with its text and
    whether it delivered, the pauses between attempts, and the warnings
    written when a message is given up. *)
Inductive hevent : Type :=
| Tried (chatId : nat) (text : string) (delivered : bool)
| Paused (ms : N)
| Warned.

Record hstate : Type := {
  hworld : W;
  hlog : list hevent
}.

Definition note (e : hevent) (st : hstate) : hstate :=
  {| hworld := hworld st; hlog := (hlog st ++ [e])%list |}.

Definition trySend (chatId : nat) (text : string) (st : hstate)
  : (js_error + unit) * hstate :=
  let (r, w) := sendMessage chatId text (hworld st) in
  (r, {| hworld := w;
         hlog := (hlog st
                  ++ [Tried chatId text
                        (match r with inr _ => true | inl _ => false end)])%list
      |}).

(** [safeSendMessage]: up to four more attempts after the first, and
    [false] instead of a throw when the message is given up. *)
Definition safeSendMessage (chatId : nat) (text : string) (st : hstate)
  : bool * hstate :=
  match withRetries (fun ms => note (Paused ms)) (trySend chatId text)
          4 500 15000 st with
  | (inr _, st') => (true, st')
  | (inl _, st') => (false, note Warned st')
  end.

(** [for (const part of parts)] with its [break] on the first part that
    could not be delivered. *)
Fixpoint sendParts (chatId : nat) (parts : list string) (st : hstate)
  : hstate :=
  match parts with
  | [] => st
  | part :: rest =>
      let (ok, st') := safeSendMessage chatId part st in
      if ok then sendParts chatId rest st' else st'
  end.

(** [sendLongMessage] message by message; the orchestrator above sees it
    as one action. *)
Definition sendLongMessage (chatId : nat) (text : string) (st : hstate)
  : hstate :=
  if negb (truthy (trim text))
  then snd (safeSendMessage chatId "(no output)" st)
  else sendParts chatId (chunkString text 3500) st.

End Bot.

End Helpers.

(* ===================================================================== *)
(** ** Start-up ([loadConfig], the settings of [startTelegramBot]) *)
(* ===================================================================== *)

Module Startup.

Import Js.

(** *** Numbers *)

(** A JavaScript number: every finite double is a ratio of integers. *)
Inductive number : Type :=
| NaN
| Infinity (negative : bool)
| Ratio (n : Z) (d : positive).

Definition int (n : Z) : number := Ratio n 1.

(** [Math.floor] *)
Definition floor (x : number) : number :=
  match x with
  | Ratio n d => int (n / Zpos d)
  | _ => x
  end.

(** [x <= y] on numbers that are not [NaN]. *)
Definition leq (x y : number) : bool :=
  match x, y with
  | Infinity true, _ => true
  | _, Infinity false => true
  | Ratio n d, Ratio n' d' => (n * Zpos d' <=? n' * Zpos d)%Z
  | _, _ => false
  end.

(** [Math.min] and [Math.max] of two numbers. *)
Definition min (x y : number) : number :=
  match x, y with
  | NaN, _ | _, NaN => NaN
  | _, _ => if leq x y then x else y
  end.

Definition max (x y : number) : number :=
  match x, y with
  | NaN, _ | _, NaN => NaN
  | _, _ => if leq x y then y else x
  end.

(** Truthiness of a number: zero and [NaN] are falsy. *)
Definition truthyNumber (x : number) : bool :=
  match x with
  | NaN => false
  | Infinity _ => true
  | Ratio n _ => negb (n =? 0)%Z
  end.

(** [x || y] *)
Definition orElse (x y : number) : number := if truthyNumber x then x else y.

(** *** The configuration object *)

(** A value of the configuration: what [JSON.parse] can give, or
    [undefined] for a key that is nowhere.  An array or object is kept as
    what [Number] makes of it. *)
Inductive json : Type :=
| JUndefined
| JNull
| JBool (b : bool)
| JNumber (x : number)
| JString (s : string)
| JObject (asNumber : number).

(** The own properties of an object, each key once. *)
Definition object : Type := list (string * json).

Fixpoint property (k : string) (o : object) : option json :=
  match o with
  | [] => None
  | (k', v) :: o' => if String.eqb k k' then Some v else property k o'
  end.

Definition DEFAULTS : object :=
  [("dataDir", JString "./data");
   ("notesPath", JString "notes/notes.txt");
   ("openaiVisionModel", JString "gpt-4.1-mini");
   ("openaiTranscribeModel", JString "gpt-4o-mini-transcribe");
   ("stepConfirm", JBool true);
   ("maxAgentIterations", JNumber (int 25));
   ("dataRetentionHours", JNumber (int 24));
   ("dataCleanupIntervalMinutes", JNumber (int 60));
   ("deepThinking", JBool false);
   ("thinkingBudgetTokens", JNumber (int 8000));
   ("stopAfterSuccessfulBrowse", JBool true);
   ("ffmpegPath", JString EmptyString);
   ("autoInstallFfmpeg", JBool true);
   ("browserUsePython", JString "python");
   ("chromePath", JString EmptyString);
   ("chromeUserData", JString EmptyString);
   ("autoInstallBrowserUse", JBool true);
   ("autoInstallPlaywright", JBool true);
   ("autoInstallPlaywrightChromium", JBool true);
   ("browserUseLlmProvider", JString "openai");
   ("browserUseLlmModel", JString "gpt-4o");
   ("powershellExe", JString EmptyString);
   ("gitBashPath", JString EmptyString)].

(** [loadConfig]: [raw] is what was parsed from [config.json], or nothing
    when the file is missing or cannot be read or parsed; the result is
    [{ ...DEFAULTS, ...raw }], seen through its properties. *)
Definition loadConfig (raw : option object) (k : string) : json :=
  match property k (match raw with Some o => o | None => [] end) with
  | Some v => v
  | None =>
      match property k DEFAULTS with
      | Some v => v
      | None => JUndefined
      end
  end.

Section Settings.

(** [Number] on a string. *)
Variable stringToNumber : string -> number.

(** [Number(v)] *)
Definition toNumber (v : json) : number :=
  match v with
  | JUndefined => NaN
  | JNull => int 0
  | JBool b => if b then int 1 else int 0
  | JNumber x => x
  | JString s => stringToNumber s
  | JObject x => x
  end.

Definition isFalse (v : json) : bool :=
  match v with JBool false => true | _ => false end.

Definition isTrue (v : json) : bool :=
  match v with JBool true => true | _ => false end.

Variable cfg : string -> json.

Definition DATA_RETENTION_HOURS : number :=
  max (int 1) (orElse (floor (toNumber (cfg "dataRetentionHours"))) (int 24)).

Definition DATA_CLEANUP_INTERVAL_MINUTES : number :=
  max (int 5)
    (orElse (floor (toNumber (cfg "dataCleanupIntervalMinutes"))) (int 60)).

Definition STEP_CONFIRM : bool := negb (isFalse (cfg "stepConfirm")).

Definition MAX_AGENT_ITERATIONS : number :=
  max (int 1)
    (min (int 100)
       (orElse (floor (toNumber (cfg "maxAgentIterations"))) (int 25))).

Definition DEEP_THINKING : bool := isTrue (cfg "deepThinking").

Definition THINKING_BUDGET_TOKENS : number :=
  orElse (floor (toNumber (cfg "thinkingBudgetTokens"))) (int 8000).

Definition STOP_AFTER_SUCCESSFUL_BROWSE : bool :=
  negb (isFalse (cfg "stopAfterSuccessfulBrowse")).

End Settings.

(** The iteration cap as the loop of [processWithClaude] counts it. *)
Definition count (x : number) : nat :=
  match x with
  | Ratio n _ => Z.to_nat n
  | _ => 0
  end.

(** *** Authorised users *)

(** [s.split(sep)] for a separator of one character. *)
Fixpoint split (sep : ascii) (s : string) : list string :=
  match s with
  | EmptyString => [EmptyString]
  | String c s' =>
      if Ascii.eqb c sep then EmptyString :: split sep s'
      else
        match split sep s' with
        | l :: ls => String c l :: ls
        | [] => [String c EmptyString]
        end
  end.

(** The list built at start-up from [AUTHORIZED_USER_IDS] and
    [AUTHORIZED_USER_ID]. *)
Definition authorizedUserIds (AUTHORIZED_USER_IDS AUTHORIZED_USER_ID
                              : option string) : list string :=
  let ids := trim (orEmpty AUTHORIZED_USER_IDS) in
  if truthy ids then filter truthy (map trim (split "," ids))
  else
    let single := trim (orEmpty AUTHORIZED_USER_ID) in
    if truthy single then [single] else [].

(** The test at the head of the message handler. *)
Definition unauthorized (authorizedUserIds : list string) (userId : string)
  : bool :=
  (0 <? length authorizedUserIds)
  && negb (existsb (String.eqb userId) authorizedUserIds).

End Startup.

Module StartupProps.

Import Js Startup.

(** An identifier as it is written in the list: not empty, without white
    space and without a comma. *)
Definition plainId (u : string) : bool :=
  truthy u
  && all (fun c => negb (is_space c) && negb (Ascii.eqb c ",")) u.

(** A text of commas and white space only. *)
Definition onlySeparators (s : string) : bool :=
  all (fun c => is_space c || Ascii.eqb c ",") s.

End StartupProps.

(* ===================================================================== *)
(** ** Vocabulary of the further statements about the dispatcher *)
(* ===================================================================== *)

Module DispatcherProps.

Import Js Regex Dispatcher.

(** The file extension that belongs to an interpreter. *)
Definition extensionOf (via : interpreter) : string :=
  match via with
  | ViaPowerShell => ".ps1"
  | ViaBash => ".sh"
  | ViaCmd => ".cmd"
  end.

(** A shell hint that the tool schema allows: none, one of the four listed
    values, or the empty text. *)
Definition schemaShell (hint : AnyInput.value) : bool :=
  match hint with
  | AnyInput.VUndefined => true
  | AnyInput.VString s =>
      String.eqb s "auto" || String.eqb s "cmd" || String.eqb s "powershell"
      || String.eqb s "bash" || String.eqb s EmptyString
  | _ => false
  end.

(** The shell that [executeCommand] settles on for an input, or the message
    of the exception of the shell heuristic. *)
Definition settledShell (i : AnyInput.exec_input) : string + AnyInput.value :=
  AnyInput.detectShell
    (AnyInput.orDefault (AnyInput.shell i) (AnyInput.VString "auto"))
    (AnyInput.command i) (AnyInput.script i) (AnyInput.use_powershell i).

(** Every match of the expression holds the literal [w], read without
    regard to letter case. *)
Inductive Mentions (w : string) : re -> Prop :=
| mentions_here : Mentions w (liti w)
| mentions_first a b : Mentions w a -> Mentions w (Cat a b)
| mentions_later a b : Mentions w b -> Mentions w (Cat a b)
| mentions_both a b : Mentions w a -> Mentions w b -> Mentions w (Alt a b).

End DispatcherProps.

(* ===================================================================== *)
(** ** The healer ([runHealer]) *)
(* ===================================================================== *)

Module Healer.

Import Js.

(** The object [runHealer] resolves with; a boolean field that the source
    leaves out is [false] here. *)
Record heal_result : Type := {
  success : bool;
  skipped : bool;
  note : option string;
  error : option string;
  exitCode : option Z;
  output : string
}.

(** How the child process ends: the first of its [close] event (with the
    exit code, or [null]), the timer of eight minutes, and its [error]
    event; and what it had written until then. *)
Inductive ending : Type :=
| Closed (code : option Z)
| TimedOut
| Errored (message : string).

Record child : Type := {
  stdout : string;
  stderr : string;
  ends : ending
}.

(** What a call finds: whether [heal.ps1] is there, and what the child does
    if it is started. *)
Record machine : Type := {
  healExists : bool;
  powershell : child
}.

(** [HEALER_RAN_THIS_PROCESS.ran], and the number of children started. *)
Record state : Type := {
  ran : bool;
  started : nat
}.

(** [s.slice(-n)] *)
Definition lastChars (n : nat) (s : string) : string :=
  substring (String.length s - n) n s.

Definition alreadyRan : heal_result :=
  {| success := true; skipped := true;
     note := Some "Healer already ran once this session. Run 'npm run heal' manually if you need to run it again.";
     error := None; exitCode := None; output := EmptyString |}.

Definition notFound : heal_result :=
  {| success := false; skipped := false; note := None;
     error := Some "heal.ps1 not found in project root.";
     exitCode := None; output := EmptyString |}.

(** [(stdout + nl + stderr).trim()] *)
Definition collected (c : child) : string :=
  trim (stdout c ++ String (ascii_of_nat 10) EmptyString ++ stderr c).

Definition outcome (c : child) : heal_result :=
  match ends c with
  | TimedOut =>
      {| success := false; skipped := false; note := None;
         error := Some "Healer timed out after 8 minutes.";
         exitCode := None; output := lastChars (4 * 1000) (collected c) |}
  | Closed code =>
      {| success := match code with Some 0%Z => true | _ => false end;
         skipped := false; note := None; error := None; exitCode := code;
         output := lastChars (8 * 1000) (collected c) |}
  | Errored message =>
      {| success := false; skipped := false; note := None;
         error := Some message; exitCode := None; output := collected c |}
  end.

(** One call that has come to its end before the next one begins. *)
Definition runHealer (m : machine) (st : state) : heal_result * state :=
  if ran st then (alreadyRan, st)
  else if negb (healExists m) then (notFound, st)
  else (outcome (powershell m), {| ran := true; started := started st + 1 |}).

(** Calls one after the other. *)
Fixpoint session (calls : list machine) (st : state)
  : list heal_result * state :=
  match calls with
  | [] => ([], st)
  | m :: rest =>
      let (r, st') := runHealer m st in
      let (rs, st'') := session rest st' in
      (r :: rs, st'')
  end.

Definition fresh : state := {| ran := false; started := 0 |}.

End Healer.

(* ===================================================================== *)
(** ** Vocabulary of the statements about whole runs *)
(* ===================================================================== *)

Module RunProps.

Import Js Regex Orchestrator Props.

(** A tool call that threw. *)
Definition thrown (e : event) : bool :=
  match e with Invoked _ _ (inl _) => true | _ => false end.

(** A call of [browse_website] that reported success. *)
Definition successfulBrowse (e : event) : bool :=
  match e with
  | Invoked name _ (inr r) =>
      String.eqb name "browse_website" && Dispatcher.success r
  | _ => false
  end.

(** The message a computation threw, if it threw. *)
Definition failure {A} (out : string + A) : option string :=
  match out with inl msg => Some msg | inr _ => None end.

(** Every tool call of the stretch is for one of the five tools and comes
    right after its announcement to the chat; [prev] is the event before the
    stretch. *)
Fixpoint announced (chatId : nat) (prev : option event) (tr : list event)
  : Prop :=
  match tr with
  | [] => True
  | e :: tr' =>
      match e with
      | Invoked name input _ =>
          known name = true
          /\ prev = Some (Said chatId (announcement name input))
      | _ => True
      end
      /\ announced chatId (Some e) tr'
  end.

(** A tool call that throws is the last event of the stretch, and its
    message is [err]. *)
Fixpoint halts (err : option string) (tr : list event) : Prop :=
  match tr with
  | [] => True
  | e :: tr' =>
      match e with
      | Invoked _ _ (inl msg) => tr' = [] /\ err = Some msg
      | _ => True
      end
      /\ halts err tr'
  end.

(** No request to the reasoning service follows a successful browse. *)
Fixpoint quiet (tr : list event) : Prop :=
  match tr with
  | [] => True
  | e :: tr' =>
      (successfulBrowse e = true -> requests tr' = []) /\ quiet tr'
  end.

(** An expression that looks at nothing around the text it reads: it has
    no anchor and no word boundary. *)
Fixpoint plain (r : re) : bool :=
  match r with
  | Bol | Eol | Wb => false
  | Cat a b | Alt a b => plain a && plain b
  | _ => true
  end.

(** A text without a line feed. *)
Definition oneLine (l : string) : bool :=
  all (fun c => negb (Ascii.eqb c (ascii_of_nat 10))) l.

(** What the tool requests of one response leave in the trace: no request
    to the service, announced calls only, nothing after a call that threw,
    in step mode at most one call, and the counter and the stop flag of the
    turn as the calls made them. *)
Definition turned (STOP_AFTER_SUCCESSFUL_BROWSE : bool) (chatId : nat)
  (sc : bool) (t : turn) (out : string + turn) (a : list event) : Prop :=
  Forall (fun e => is_asked e = false) a
  /\ (forall p, announced chatId p a)
  /\ halts (failure out) a
  /\ (sc = true -> length (invocations a) <= 1 - executedThisResponse t)
  /\ match out with
     | inr t' =>
         existsb thrown a = false
         /\ stopAfterBrowseSuccess t'
            = stopAfterBrowseSuccess t
              || (STOP_AFTER_SUCCESSFUL_BROWSE && existsb successfulBrowse a)
         /\ executedThisResponse t'
            = executedThisResponse t + length (invocations a)
     | inl _ => True
     end.

(** What a loop leaves in the trace, from iteration [i] on. *)
Definition looped (MAX_AGENT_ITERATIONS : nat)
  (STOP_AFTER_SUCCESSFUL_BROWSE : bool) (chatId : nat) (o : options)
  (i : nat) (convo : list message) (out : string + run_result)
  (a : list event) : Prop :=
  (forall p, announced chatId p a)
  /\ halts (failure out) a
  /\ length (requests a) <= 2 * (MAX_AGENT_ITERATIONS - i)
  /\ (stepConfirm o = true ->
      length (invocations a) <= MAX_AGENT_ITERATIONS - i)
  /\ (STOP_AFTER_SUCCESSFUL_BROWSE = true -> quiet a)
  /\ match out with
     | inr res =>
         length (updatedMessages res)
         <= length convo + 2 * (MAX_AGENT_ITERATIONS - i) + 1
         /\ (STOP_AFTER_SUCCESSFUL_BROWSE = true ->
             existsb successfulBrowse a = true ->
             replyText res = "Browser task completed.")
     | inl _ => True
     end.

End RunProps.

(* ===================================================================== *)
(** ** Further worlds for the examples *)
(* ===================================================================== *)

Module RunScenarios.

Import Js Regex Orchestrator Props Scenarios.

(** Tool handlers that throw. *)
Definition failing
  : string -> tool_input -> nat -> (string + Dispatcher.result) * nat :=
  fun _ _ n => (inl "spawn ENOENT", n).

(** A screenshot, then the answer. *)
Definition oneScreenshot
  : option N -> list message -> nat -> (string + response) * nat :=
  scripted [wantsTool [screenshot "a"]; says "finished"].

(** A browse and a screenshot in one response. *)
Definition browseAndLook
  : option N -> list message -> nat -> (string + response) * nat :=
  scripted [wantsTool [browse "a"; screenshot "b"]; says "finished"].

Definition atOnce : options :=
  {| allowTools := true; deepThinking := false;
     thinkingBudgetTokens := 8000%N; stepConfirm := false |}.

(** A run in step mode over tools that succeed, the same run over tools
    that throw, and a run with the stop-after-browse switch on. *)
Definition screenshotRun : (string + run_result) * state nat :=
  processWithClaude oneScreenshot succeeding 25 false hello 7 stepByStep
    start.

Definition failedRun : (string + run_result) * state nat :=
  processWithClaude oneScreenshot failing 25 false hello 7 stepByStep start.

Definition browseRun : (string + run_result) * state nat :=
  processWithClaude browseAndLook succeeding 25 true hello 7 atOnce start.

Definition resultOf (run : (string + run_result) * state nat) : run_result :=
  match fst run with
  | inr res => res
  | inl msg => {| replyText := msg; updatedMessages := [] |}
  end.

End RunScenarios.

(* ===================================================================== *)
(** ** The clean-up of the data directory ([cleanupOldFilesInDataDir]) *)
(* ===================================================================== *)

Module Cleanup.

Import Js Startup.

(** [x < y] on numbers *)
Definition lt (x y : number) : bool :=
  match x, y with
  | NaN, _ | _, NaN => false
  | _, _ => negb (leq y x)
  end.

(** What lies below the data directory, as the walk meets it: for every
    entry what [lstat] says of it (or that [lstat] throws), and whether
    [unlink], the [readdir] of [walk], the [readdir] that follows the walk
    of a directory, and [rmdir] go through or throw. *)
Inductive entry : Type :=
| File (mtimeMs : number) (unlinks : bool)
| Directory (mtimeMs : number) (reads rereads removes : bool)
    (entries : listing)
| SymbolicLink
| Other
| Unreadable
with listing : Type :=
| Empty
| Entry (name : string) (e : entry) (rest : listing).

Scheme entry_listing_ind := Induction for entry Sort Prop
  with listing_entry_ind := Induction for listing Sort Prop.

(** A path, as the names below the data directory. *)
Definition path : Type := list string.

Inductive action : Type :=
| Unlinked (fullPath : path)
| Removed (fullPath : path).

Definition isEmpty (es : listing) : bool :=
  match es with Empty => true | _ => false end.

Section Walk.

Variable cutoffMs : number.

(** [path.resolve(fullPath) === path.resolve(DATA_DIR)] and
    [resolved.startsWith(root)] *)
Variable isDataDir : path -> bool.
Variable underDataDir : path -> bool.

(** [visit] is the body of the loop of [walk] for one entry, [walk] the
    loop over the entries of a directory that [readdir] has listed: what
    is left, and what was deleted.  The two counters of the source are only
    printed. *)
Fixpoint visit (fullPath : path) (e : entry) : option entry * list action :=
  if isDataDir fullPath then (Some e, [])
  else
    match e with
    | Unreadable => (Some e, [])
    | SymbolicLink => (Some e, [])
    | Directory mtimeMs reads rereads removes entries =>
        let (remaining, log) :=
          if reads then walk fullPath entries else (entries, []) in
        if rereads && isEmpty remaining && lt mtimeMs cutoffMs && removes
        then (None, (log ++ [Removed fullPath])%list)
        else (Some (Directory mtimeMs reads rereads removes remaining), log)
    | File mtimeMs unlinks =>
        if lt mtimeMs cutoffMs && underDataDir fullPath && unlinks
        then (None, [Unlinked fullPath])
        else (Some e, [])
    | Other => (Some e, [])
    end
with walk (dir : path) (es : listing) : listing * list action :=
  match es with
  | Empty => (Empty, [])
  | Entry name x rest =>
      let (x', l1) := visit (dir ++ [name])%list x in
      let (rest', l2) := walk dir rest in
      (match x' with
       | Some y => Entry name y rest'
       | None => rest'
       end, (l1 ++ l2)%list)
  end.

(** [cleanupOldFilesInDataDir]: the walk from the data directory. *)
Definition cleanupOldFilesInDataDir (reads : bool) (es : listing)
  : listing * list action :=
  if reads then walk [] es else (es, []).

End Walk.

(** The entry found below a directory by a path of names. *)
Inductive At : listing -> path -> entry -> Prop :=
| at_here name e rest : At (Entry name e rest) [name] e
| at_below name m r rr rm sub rest p e :
    At sub p e ->
    At (Entry name (Directory m r rr rm sub) rest) (name :: p) e
| at_later name x rest p e : At rest p e -> At (Entry name x rest) p e.

(** A deletion that the walk from [dir] over [es] may make: a file that
    [lstat] showed older than the cut-off, that lies under the data
    directory and is not the data directory; or a directory older than the
    cut-off that is not the data directory, and for which the [readdir]
    after its walk and [rmdir] go through. *)
Definition justified (cutoffMs : number) (isDataDir underDataDir : path -> bool)
  (es : listing) (dir : path) (a : action) : Prop :=
  exists rel,
    match a with
    | Unlinked p =>
        p = (dir ++ rel)%list
        /\ (exists m, At es rel (File m true) /\ lt m cutoffMs = true)
        /\ underDataDir p = true /\ isDataDir p = false
    | Removed p =>
        p = (dir ++ rel)%list
        /\ (exists m reads sub,
              At es rel (Directory m reads true true sub)
              /\ lt m cutoffMs = true)
        /\ isDataDir p = false
    end.

(** A data directory with an old picture in a folder of its own and a
    fresh note, at a cut-off of 100. *)
Definition sampleData : listing :=
  Entry "tmp"
    (Directory (int 1) true true true
       (Entry "a.png" (File (int 1) true) Empty))
    (Entry "notes.txt" (File (int 200) true) Empty).

Definition sampleCleanup : listing * list action :=
  cleanupOldFilesInDataDir (int 100) (fun _ => false) (fun _ => true) true
    sampleData.

End Cleanup.


(* ===================================================================== *)
(** ** The search for ffmpeg ([resolveFfmpegPath], [isFfmpegAvailable]) *)
(* ===================================================================== *)

Module Ffmpeg.

Import Js.

(** What a call finds on the machine: the configured path (as the string
    that [toString] makes of it, or [None] when it is falsy), which files
    exist ([fs.existsSync] may throw), and which command lines run to a
    good end. *)
Record machine : Type := {
  ffmpegPath : option string;
  existsSync : string -> option bool;
  runs : string -> bool
}.

(** [ffmpegAvailabilityPromise], as the value the promise resolves to, and
    [ffmpegResolvedPath]. *)
Record state : Type := {
  ffmpegAvailabilityPromise : option bool;
  ffmpegResolvedPath : option string
}.

Definition fresh : state :=
  {| ffmpegAvailabilityPromise := None; ffmpegResolvedPath := None |}.

Definition _candidateFfmpegPaths (m : machine) : list string :=
  let cfgPath := trim (orEmpty (ffmpegPath m)) in
  ((if truthy cfgPath then [cfgPath] else [])
   ++ ["C:\ffmpeg\bin\ffmpeg.exe"; "C:\Program Files\ffmpeg\bin\ffmpeg.exe";
       "ffmpeg"])%list.

Definition versionCommand (candidate : string) : string :=
  if String.eqb candidate "ffmpeg" then "ffmpeg -version"
  else Dispatcher.q ++ candidate ++ Dispatcher.q ++ " -version".

(** The loop over the candidates. *)
Fixpoint firstWorking (m : machine) (candidates : list string)
  : option string :=
  match candidates with
  | [] => None
  | candidate :: rest =>
      let there :=
        if String.eqb candidate "ffmpeg" then true
        else match existsSync m candidate with
             | Some b => b
             | None => false
             end in
      if there && runs m (versionCommand candidate) then Some candidate
      else firstWorking m rest
  end.

Definition resolveFfmpegPath (m : machine) (st : state)
  : option string * state :=
  if otruthy (ffmpegResolvedPath st) then (ffmpegResolvedPath st, st)
  else
    match firstWorking m (_candidateFfmpegPaths m) with
    | Some candidate =>
        (Some candidate,
         {| ffmpegAvailabilityPromise := ffmpegAvailabilityPromise st;
            ffmpegResolvedPath := Some candidate |})
    | None => (None, st)
    end.

Definition isFfmpegAvailable (m : machine) (st : state) : bool * state :=
  match ffmpegAvailabilityPromise st with
  | Some available => (available, st)
  | None =>
      let (resolved, st') := resolveFfmpegPath m st in
      (otruthy resolved,
       {| ffmpegAvailabilityPromise := Some (otruthy resolved);
          ffmpegResolvedPath := ffmpegResolvedPath st' |})
  end.

Definition refreshFfmpegAvailability (m : machine) (st : state)
  : bool * state :=
  isFfmpegAvailable m fresh.

(** Calls that follow one another, each on the machine as it is then. *)
Inductive call : Type :=
| IsAvailable (m : machine)
| Resolve (m : machine)
| Refresh (m : machine).

Inductive answer : Type :=
| Available (b : bool)
| Resolved (p : option string).

Definition perform (c : call) (st : state) : answer * state :=
  match c with
  | IsAvailable m =>
      let (b, st') := isFfmpegAvailable m st in (Available b, st')
  | Resolve m =>
      let (p, st') := resolveFfmpegPath m st in (Resolved p, st')
  | Refresh m =>
      let (b, st') := refreshFfmpegAvailability m st in (Available b, st')
  end.

Fixpoint session (calls : list call) (st : state) : list answer * state :=
  match calls with
  | [] => ([], st)
  | c :: rest =>
      let (a, st') := perform c st in
      let (answers, st'') := session rest st' in
      (a :: answers, st'')
  end.

Definition isRefresh (c : call) : bool :=
  match c with Refresh _ => true | _ => false end.

(** The answers to [isFfmpegAvailable] among the answers. *)
Fixpoint availabilities (calls : list call) (answers : list answer)
  : list bool :=
  match calls, answers with
  | IsAvailable _ :: calls', Available b :: answers' =>
      b :: availabilities calls' answers'
  | _ :: calls', _ :: answers' => availabilities calls' answers'
  | _, _ => []
  end.

(** A machine without ffmpeg, and the same machine once ffmpeg is on the
    search path. *)
Definition without : machine :=
  {| ffmpegPath := None; existsSync := fun _ => Some false;
     runs := fun _ => false |}.

Definition installed : machine :=
  {| ffmpegPath := None; existsSync := fun _ => Some false;
     runs := fun cmd => String.eqb cmd "ffmpeg -version" |}.

End Ffmpeg.

(* ===================================================================== *)
(** ** The browser tool ([browseWebsite]) *)
(* ===================================================================== *)

Module Browser.

Import Js Regex.

(** The task of the tool input as the code reads it: a falsy value, a
    string, or a truthy value that is not a string and so has no [trim]. *)
Inductive task_value : Type :=
| NoTask
| TaskText (text : string)
| NotText.

(** The fields of the tool input that take part in a decision; the others
    ([max_steps], [headless], the model, ...) are copied into the payload of
    the runner.  [url], [llm_provider] and [caption] are read through
    [String], [toString] or a template, so a value that is not a string is
    here the string these make of it ([llm_provider] is [None] when it is
    absent and the default applies, and the empty string for another falsy
    value); [screenshot] is read by its truthiness. *)
Record browse_input : Type := {
  url : option string;
  task : task_value;
  llm_provider : option string;
  screenshot : bool;
  caption : option string
}.

(** What the runner printed, once parsed: [success] by its truthiness and
    the other fields that are read, each as the string that [String],
    [toString] or [join] makes of it, or [None] when it is falsy (for
    [final_result]: when it is [null] or absent); for [error] and [errors]
    also whether the value is a string, which the code asks with
    [typeof]. *)
Record runner_output : Type := {
  r_success : bool;
  r_error : option string;
  r_error_is_string : bool;
  r_errors : option string;
  r_errors_is_string : bool;
  r_raw : option string;
  r_final_result : option string;
  r_screenshot_path : option string
}.

(** What [browseWebsite] returns; [elapsed_ms] and the [url] of a success
    are left out. *)
Record browse_result : Type := {
  success : bool;
  error : option string;
  output : option string;
  final_result_chars : option nat;
  screenshot_sent : option bool
}.

Definition failed (msg : string) (out : string) : browse_result :=
  {| success := false; error := Some msg; output := Some out;
     final_result_chars := None; screenshot_sent := None |}.

(** What the tool does to the outside. *)
Inductive event : Type :=
| Started (agentTask provider : string)
| Python (args : list string)
| Said (text : string)
| Long (text : string)
| Photo (file caption : string)
| Slept (ms : nat).

Definition is_started (e : event) : bool :=
  match e with Started _ _ => true | _ => false end.

(** [/no module named ['Q]browser_use['Q]/i] *)
Definition is_quote (c : ascii) : bool :=
  Ascii.eqb c "'"%char || Ascii.eqb c Dispatcher.dq.

Definition re_no_module : re :=
  seq [liti "no module named "; Chr is_quote; liti "browser_use";
       Chr is_quote].

Definition isBrowserDisconnectedError (text : string) : bool :=
  let s := Helpers.toLower text in
  includes "browser not connected" s
  || includes "no browser is open" s
  || includes "failed to open new tab" s
  || includes "cannot navigate - browser not connected" s
  || (includes "agent focus target" s && includes "detached" s)
  || includes "target detached" s
  || includes "received duplicate response for request" s.

(** [parts.filter(Boolean).join(sep)] *)
Fixpoint joinTruthy (sep : string) (parts : list (option string)) : string :=
  match parts with
  | [] => EmptyString
  | p :: rest =>
      if otruthy p then
        if existsb otruthy rest then orEmpty p ++ sep ++ joinTruthy sep rest
        else orEmpty p
      else joinTruthy sep rest
  end.

Definition nlnl : string := Dispatcher.nl ++ Dispatcher.nl.

(** [a || b] on strings that may be [undefined]. *)
Definition either (a b : option string) : option string :=
  if otruthy a then a else b.

Section Browse.

(** The machine: the URL parser, the two API keys, the file system, the
    Python interpreter and the runner. *)
Variable W : Type.
Variable isHttpUrl : string -> bool.
Variable OPENAI_API_KEY ANTHROPIC_API_KEY : bool.
Variable mkdir : W -> (string + unit) * W.
Variable spawnRunner :
  string -> string -> W -> (string + (string * string)) * W.
Variable runPythonCommand : list string -> W -> (string + option Z) * W.

(** [JSON.parse]: nothing when it throws, [null] (here [Some None]) or a
    value with its fields. *)
Variable parse : string -> option (option runner_output).

(** The three switches of the configuration, each [cfg.key !== false]. *)
Variable autoInstall ensurePlaywright ensureChromium : bool.

(** The message of the exception when the payload of the runner cannot be
    built: [chromePath] or [chromeUserData] of the configuration is read
    with [trim] when the input names no path of its own, and a truthy value
    that is not a string has none. *)
Variable payloadError : option string.

(** [ctx.chatId]; the senders of the context are there. *)
Variable chatId : nat.

Record state : Type := {
  world : W;
  log : list event
}.

Definition M (A : Type) : Type := state -> (string + A) * state.

Definition ret {A} (x : A) : M A := fun st => (inr x, st).

Definition throw {A} (msg : string) : M A := fun st => (inl msg, st).

Definition bind {A B} (c : M A) (k : A -> M B) : M B :=
  fun st =>
    match c st with
    | (inr x, st') => k x st'
    | (inl msg, st') => (inl msg, st')
    end.

(** [try { c } catch (_) {}] *)
Definition ignoring {A} (c : M A) : M unit :=
  fun st => let (_, st') := c st in (inr tt, st').

Notation "x <- c ;; k" := (bind c (fun x => k))
  (at level 61, c at next level, right associativity).
Notation "c ;;; k" := (bind c (fun _ => k))
  (at level 61, right associativity).

Definition note (e : event) : M unit :=
  fun st => (inr tt, {| world := world st; log := (log st ++ [e])%list |}).

Definition lift {A} (e : option event) (f : W -> (string + A) * W) : M A :=
  fun st =>
    let (r, w) := f (world st) in
    (r, {| world := w;
           log := (log st ++ match e with Some x => [x] | None => [] end)%list
        |}).

(** [if (send && chatId) await send(chatId, ...)] *)
Definition toChat (e : event) : M unit :=
  if negb (chatId =? 0) then note e else ret tt.

Definition python (args : list string) : M (option Z) :=
  lift (Some (Python args)) (runPythonCommand args).

Definition isZero (code : option Z) : bool :=
  match code with Some 0%Z => true | _ => false end.

Definition importCheck : list string :=
  ["-c"; "import browser_use; print('ok')"].

Definition ensureBrowserUseReady : M bool :=
  check <- python importCheck ;;
  if isZero check then ret true
  else if negb autoInstall then ret false
  else
    toChat (Said "Installing browser-use dependencies (python)... this may take a minute.") ;;;
    ignoring (python ["-m"; "pip"; "install"; "-U"; "browser-use"]) ;;;
    (if ensurePlaywright
     then ignoring (python ["-m"; "pip"; "install"; "-U"; "playwright"])
     else ret tt) ;;;
    (if ensureChromium
     then ignoring (python ["-m"; "playwright"; "install"; "chromium"])
     else ret tt) ;;;
    recheck <- python importCheck ;;
    ret (isZero recheck).

(** [runRunnerOnce] and the parsing of what it printed. *)
Definition unparsed (stdout : string) : runner_output :=
  {| r_success := false;
     r_error := Some "Failed to parse browser-use output.";
     r_error_is_string := true;
     r_errors := None; r_errors_is_string := false;
     r_raw := Some stdout; r_final_result := None;
     r_screenshot_path := None |}.

Definition parsed (stdout : string) : option runner_output :=
  let text := trim stdout in
  match parse (if truthy text then text else "{}") with
  | Some r => r
  | None => Some (unparsed stdout)
  end.

(** The runner is started and what it printed is parsed; the first thing
    that is done with the result is to read [result.success], which throws
    when the result is [null]. *)
Definition runRunnerOnce (agentTask provider : string)
  : M (runner_output * string) :=
  out <- lift (Some (Started agentTask provider))
           (spawnRunner agentTask provider) ;;
  match parsed (fst out) with
  | Some result => ret (result, snd out)
  | None => throw "Cannot read properties of null (reading 'success')"
  end.

Definition defaultTask (url : string) : string :=
  "Go to " ++ url ++ " and summarize what you see. If it's a video page, summarize the title/description and any visible metadata.".

(** [(task && task.trim()) ? ... : ...] *)
Definition agentTaskOf (task : task_value) (url : string) : M string :=
  match task with
  | NoTask => ret (defaultTask url)
  | TaskText text =>
      if truthy text && truthy (trim text)
      then ret (trim text ++ nlnl ++ "Start URL: " ++ url)
      else ret (defaultTask url)
  | NotText => throw "task.trim is not a function"
  end.

Definition effectiveProviderOf (llm_provider : option string)
  : option string :=
  let requestedProvider :=
    Helpers.toLower
      (trim (match llm_provider with Some p => p | None => "openai" end)) in
  if String.eqb requestedProvider "openai" && OPENAI_API_KEY
  then Some "openai"
  else if String.eqb requestedProvider "anthropic" && ANTHROPIC_API_KEY
  then Some "anthropic"
  else if OPENAI_API_KEY then Some "openai"
  else if ANTHROPIC_API_KEY then Some "anthropic"
  else None.

(** The body of the [try] block. *)
Definition attempt (i : browse_input) : M browse_result :=
  let url := orEmpty (url i) in
  lift None mkdir ;;;
  agentTask <- agentTaskOf (task i) url ;;
  match effectiveProviderOf (llm_provider i) with
  | None =>
      ret (failed "No LLM API key set for browser-use (set OPENAI_API_KEY or ANTHROPIC_API_KEY)." EmptyString)
  | Some effectiveProvider =>
      match payloadError with Some msg => throw msg | None => ret tt end ;;;
      first <- runRunnerOnce agentTask effectiveProvider ;;
      second <-
        (let (result, stderr) := first in
         if negb (r_success result)
            && r_error_is_string result
            && test re_no_module (orEmpty (r_error result))
         then
           ok <- ensureBrowserUseReady ;;
           if ok then runRunnerOnce agentTask effectiveProvider
           else ret first
         else ret first) ;;
      third <-
        (let (result, stderr) := second in
         if negb (r_success result)
            && isBrowserDisconnectedError
                 (joinTruthy nlnl
                    [r_error result; r_errors result; r_raw result;
                     Some stderr])
         then
           toChat (Said "Browser-use lost connection to the browser. Retrying with a fresh session...") ;;;
           note (Slept 1200) ;;;
           runRunnerOnce agentTask effectiveProvider
         else ret second) ;;
      let (result, stderr) := third in
      if negb (r_success result) then
        let msg :=
          orEmpty (either (either (r_error result)
                             (if r_errors_is_string result
                              then r_errors result else None))
                     (Some "browser-use failed")) in
        let extra :=
          if otruthy (r_raw result)
          then nlnl ++ substring 0 2000 (orEmpty (r_raw result))
          else if truthy stderr then nlnl ++ substring 0 2000 stderr
          else EmptyString in
        toChat (Long ("Browser error: " ++ msg ++ extra)) ;;;
        ret (failed msg
               (orEmpty (either (r_raw result) (Some stderr))))
      else
        let finalText := trim (orEmpty (r_final_result result)) in
        (if truthy finalText then toChat (Long finalText) else ret tt) ;;;
        (if otruthy (r_screenshot_path result) && screenshot i
         then
           toChat (Photo (orEmpty (r_screenshot_path result))
                     (if otruthy (caption i) then orEmpty (caption i)
                      else "Screenshot: " ++ url))
         else ret tt) ;;;
        ret {| success := true; error := None; output := None;
               final_result_chars := Some (String.length finalText);
               screenshot_sent :=
                 Some (screenshot i && otruthy (r_screenshot_path result)) |}
  end.

Definition browseWebsite (i : browse_input) (st : state)
  : browse_result * state :=
  if negb (otruthy (url i)) || negb (isHttpUrl (orEmpty (url i)))
  then (failed "Invalid URL. Only http/https URLs are allowed." EmptyString,
        st)
  else
    match attempt i st with
    | (inr r, st') => (r, st')
    | (inl msg, st') => (failed msg EmptyString, st')
    end.

End Browse.

End Browser.

Module BrowserProps.

Import Js Browser.

(** The number of times the runner was started in a stretch of log. *)
Definition starts (a : list event) : nat := length (filter is_started a).

(** What a computation adds to the log, and with which outcome. *)
Definition Adds {W A} (c : M W A)
  (Q : list event -> string + A -> Prop) : Prop :=
  forall st out st',
    c st = (out, st') ->
    exists a, log st' = (log st ++ a)%list /\ Q a out.

(** A start of the runner as the tool may make it for an input: the URL is
    there and passed the parser, the task names it, and the provider is one
    of the two, with its key set. *)
Definition goodStart (isHttpUrl : string -> bool)
  (OPENAI_API_KEY ANTHROPIC_API_KEY : bool) (i : browse_input) (e : event)
  : Prop :=
  match e with
  | Started agentTask provider =>
      otruthy (url i) = true
      /\ isHttpUrl (orEmpty (url i)) = true
      /\ includes (orEmpty (url i)) agentTask = true
      /\ ((provider = "openai" /\ OPENAI_API_KEY = true)
          \/ (provider = "anthropic" /\ ANTHROPIC_API_KEY = true))
  | _ => True
  end.

(** A stretch of log with between [lo] and [hi] starts of the runner, all
    of them good. *)
Definition within (good : event -> Prop) (lo hi : nat) (a : list event)
  : Prop :=
  lo <= starts a <= hi /\ Forall good a.

End BrowserProps.

(* ===================================================================== *)
(** ** Vocabulary of the further statements *)
(* ===================================================================== *)

Module MoreProps.

Import Js Helpers.

(** The text from position [i] on. *)
Fixpoint drop (i : nat) (s : string) : string :=
  match i, s with
  | 0, _ => s
  | S i', String _ s' => drop i' s'
  | S _, EmptyString => EmptyString
  end.

(** The pieces of a text put together again. *)
Definition glue (pieces : list string) : string :=
  fold_right append EmptyString pieces.

(** The calls of [bot.sendMessage] in a log, the texts that were delivered,
    and the pauses. *)
Definition tries (log : list hevent) : list hevent :=
  filter (fun e => match e with Tried _ _ _ => true | _ => false end) log.

Fixpoint deliveredTexts (log : list hevent) : list string :=
  match log with
  | [] => []
  | Tried _ text true :: log' => text :: deliveredTexts log'
  | _ :: log' => deliveredTexts log'
  end.

Fixpoint triedTexts (log : list hevent) : list string :=
  match log with
  | [] => []
  | Tried _ text _ :: log' => text :: triedTexts log'
  | _ :: log' => triedTexts log'
  end.

Fixpoint pauses (log : list hevent) : list N :=
  match log with
  | [] => []
  | Paused ms :: log' => ms :: pauses log'
  | _ :: log' => pauses log'
  end.

(** Attempts that did not deliver, each followed by its pause. *)
Definition failedAttempts (chatId : nat) (text : string) (ms : list N)
  : list hevent :=
  flat_map (fun d => [Tried chatId text false; Paused d]) ms.

(** What [safeSendMessage] leaves in the log after [k] attempts that did
    not deliver and were tried again. *)
Definition sendLog (chatId : nat) (text : string) (k : nat) (ok : bool)
  : list hevent :=
  (failedAttempts chatId text (firstn k [500; 1000; 2000; 4000]%N)
   ++ Tried chatId text ok :: (if ok then [] else [Warned]))%list.

End MoreProps.

(* ===================================================================== *)
(** ** Further inputs *)
(* ===================================================================== *)

Module MoreScenarios.

Import Js Helpers MoreProps.

Definition timedOut : js_error :=
  {| code := Some "ETIMEDOUT"; message := Some "request timed out";
     cause_code := None; cause_message := None |}.

(** A state that counts the calls and keeps the pauses, and a function
    that times out on every call. *)
Definition counter : Type := (nat * list N)%type.

Definition pause (ms : N) (st : counter) : counter :=
  (fst st, (snd st ++ [ms])%list).

Definition alwaysTimesOut (st : counter) : (js_error + unit) * counter :=
  (inl timedOut, (S (fst st), snd st)).

(** A transport that delivers every message. *)
Definition delivers (chatId : nat) (text : string) (w : unit)
  : (js_error + unit) * unit := (inr tt, w).

Definition quiet : hstate unit := {| hworld := tt; hlog := [] |}.

End MoreScenarios.

(* ===================================================================== *)
(** ** Facts about strings and about the matcher *)
(* ===================================================================== *)

Module RegexFacts.

Import Js Regex Props.

Lemma append_assoc (a b c : string) : (a ++ b) ++ c = a ++ (b ++ c).
Proof. induction a as [|x a IH]; simpl; [reflexivity|now rewrite IH]. Qed.

Lemma append_nil_r (a : string) : a ++ "" = a.
Proof. induction a as [|x a IH]; simpl; [reflexivity|now rewrite IH]. Qed.

Lemma length_append (a b : string) :
  String.length (a ++ b) = String.length a + String.length b.
Proof. induction a as [|x a IH]; simpl; [reflexivity|now rewrite IH]. Qed.

Lemma lastc_append w1 w2 : forall p, lastc p (w1 ++ w2) = lastc (lastc p w1) w2.
Proof. induction w1 as [|c w1 IH]; intros p; simpl; [reflexivity|apply IH]. Qed.

Lemma all_append f a b : all f (a ++ b) = all f a && all f b.
Proof.
  induction a as [|x a IH]; simpl; [reflexivity|].
  now rewrite IH, andb_assoc.
Qed.

Lemma isSome_orelse {A} (x y : option A) :
  isSome (orelse x y) = isSome x || isSome y.
Proof. destruct x, y; reflexivity. Qed.

(** *** The matcher finds exactly the matches *)

Lemma star_spec f k ms s :
  forall p,
  isSome (star f k ms p s) = true
  <-> exists w s', s = w ++ s' /\ all f w = true
                   /\ isSome (k ms (lastc p w) s') = true.
Proof.
  induction s as [|c s IH]; intros p; simpl.
  - split.
    + intros H. exists "", "". auto.
    + intros (w & s' & Hs & _ & Hk).
      destruct w; [|discriminate]. simpl in Hs. subst s'. exact Hk.
  - destruct (f c) eqn:Hc.
    + rewrite isSome_orelse, orb_true_iff, IH. split.
      * intros [(w & s' & Hs & Hw & Hk)|Hk].
        -- exists (String c w), s'. simpl. rewrite Hc, Hw, Hs. auto.
        -- exists "", (String c s). auto.
      * intros (w & s' & Hs & Hw & Hk). destruct w as [|c' w].
        -- right. simpl in Hs. subst s'. exact Hk.
        -- left. simpl in Hs, Hw. inversion Hs; subst.
           apply andb_true_iff in Hw. exists w, s'. tauto.
    + split.
      * intros Hk. exists "", (String c s). auto.
      * intros (w & s' & Hs & Hw & Hk). destruct w as [|c' w].
        -- simpl in Hs. subst s'. exact Hk.
        -- simpl in Hs, Hw. inversion Hs; subst. rewrite Hc in Hw.
           discriminate.
Qed.

Lemma star_insensitive f k : insensitive k -> insensitive (star f k).
Proof.
  intros Hk ms ms' p s. revert p.
  induction s as [|c s IH]; intros p; simpl; [apply Hk|].
  destruct (f c); [|apply Hk].
  now rewrite !isSome_orelse, (IH (Some c)), (Hk ms ms').
Qed.

Lemma m_insensitive r : forall k, insensitive k -> insensitive (m r k).
Proof.
  induction r; intros k Hk ms ms' p s; simpl.
  - apply Hk.
  - destruct s as [|c s]; [reflexivity|]. destruct (f c); [apply Hk|reflexivity].
  - apply IHr1. now apply IHr2.
  - now rewrite !isSome_orelse, (IHr1 k Hk ms ms'), (IHr2 k Hk ms ms').
  - now apply star_insensitive.
  - destruct p; [reflexivity|apply Hk].
  - destruct s; [apply Hk|reflexivity].
  - destruct (xorb (wordp p) (wordh s)); [apply Hk|reflexivity].
  - apply Hk.
Qed.

Lemma accept_insensitive : insensitive accept.
Proof. intros ms ms' p s. reflexivity. Qed.

Theorem m_spec r :
  forall k, insensitive k ->
  forall ms p s,
  isSome (m r k ms p s) = true
  <-> exists w s', s = w ++ s' /\ Match r p w s'
                   /\ isSome (k ms (lastc p w) s') = true.
Proof.
  induction r; intros k Hk ms p s; simpl.
  - split.
    + intros H. exists "", s. repeat split; [constructor|assumption].
    + intros (w & s' & Hs & HM & H). inversion HM; subst. exact H.
  - split.
    + destruct s as [|c s]; [discriminate|].
      destruct (f c) eqn:Hc; [|discriminate].
      intros H. exists (String c ""), s. repeat split; [now constructor|exact H].
    + intros (w & s' & Hs & HM & H). inversion HM; subst. simpl.
      match goal with Hf : f _ = true |- _ => rewrite Hf end. exact H.
  - rewrite (IHr1 (m r2 k) (m_insensitive r2 Hk)). split.
    + intros (w1 & s1 & Hs & H1 & H).
      apply (IHr2 k Hk) in H. destruct H as (w2 & s2 & Hs2 & H2 & H).
      subst. exists (w1 ++ w2), s2. rewrite append_assoc, lastc_append.
      repeat split; [now constructor|exact H].
    + intros (w & s' & Hs & HM & H). inversion HM; subst.
      exists w1, (w2 ++ s'). rewrite append_assoc. repeat split; [assumption|].
      apply (IHr2 k Hk). exists w2, s'. rewrite <- lastc_append. auto.
  - rewrite isSome_orelse, orb_true_iff, (IHr1 k Hk), (IHr2 k Hk). split.
    + intros [(w & s' & Hs & HM & H)|(w & s' & Hs & HM & H)];
        exists w, s'; repeat split; try assumption;
        [now apply match_alt_l|now apply match_alt_r].
    + intros (w & s' & Hs & HM & H). inversion HM; subst;
        [left|right]; exists w, s'; auto.
  - rewrite star_spec. split.
    + intros (w & s' & Hs & Hw & H). exists w, s'.
      repeat split; [assumption|now constructor|assumption].
    + intros (w & s' & Hs & HM & H). inversion HM; subst. exists w, s'. auto.
  - split.
    + destruct p; [discriminate|]. intros H. exists "", s.
      repeat split; [constructor|assumption].
    + intros (w & s' & Hs & HM & H). inversion HM; subst. exact H.
  - split.
    + destruct s; [|discriminate]. intros H. exists "", "".
      repeat split; [constructor|assumption].
    + intros (w & s' & Hs & HM & H). inversion HM; subst. exact H.
  - split.
    + destruct (xorb (wordp p) (wordh s)) eqn:Hx; [|discriminate].
      intros H. exists "", s. repeat split; [now constructor|assumption].
    + intros (w & s' & Hs & HM & H). inversion HM; subst. simpl.
      match goal with Hx : xorb _ _ = true |- _ => rewrite Hx end. exact H.
  - split.
    + intros H. exists "", s. repeat split; [constructor|].
      simpl. now rewrite (Hk ms (s :: ms)).
    + intros (w & s' & Hs & HM & H). inversion HM; subst. simpl in *.
      now rewrite (Hk (s' :: ms) ms).
Qed.

Lemma search_spec r s :
  forall p,
  isSome (search r p s) = true
  <-> exists a w b, s = a ++ w ++ b /\ Match r (lastc p a) w b.
Proof.
  induction s as [|c s IH]; intros p; simpl;
    rewrite isSome_orelse, orb_true_iff, (m_spec r accept_insensitive).
  - split.
    + intros [(w & s' & Hs & HM & _)|H]; [|discriminate].
      exists "", w, s'. auto.
    + intros (a & w & b & Hs & HM). left.
      destruct a; [|discriminate]. exists w, b. auto.
  - rewrite IH. split.
    + intros [(w & s' & Hs & HM & _)|(a & w & b & Hs & HM)].
      * exists "", w, s'. auto.
      * exists (String c a), w, b. simpl. now rewrite Hs.
    + intros (a & w & b & Hs & HM). destruct a as [|c' a].
      * left. exists w, b. auto.
      * right. simpl in Hs. inversion Hs; subst. exists a, w, b. auto.
Qed.

(** [r.test(s)] holds exactly when [r] matches somewhere in [s]. *)
Theorem test_spec r s :
  test r s = true
  <-> exists a w b, s = a ++ w ++ b /\ Match r (lastc None a) w b.
Proof. apply search_spec. Qed.

(** *** Reading a match apart *)

Lemma Match_cat a b p x s :
  Match (Cat a b) p x s
  <-> exists w1 w2, x = w1 ++ w2 /\ Match a p w1 (w2 ++ s)
                    /\ Match b (lastc p w1) w2 s.
Proof.
  split.
  - intros H. inversion H; subst. eauto.
  - intros (w1 & w2 & -> & H1 & H2). now constructor.
Qed.

Lemma Match_chr f p x s :
  Match (Chr f) p x s <-> exists c, x = String c "" /\ f c = true.
Proof.
  split.
  - intros H. inversion H; subst. eauto.
  - intros (c & -> & H). now constructor.
Qed.

Lemma Match_star f p x s : Match (Star f) p x s <-> all f x = true.
Proof.
  split.
  - intros H. now inversion H.
  - now constructor.
Qed.

Lemma Match_wb p x s :
  Match Wb p x s <-> x = "" /\ xorb (wordp p) (wordh s) = true.
Proof.
  split.
  - intros H. inversion H; subst. auto.
  - intros (-> & H). now constructor.
Qed.

Lemma Match_plus f p x s :
  Match (plus f) p x s
  <-> exists c w, x = String c w /\ f c = true /\ all f w = true.
Proof.
  unfold plus. rewrite Match_cat. split.
  - intros (w1 & w2 & -> & H1 & H2).
    apply Match_chr in H1. destruct H1 as (c & -> & Hc).
    apply Match_star in H2. exists c, w2. auto.
  - intros (c & w & -> & Hc & Hw). exists (String c ""), w.
    repeat split; [now constructor|now constructor].
Qed.

Lemma Match_lit w : forall p x s, Match (lit w) p x s <-> x = w.
Proof.
  induction w as [|c w IH]; intros p x s; simpl.
  - split.
    + intros H. now inversion H.
    + intros ->. constructor.
  - rewrite Match_cat. split.
    + intros (w1 & w2 & -> & H1 & H2).
      apply Match_chr in H1. destruct H1 as (c' & -> & Hc).
      apply Ascii.eqb_eq in Hc. subst c'. apply IH in H2. now subst.
    + intros ->. exists (String c ""), w. repeat split.
      * constructor. apply Ascii.eqb_refl.
      * now apply IH.
Qed.

Lemma Match_alts_lit vs :
  vs <> [] ->
  forall p x s, Match (alts (map lit vs)) p x s <-> In x vs.
Proof.
  induction vs as [|v vs IH]; [contradiction|]. intros _ p x s.
  destruct vs as [|v' vs].
  - simpl. rewrite Match_lit. split; [auto|]. intros [H|[]]. auto.
  - change (alts (map lit (v :: v' :: vs)))
      with (Alt (lit v) (alts (map lit (v' :: vs)))).
    split.
    + intros H. inversion H; subst.
      * left. symmetry. now apply (Match_lit v p x s).
      * right. apply (IH ltac:(discriminate) p x s). assumption.
    + intros [H|H].
      * apply match_alt_l. apply Match_lit. auto.
      * apply match_alt_r. now apply IH.
Qed.

(** The longest run of word characters at the head of a text. *)
Lemma word_run b :
  exists w r, b = w ++ r /\ all is_word w = true /\ wordh r = false.
Proof.
  induction b as [|c b (w & r & Hb & Hw & Hr)].
  - exists "", "". auto.
  - destruct (is_word c) eqn:Hc.
    + exists (String c w), r. simpl. rewrite Hc, Hw, <- Hb. auto.
    + exists "", (String c b). simpl. auto.
Qed.

Lemma lastc_word c w p :
  is_word c = true -> all is_word w = true ->
  wordp (lastc p (String c w)) = true.
Proof.
  revert c p. induction w as [|d w IH]; intros c p Hc Hw; simpl in *.
  - exact Hc.
  - apply andb_true_iff in Hw. destruct Hw as [Hd Hw]. now apply (IH d).
Qed.

Lemma includes_spec p s :
  includes p s = true <-> exists a b, s = a ++ p ++ b.
Proof.
  assert (Hpre : forall s, String.prefix p s = true <-> exists b, s = p ++ b).
  { induction p as [|c p IH]; intros s0.
    - destruct s0; simpl; split; eauto.
    - destruct s0 as [|d s0]; simpl.
      + split; [discriminate|]. intros (b & Hb). discriminate.
      + destruct (ascii_dec c d) as [->|Hn].
        * rewrite IH. split; intros (b & Hb); exists b;
            [now rewrite Hb|now inversion Hb].
        * split; [discriminate|]. intros (b & Hb). inversion Hb. congruence. }
  induction s as [|c s IH].
  - change (includes p "") with (String.prefix p "" || false).
    rewrite orb_true_iff, Hpre. split.
    + intros [(b & Hb)|H]; [|discriminate]. exists "", b. auto.
    + intros (a & b & H). left. destruct a; [|discriminate]. eauto.
  - change (includes p (String c s))
      with (String.prefix p (String c s) || includes p s).
    rewrite orb_true_iff, Hpre, IH. split.
    + intros [(b & Hb)|(a & b & Hb)].
      * exists "", b. auto.
      * exists (String c a), b. simpl. now rewrite Hb.
    + intros (a & b & H). destruct a as [|d a].
      * left. eauto.
      * right. inversion H. eauto.
Qed.

(** *** Letter case and white space *)

Lemma lower_space d : is_space (lower d) = is_space d.
Proof.
  destruct d as [b0 b1 b2 b3 b4 b5 b6 b7];
    destruct b0, b1, b2, b3, b4, b5, b6, b7; reflexivity.
Qed.

Lemma chi_lower c d : chi c d = true <-> lower d = lower c.
Proof. unfold chi. apply Ascii.eqb_eq. Qed.

Lemma Match_liti w : forall p x s,
  Match (liti w) p x s <-> toLowerCase x = toLowerCase w.
Proof.
  induction w as [|c w IH]; intros p x s; simpl.
  - split.
    + intros H. now inversion H.
    + intros H. destruct x; [constructor|discriminate].
  - rewrite Match_cat. split.
    + intros (w1 & w2 & -> & H1 & H2).
      apply Match_chr in H1. destruct H1 as (d & -> & Hd).
      apply chi_lower in Hd. apply IH in H2. simpl. now rewrite Hd, H2.
    + intros H. destruct x as [|d x]; [discriminate|].
      simpl in H. inversion H. exists (String d ""), x.
      split; [reflexivity|]. split.
      * constructor. now apply chi_lower.
      * now apply IH.
Qed.

Lemma all_space_lower x : all (non is_space) (toLowerCase x) = all (non is_space) x.
Proof.
  induction x as [|d x IH]; simpl; [reflexivity|].
  unfold non at 1 3. now rewrite lower_space, IH.
Qed.

(** A text that matches a literal under the [i] flag has white space where
    the literal has it. *)
Lemma liti_no_space w x :
  toLowerCase x = toLowerCase w ->
  all (non is_space) x = all (non is_space) w.
Proof.
  intros H. now rewrite <- (all_space_lower x), H, all_space_lower.
Qed.

(** *** Trimming *)

Lemma trimEnd_no_space x : all (non is_space) x = true -> trimEnd x = x.
Proof.
  induction x as [|c x IH]; simpl; [reflexivity|].
  intros H. apply andb_true_iff in H. destruct H as [Hc Hx].
  rewrite (IH Hx). unfold non in Hc. apply negb_true_iff in Hc.
  rewrite Hc. now destruct x.
Qed.

Lemma trimEnd_append a b :
  b <> "" -> trimEnd b = b -> trimEnd (a ++ b) = a ++ b.
Proof.
  intros Hb Ht. induction a as [|c a IH]; simpl; [assumption|].
  rewrite IH. destruct (a ++ b) eqn:Hab; [|reflexivity].
  destruct a; simpl in Hab; [contradiction|discriminate].
Qed.

Lemma trim_fixed c x :
  is_space c = false -> trimEnd (String c x) = String c x ->
  trim (String c x) = String c x.
Proof. intros Hc Hx. unfold trim. simpl trimStart. now rewrite Hc. Qed.

(** *** Anchors *)

Lemma lastc_none a : lastc None a = None -> a = "".
Proof.
  destruct a as [|c a]; [reflexivity|]. simpl.
  assert (H : forall w d, lastc (Some d) w <> None).
  { induction w; intros d; simpl; [discriminate|apply IHw]. }
  intros Hn. now apply H in Hn.
Qed.

Lemma Match_bol p x s : Match Bol p x s <-> x = "" /\ p = None.
Proof.
  split.
  - intros H. inversion H; subst. auto.
  - intros (-> & ->). constructor.
Qed.

Lemma Match_eol p x s : Match Eol p x s <-> x = "" /\ s = "".
Proof.
  split.
  - intros H. inversion H; subst. auto.
  - intros (-> & ->). constructor.
Qed.

(** A pattern that starts with [^] matches, if at all, at the start. *)
Lemma test_anchored r t :
  test (Cat Bol r) t = true <-> exists x b, t = x ++ b /\ Match r None x b.
Proof.
  rewrite test_spec. split.
  - intros (a & x & b & -> & H).
    apply Match_cat in H. destruct H as (e & x' & -> & He & H).
    apply Match_bol in He. destruct He as (-> & Ha).
    apply lastc_none in Ha. subst a. simpl in *. eauto.
  - intros (x & b & -> & H). exists "", x, b. split; [reflexivity|].
    apply Match_cat. exists "", x. repeat split; [constructor|exact H].
Qed.

Lemma isSome_false {A} (x : option A) : isSome x = false -> x = None.
Proof. destruct x; [discriminate|reflexivity]. Qed.

(** A pattern that starts with [^] and a literal does not match a text that
    starts with another character. *)
Lemma anchored_liti c0 w r c t :
  chi c0 c = false ->
  test (Cat Bol (Cat (liti (String c0 w)) r)) (String c t) = false.
Proof.
  intros Hc. apply not_true_is_false. intros H.
  apply test_anchored in H. destruct H as (x & b & Hx & H).
  apply Match_cat in H. destruct H as (w1 & w2 & -> & H1 & _).
  apply Match_liti in H1. destruct w1 as [|d w1]; [discriminate|].
  simpl in H1, Hx. inversion H1. inversion Hx. subst d.
  apply chi_lower in H0. congruence.
Qed.

(** The greedy star runs to the end of the run when what follows succeeds
    there. *)
Lemma star_runs f k ms a b y :
  all f a = true ->
  match b with String d _ => f d = false | EmptyString => True end ->
  forall p,
  k ms (lastc p a) b = Some y ->
  star f k ms p (a ++ b) = Some y.
Proof.
  intros Ha Hb. induction a as [|c a IH]; intros p Hk; simpl in *.
  - destruct b as [|d b]; simpl; [assumption|]. now rewrite Hb.
  - apply andb_true_iff in Ha. destruct Ha as [Hc Ha].
    rewrite Hc, (IH Ha (Some c) Hk). reflexivity.
Qed.

End RegexFacts.

(* ===================================================================== *)
(** ** Facts about the command dispatcher *)
(* ===================================================================== *)

Module DispatcherFacts.

Import Js Regex Dispatcher Props RegexFacts.

(** *** Shell selection *)

Lemma ch_eq c d : ch c d = true <-> d = c.
Proof. unfold ch. apply Ascii.eqb_eq. Qed.

(** A verb of the list, a hyphen, word characters, and the end of the word. *)
Lemma verb_tail vs p x s :
  vs <> [] ->
  Match (seq [alts (map lit vs); Chr (ch "-"); plus is_word; Wb]) p x s
  <-> exists v c w,
        x = v ++ "-" ++ String c w
        /\ In v vs /\ is_word c = true /\ all is_word w = true
        /\ wordh s = false.
Proof.
  intros Hvs. cbn [seq]. split.
  - intros H.
    apply Match_cat in H. destruct H as (v & x1 & -> & Hv & H).
    apply (Match_alts_lit Hvs) in Hv.
    apply Match_cat in H. destruct H as (d & x2 & -> & Hd & H).
    apply Match_chr in Hd. destruct Hd as (c0 & -> & Hc0).
    apply ch_eq in Hc0. subst c0.
    apply Match_cat in H. destruct H as (n & e & -> & Hn & He).
    apply Match_plus in Hn. destruct Hn as (c & w & -> & Hc & Hw).
    apply Match_wb in He. destruct He as (-> & Hx).
    rewrite lastc_word in Hx by assumption.
    exists v, c, w. rewrite append_nil_r. simpl in *.
    repeat split; try assumption.
    destruct (wordh s); [discriminate|reflexivity].
  - intros (v & c & w & -> & Hv & Hc & Hw & Hs).
    apply Match_cat. exists v, ("-" ++ String c w).
    split; [reflexivity|]. split; [now apply Match_alts_lit|].
    apply Match_cat. exists "-", (String c w).
    split; [reflexivity|]. split; [constructor; reflexivity|].
    apply Match_cat. exists (String c w), "".
    split; [now rewrite append_nil_r|]. split.
    + apply Match_plus. exists c, w. auto.
    + apply Match_wb. split; [reflexivity|].
      rewrite lastc_word, Hs by assumption. reflexivity.
Qed.

Lemma verbs_start_a_word v s : In v verbs -> wordh (v ++ s) = true.
Proof.
  unfold verbs. simpl.
  intros H; repeat (destruct H as [<-|H]; [reflexivity|]); contradiction.
Qed.

Lemma variable_spec t : test re_variable t = true <-> has_variable t.
Proof.
  rewrite test_spec. unfold re_variable, has_variable. cbn [seq]. split.
  - intros (a & x & b & -> & H).
    apply Match_cat in H. destruct H as (d & n & -> & Hd & Hn).
    apply Match_chr in Hd. destruct Hd as (c0 & -> & Hc0).
    apply ch_eq in Hc0. subst c0.
    apply Match_plus in Hn. destruct Hn as (c & w & -> & Hc & Hw).
    exists a, c, (w ++ b). split; [reflexivity|assumption].
  - intros (a & c & b & -> & Hc).
    exists a, ("$" ++ String c ""), b. split; [reflexivity|].
    apply Match_cat. exists "$", (String c "").
    split; [reflexivity|]. split; [constructor; reflexivity|].
    apply Match_plus. exists c, "". auto.
Qed.

Lemma cmdlet_spec t : test re_cmdlet t = true <-> has_cmdlet t.
Proof.
  rewrite test_spec. unfold has_cmdlet.
  change re_cmdlet
    with (Cat Wb (seq [alts (map lit verbs); Chr (ch "-"); plus is_word; Wb])).
  split.
  - intros (a & x & b & -> & H).
    apply Match_cat in H. destruct H as (e & x1 & -> & He & H).
    apply Match_wb in He. destruct He as (-> & Hx).
    apply verb_tail in H; [|discriminate].
    destruct H as (v & c & w & -> & Hv & Hc & Hw & Hb).
    exists a, v, c, (w ++ b).
    split; [simpl; now rewrite !append_assoc|].
    repeat split; try assumption.
    simpl in Hx. rewrite append_assoc, verbs_start_a_word in Hx by assumption.
    destruct (wordp (lastc None a)); [discriminate|reflexivity].
  - intros (a & v & c & b & -> & Hv & Hc & Ha).
    destruct (word_run b) as (w & r & -> & Hw & Hr).
    exists a, (v ++ "-" ++ String c w), r.
    split; [simpl; now rewrite !append_assoc|].
    apply Match_cat. exists "", (v ++ "-" ++ String c w).
    split; [reflexivity|]. split.
    + apply Match_wb. split; [reflexivity|].
      rewrite append_assoc, verbs_start_a_word, Ha by assumption. reflexivity.
    + apply verb_tail; [discriminate|]. exists v, c, w. auto.
Qed.

Lemma pipe_spec t : test re_pipe t = true <-> has_pipe t.
Proof.
  rewrite test_spec. unfold has_pipe.
  change re_pipe
    with (Cat (Chr (ch "|"))
            (Cat (Star is_space)
               (seq [alts (map lit pipe_verbs); Chr (ch "-"); plus is_word;
                     Wb]))).
  split.
  - intros (a & x & b & -> & H).
    apply Match_cat in H. destruct H as (d & x1 & -> & Hd & H).
    apply Match_chr in Hd. destruct Hd as (c0 & -> & Hc0).
    apply ch_eq in Hc0. subst c0.
    apply Match_cat in H. destruct H as (ws & x2 & -> & Hws & H).
    apply Match_star in Hws.
    apply verb_tail in H; [|discriminate].
    destruct H as (v & c & w & -> & Hv & Hc & Hw & Hb).
    exists a, ws, v, c, (w ++ b).
    split; [simpl; now rewrite !append_assoc|]. auto.
  - intros (a & ws & v & c & b & -> & Hws & Hv & Hc).
    destruct (word_run b) as (w & r & -> & Hw & Hr).
    exists a, ("|" ++ ws ++ v ++ "-" ++ String c w), r.
    split; [simpl; now rewrite !append_assoc|].
    apply Match_cat. exists "|", (ws ++ v ++ "-" ++ String c w).
    split; [reflexivity|]. split; [constructor; reflexivity|].
    apply Match_cat. exists ws, (v ++ "-" ++ String c w).
    split; [reflexivity|]. split; [now constructor|].
    apply verb_tail; [discriminate|]. exists v, c, w. auto.
Qed.

Lemma shouldUsePowerShell_tests t :
  shouldUsePowerShell t
  = includes nl t || test re_variable t || test re_cmdlet t || test re_pipe t.
Proof. destruct t; reflexivity. Qed.

Lemma shouldUsePowerShell_spec t :
  shouldUsePowerShell t = true <-> structured t.
Proof.
  rewrite shouldUsePowerShell_tests, !orb_true_iff.
  rewrite includes_spec, variable_spec, cmdlet_spec, pipe_spec.
  unfold structured, has_newline. tauto.
Qed.

(** Without a hint the choice is the classification of the script and of
    the command. *)
Lemma detectShell_auto hint command script :
  hint = "auto" \/ hint = "" ->
  detectShell hint command script None
  = if shouldUsePowerShell (orEmpty script)
       || shouldUsePowerShell (orEmpty command)
    then "powershell" else "cmd".
Proof.
  intros [-> | ->]; unfold detectShell; simpl;
    (destruct script as [s|]; simpl;
     [destruct s; simpl; [|destruct (shouldUsePowerShell (String _ _)); [reflexivity|]]|]);
    (destruct command as [c|]; simpl;
     [destruct c; simpl; reflexivity|reflexivity]).
Qed.

(** C9: with no shell pinned ([auto], or an empty hint, and no
    [use_powershell]), the shell is PowerShell exactly when the script or the
    command is structured text in the sense of the specification (a line
    feed, a sigil followed by a word character, a verb-noun token of the
    listed verbs, or a pipe into one of the five listed verbs) and [cmd]
    otherwise; a pinned shell is the answer whatever the text; and a text
    with a line feed, such as one with a [Get-Process] line, selects
    PowerShell without a hint.  On one line: a token of each listed verb, a
    pipe into each of the five, and a variable select PowerShell, in a
    command or in a script; a verb that is not listed, a listed verb in the
    middle of a word or in lower case, and a sigil before a blank select
    [cmd]. *)
Theorem shell_selection text :
  (shouldUsePowerShell text = true <-> structured text)
  /\ (forall hint command script,
        hint = "auto" \/ hint = "" ->
        (detectShell hint command script None = "powershell"
         <-> structured (orEmpty script) \/ structured (orEmpty command))
        /\ (detectShell hint command script None = "cmd"
            <-> ~ (structured (orEmpty script)
                   \/ structured (orEmpty command))))
  /\ (forall hint command script use_powershell,
        truthy hint = true -> hint <> "auto" ->
        detectShell hint command script use_powershell = hint)
  /\ (forall hint command script b,
        hint = "auto" \/ hint = "" ->
        detectShell hint command script (Some b)
        = if b then "powershell" else "cmd")
  /\ (has_newline text ->
      detectShell "auto" (Some text) None None = "powershell")
  /\ detectShell "auto" (Some ("Get-Process" ++ nl ++ "dir")) None None
     = "powershell"
  /\ Forall (fun v =>
               detectShell "auto" (Some (v ++ "-Item C:\data")) None None
               = "powershell")
       ["Get"; "Set"; "New"; "Remove"; "Write"; "Select"; "Where"; "ForEach";
        "Out"; "Format"; "Start"]
  /\ Forall (fun v =>
               detectShell "auto" (Some ("dir |" ++ v ++ "-1")) None None
               = "powershell")
       ["Select"; "Where"; "ForEach"; "Out"; "Format"]
  /\ detectShell "auto" (Some "echo $HOME") None None = "powershell"
  /\ detectShell "auto" None (Some "Get-Process") None = "powershell"
  /\ detectShell "auto" (Some "dir /b") None None = "cmd"
  /\ detectShell "auto" (Some "Invoke-WebRequest example.com") None None
     = "cmd"
  /\ detectShell "auto" (Some "type budGet-plan.txt") None None = "cmd"
  /\ detectShell "auto" (Some "get-process") None None = "cmd"
  /\ detectShell "auto" (Some "echo 5$ | more") None None = "cmd"
  /\ detectShell "cmd" (Some "Get-Process") None None = "cmd".
Proof.
  split; [apply shouldUsePowerShell_spec|].
  split; [|split; [|split; [|split; [|split]]]].
  - intros hint command script Hh.
    rewrite (detectShell_auto command script Hh).
    rewrite <- !shouldUsePowerShell_spec, <- orb_true_iff.
    destruct (shouldUsePowerShell (orEmpty script)
              || shouldUsePowerShell (orEmpty command)).
    + split; [tauto|]. split; [discriminate|]. intros H. now elim H.
    + split; [split; discriminate|]. split; [discriminate|reflexivity].
  - intros hint command script up Ht Hn. unfold detectShell.
    rewrite Ht. apply String.eqb_neq in Hn. now rewrite Hn.
  - intros hint command script b [-> | ->]; reflexivity.
  - intros Hnl. rewrite detectShell_auto by now left.
    assert (H : shouldUsePowerShell text = true).
    { apply shouldUsePowerShell_spec. now left. }
    simpl orEmpty. now rewrite H.
  - reflexivity.
  - repeat split; repeat constructor; vm_compute; reflexivity.
Qed.

(** *** The empty launch target *)

Lemma start_bare_spec t :
  test re_start_bare t = true
  <-> exists w ws,
        toLowerCase w = "start" /\ all is_space ws = true /\ t = w ++ ws.
Proof.
  change re_start_bare
    with (Cat Bol (Cat (liti "start") (Cat (Star is_space) Eol))).
  rewrite test_anchored. split.
  - intros (x & b & -> & H).
    apply Match_cat in H. destruct H as (w & x1 & -> & Hw & H).
    apply Match_liti in Hw.
    apply Match_cat in H. destruct H as (ws & e & -> & Hws & He).
    apply Match_star in Hws. apply Match_eol in He. destruct He as (-> & ->).
    exists w, ws. now rewrite !append_nil_r.
  - intros (w & ws & Hw & Hws & ->). exists (w ++ ws), "".
    split; [now rewrite append_nil_r|].
    apply Match_cat. exists w, ws. split; [reflexivity|].
    split; [now apply Match_liti|].
    apply Match_cat. exists ws, "". split; [now rewrite append_nil_r|].
    split; [now constructor|constructor].
Qed.

Lemma start_title_only_spec t :
  test re_start_title_only t = true
  <-> exists w c ws title ws2,
        toLowerCase w = "start"
        /\ is_space c = true /\ all is_space ws = true
        /\ all (non (ch dq)) title = true
        /\ all is_space ws2 = true
        /\ t = w ++ String c ws ++ q ++ title ++ q ++ ws2.
Proof.
  change re_start_title_only
    with (Cat Bol
            (Cat (liti "start")
               (Cat (plus is_space)
                  (Cat (lit q)
                     (Cat (Star (non (ch dq)))
                        (Cat (lit q) (Cat (Star is_space) Eol))))))).
  rewrite test_anchored. split.
  - intros (x & b & -> & H).
    apply Match_cat in H. destruct H as (w & x1 & -> & Hw & H).
    apply Match_liti in Hw.
    apply Match_cat in H. destruct H as (n & x2 & -> & Hn & H).
    apply Match_plus in Hn. destruct Hn as (c & ws & -> & Hc & Hws).
    apply Match_cat in H. destruct H as (q1 & x3 & -> & Hq1 & H).
    apply Match_lit in Hq1. subst q1.
    apply Match_cat in H. destruct H as (title & x4 & -> & Ht & H).
    apply Match_star in Ht.
    apply Match_cat in H. destruct H as (q2 & x5 & -> & Hq2 & H).
    apply Match_lit in Hq2. subst q2.
    apply Match_cat in H. destruct H as (ws2 & e & -> & Hws2 & He).
    apply Match_star in Hws2. apply Match_eol in He. destruct He as (-> & ->).
    exists w, c, ws, title, ws2. rewrite !append_nil_r.
    repeat split; try assumption.
  - intros (w & c & ws & title & ws2 & Hw & Hc & Hws & Ht & Hws2 & ->).
    exists (w ++ String c ws ++ q ++ title ++ q ++ ws2), "".
    split; [now rewrite append_nil_r|].
    apply Match_cat. eexists w, _. split; [reflexivity|].
    split; [now apply Match_liti|].
    apply Match_cat. eexists (String c ws), _. split; [reflexivity|].
    split; [apply Match_plus; eauto|].
    apply Match_cat. eexists q, _. split; [reflexivity|].
    split; [now apply Match_lit|].
    apply Match_cat. eexists title, _. split; [reflexivity|].
    split; [now constructor|].
    apply Match_cat. eexists q, _. split; [reflexivity|].
    split; [now apply Match_lit|].
    apply Match_cat. exists ws2, "". split; [now rewrite append_nil_r|].
    split; [now constructor|constructor].
Qed.

Lemma start_empty_title_spec t :
  test re_start_empty_title t = true
  <-> exists w c ws ws2,
        toLowerCase w = "start"
        /\ is_space c = true /\ all is_space ws = true
        /\ all is_space ws2 = true
        /\ t = w ++ String c ws ++ q ++ "" ++ q ++ ws2.
Proof.
  change re_start_empty_title
    with (Cat Bol
            (Cat (liti "start")
               (Cat (plus is_space)
                  (Cat (lit qq) (Cat (Star is_space) Eol))))).
  rewrite test_anchored. split.
  - intros (x & b & -> & H).
    apply Match_cat in H. destruct H as (w & x1 & -> & Hw & H).
    apply Match_liti in Hw.
    apply Match_cat in H. destruct H as (n & x2 & -> & Hn & H).
    apply Match_plus in Hn. destruct Hn as (c & ws & -> & Hc & Hws).
    apply Match_cat in H. destruct H as (q1 & x3 & -> & Hq1 & H).
    apply Match_lit in Hq1. subst q1.
    apply Match_cat in H. destruct H as (ws2 & e & -> & Hws2 & He).
    apply Match_star in Hws2. apply Match_eol in He. destruct He as (-> & ->).
    exists w, c, ws, ws2. rewrite !append_nil_r.
    repeat split; try assumption.
  - intros (w & c & ws & ws2 & Hw & Hc & Hws & Hws2 & ->).
    exists (w ++ String c ws ++ q ++ "" ++ q ++ ws2), "".
    split; [now rewrite append_nil_r|].
    apply Match_cat. eexists w, _. split; [reflexivity|].
    split; [now apply Match_liti|].
    apply Match_cat. eexists (String c ws), _. split; [reflexivity|].
    split; [apply Match_plus; eauto|].
    apply Match_cat. exists qq, ws2. split; [reflexivity|].
    split; [now apply Match_lit|].
    apply Match_cat. exists ws2, "". split; [now rewrite append_nil_r|].
    split; [now constructor|constructor].
Qed.

(** The three patterns of the first test of [normalizeCmdStart] are the
    empty launch target of the specification. *)
Lemma empty_launch_spec t :
  test re_start_bare t || test re_start_empty_title t
  || test re_start_title_only t = true
  <-> empty_launch t.
Proof.
  rewrite !orb_true_iff, start_bare_spec, start_empty_title_spec,
    start_title_only_spec.
  unfold empty_launch. split.
  - intros [[(w & ws & Hw & Hws & ->)
            |(w & c & ws & ws2 & Hw & Hc & Hws & Hws2 & ->)]
           |(w & c & ws & title & ws2 & Hw & Hc & Hws & Ht & Hws2 & ->)].
    + exists w, ws. auto.
    + exists w, (String c ws). simpl all. rewrite Hc, Hws.
      repeat split; try assumption. right. exists "", ws2.
      repeat split; try assumption. discriminate.
    + exists w, (String c ws). simpl all. rewrite Hc, Hws.
      repeat split; try assumption. right. exists title, ws2.
      repeat split; try assumption. discriminate.
  - intros (w & ws & Hw & Hws & [->|(title & ws2 & Hne & Ht & Hws2 & ->)]).
    + left. left. eauto.
    + right. destruct ws as [|c ws]; [contradiction|].
      simpl in Hws. apply andb_true_iff in Hws. destruct Hws as [Hc Hws].
      exists w, c, ws, title, ws2. repeat split; assumption.
Qed.

Lemma changed_tried chromeExe c :
  didTryChrome (rewriteStartChrome chromeExe c) = false ->
  changed (rewriteStartChrome chromeExe c) = false.
Proof.
  unfold rewriteStartChrome.
  destruct (negb (truthy (trim c))); [reflexivity|].
  destruct (test re_start_title_chrome_exe (trim c)
            || startsWith "start " (trim c)
               && test re_drive_chrome_exe (trim c)); [reflexivity|].
  destruct (exec re_start_chrome (trim c)); [discriminate|].
  destruct (exec re_start_title_chrome (trim c)); [discriminate|].
  destruct (exec re_chrome (trim c)); [|reflexivity].
  destruct (String.eqb (toLowerCase chromeExe) "chrome.exe"); discriminate.
Qed.

(** What the [cmd] block does with a command that is not routed to Chrome. *)
Lemma guardCmd_not_routed chromeExe c :
  routedToChrome chromeExe c = false ->
  guardCmd chromeExe c
  = match normalizeCmdStart c with
    | Reject reason => Return (failure reason)
    | Rewrite c' =>
        if isLikelyInvalidWindowsTarget (trim c')
        then Return (failure reason_invalid_target)
        else runCommandText "cmd" c'
    | Ok _ =>
        if isLikelyInvalidWindowsTarget (trim c)
        then Return (failure reason_invalid_target)
        else runCommandText "cmd" c
    end.
Proof.
  unfold routedToChrome, guardCmd. intros H.
  apply orb_false_iff in H. destruct H as [Htry Hsecond].
  rewrite (changed_tried _ _ Htry), Htry, Hsecond.
  destruct (normalizeCmdStart c); reflexivity.
Qed.

(** C5, as amended: a command whose trimmed text is an empty launch target
    is refused with the text that starts [Refusing to run], and nothing is
    spawned, when [executeCommand] takes it in command mode (no script), the
    effective shell is [cmd], and the command is not one that the [cmd]
    block hands to the detached Chrome launcher. *)
Theorem empty_launch_refused chromeExe i c :
  command i = Some c ->
  nonEmptyString (script i) = false ->
  effectiveShell i = "cmd" ->
  empty_launch (trim c) ->
  routedToChrome chromeExe c = false ->
  executeCommand chromeExe i = Return (failure reason_no_target)
  /\ includes "Refusing to run" reason_no_target = true
  /\ spawns (executeCommand chromeExe i) = false.
Proof.
  intros Hc Hs Hshell Hempty Hroute.
  apply empty_launch_spec in Hempty.
  assert (Hrun : executeCommand chromeExe i = Return (failure reason_no_target)).
  { unfold executeCommand. fold (effectiveShell i). rewrite Hs, Hc, Hshell.
    assert (Hne : nonEmptyString (Some c) = true).
    { unfold nonEmptyString. destruct (trim c) eqn:Ht; [discriminate|reflexivity]. }
    rewrite Hne. simpl. rewrite guardCmd_not_routed by assumption.
    unfold normalizeCmdStart. cbv zeta. now rewrite Hempty. }
  rewrite Hrun. repeat split.
Qed.

(** *** Addresses behind path separators *)

Lemma slash_cases c : is_slash c = true -> c = "\"%char \/ c = "/"%char.
Proof.
  unfold is_slash. intros H. apply orb_true_iff in H.
  destruct H as [H|H]; apply Ascii.eqb_eq in H; auto.
Qed.

Lemma slash_not_space c : is_slash c = true -> is_space c = false.
Proof. intros H. destruct (slash_cases _ H) as [-> | ->]; reflexivity. Qed.

Lemma lower_slash d : is_slash (lower d) = is_slash d.
Proof.
  destruct d as [b0 b1 b2 b3 b4 b5 b6 b7];
    destruct b0, b1, b2, b3, b4, b5, b6, b7; reflexivity.
Qed.

(** What a text that is an address as a whole looks like: it starts with a
    letter and holds no white space. *)
Lemma whole_url_shape url :
  test re_whole_url url = true ->
  exists c0 rest,
    url = String c0 rest
    /\ is_slash c0 = false
    /\ all (non is_space) url = true.
Proof.
  change re_whole_url
    with (Cat Bol
            (Cat (liti "http")
               (Cat (opt (Chr (chi "s")))
                  (Cat (lit "://") (Cat (plus (non is_space)) Eol))))).
  rewrite test_anchored. intros (x & b & -> & H).
  apply Match_cat in H. destruct H as (h & x1 & -> & Hh & H).
  apply Match_liti in Hh.
  apply Match_cat in H. destruct H as (o & x2 & -> & Ho & H).
  apply Match_cat in H. destruct H as (l & x3 & -> & Hl & H).
  apply Match_lit in Hl. subst l.
  apply Match_cat in H. destruct H as (n & e & -> & Hn & He).
  apply Match_plus in Hn. destruct Hn as (c & w & -> & Hc & Hw).
  apply Match_eol in He. destruct He as (-> & ->).
  assert (Hospace : all (non is_space) o = true).
  { inversion Ho; subst.
    - match goal with Hm : Match (Chr _) _ _ _ |- _ =>
        apply Match_chr in Hm; destruct Hm as (d & -> & Hd) end.
      apply chi_lower in Hd. simpl. unfold non.
      rewrite <- lower_space, Hd. reflexivity.
    - match goal with Hm : Match Eps _ _ _ |- _ => inversion Hm end.
      reflexivity. }
  destruct h as [|c0 h]; [discriminate|].
  exists c0. eexists. split; [reflexivity|]. split.
  - simpl in Hh. inversion Hh as [[Hc0 Hrest]].
    rewrite <- lower_slash, Hc0. reflexivity.
  - rewrite !append_nil_r, !all_append.
    rewrite (liti_no_space "http" _ Hh), Hospace. simpl. now rewrite Hc, Hw.
Qed.

Lemma trim_slashed seps url :
  seps <> "" -> all is_slash seps = true ->
  url <> "" -> all (non is_space) url = true ->
  trim (seps ++ url) = seps ++ url.
Proof.
  intros Hne Hs Hu Hn. destruct seps as [|c0 seps]; [contradiction|].
  simpl in Hs. apply andb_true_iff in Hs. destruct Hs as [Hc0 Hs].
  change (String c0 seps ++ url) with (String c0 (seps ++ url)).
  apply trim_fixed; [now apply slash_not_space|].
  change (String c0 (seps ++ url)) with (String c0 seps ++ url).
  apply trimEnd_append; [assumption|now apply trimEnd_no_space].
Qed.

Lemma strip_run seps url :
  seps <> "" -> all is_slash seps = true ->
  match url with String d _ => is_slash d = false | EmptyString => True end ->
  stripLeadingSlashes (seps ++ url) = url.
Proof.
  intros Hne Hs Hu. destruct seps as [|c0 seps]; [contradiction|].
  simpl in Hs. apply andb_true_iff in Hs. destruct Hs as [Hc0 Hs].
  unfold stripLeadingSlashes, exec, re_leading_slashes.
  cbn [seq plus append search m]. rewrite Hc0.
  rewrite (star_runs is_slash (m Mark accept) [] seps url (y := [url]) Hs Hu);
    reflexivity.
Qed.

Lemma not_a_start c : is_slash c = true -> chi "s" c = false /\ chi "c" c = false.
Proof. intros H. destruct (slash_cases _ H) as [-> | ->]; split; reflexivity. Qed.

Lemma exec_none r s : test r s = false -> exec r s = None.
Proof. apply isSome_false. Qed.

(** A command that starts with a path separator is not taken for a Chrome
    launch by [rewriteStartChrome]. *)
Lemma rewriteStartChrome_slash chromeExe c0 t :
  is_slash c0 = true ->
  trim (String c0 t) = String c0 t ->
  didTryChrome (rewriteStartChrome chromeExe (String c0 t)) = false.
Proof.
  intros Hc Ht. destruct (not_a_start _ Hc) as [Hs Hch].
  unfold rewriteStartChrome. rewrite Ht. cbn [truthy negb].
  assert (H1 : test re_start_title_chrome_exe (String c0 t) = false)
    by (unfold re_start_title_chrome_exe; cbn [seq]; now apply anchored_liti).
  assert (H2 : startsWith "start " (String c0 t) = false)
    by (destruct (slash_cases _ Hc) as [-> | ->]; reflexivity).
  assert (H3 : exec re_start_chrome (String c0 t) = None)
    by (apply exec_none; unfold re_start_chrome; cbn [seq];
        now apply anchored_liti).
  assert (H4 : exec re_start_title_chrome (String c0 t) = None)
    by (apply exec_none; unfold re_start_title_chrome; cbn [seq];
        now apply anchored_liti).
  assert (H5 : exec re_chrome (String c0 t) = None)
    by (apply exec_none; unfold re_chrome; cbn [seq];
        now apply anchored_liti).
  rewrite H1, H2, H3, H4, H5. reflexivity.
Qed.

Lemma not_an_empty_launch c0 t :
  is_slash c0 = true ->
  test re_start_bare (String c0 t) || test re_start_empty_title (String c0 t)
  || test re_start_title_only (String c0 t) = false.
Proof.
  intros Hc. destruct (not_a_start _ Hc) as [Hs _].
  assert (H1 : test re_start_bare (String c0 t) = false)
    by (unfold re_start_bare; cbn [seq]; now apply anchored_liti).
  assert (H2 : test re_start_empty_title (String c0 t) = false)
    by (unfold re_start_empty_title; cbn [seq]; now apply anchored_liti).
  assert (H3 : test re_start_title_only (String c0 t) = false)
    by (unfold re_start_title_only; cbn [seq]; now apply anchored_liti).
  now rewrite H1, H2, H3.
Qed.

Lemma append_longer (a b : string) : a <> "" -> b <> a ++ b.
Proof.
  intros Ha H. apply (f_equal String.length) in H.
  rewrite length_append in H. destruct a; [contradiction|]. simpl in H. lia.
Qed.

(** C6, as amended: a command that is an http(s) address behind one, two
    or more path separators is refused, nothing is spawned, and the text of
    the refusal ends with the address without the separators, when
    [executeCommand] takes it in command mode (no script), the effective
    shell is [cmd], and the text holds no [chrome.exe] token. *)
Theorem slashed_url_refused chromeExe i seps url :
  command i = Some (seps ++ url) ->
  nonEmptyString (script i) = false ->
  effectiveShell i = "cmd" ->
  seps <> "" ->
  all is_slash seps = true ->
  test re_whole_url url = true ->
  test re_chrome_exe (seps ++ url) = false ->
  executeCommand chromeExe i = Return (failure (reason_slashed_url url))
  /\ reason_slashed_url url
     = "Looks like a URL with a leading \\ or /. Use the URL without the leading slash, or ask the bot to browse it. Example: "
       ++ url
  /\ includes url (reason_slashed_url url) = true
  /\ spawns (executeCommand chromeExe i) = false.
Proof.
  intros Hc Hs Hshell Hne Hseps Hurl Hchrome.
  destruct (whole_url_shape _ Hurl) as (c0 & rest & Hu & Hc0 & Hnospace).
  assert (Hune : url <> "") by (rewrite Hu; discriminate).
  pose proof (trim_slashed Hne Hseps Hune Hnospace) as Htrim.
  assert (Hstrip : stripLeadingSlashes (seps ++ url) = url)
    by (apply strip_run; [assumption|assumption|now rewrite Hu]).
  assert (Htrimurl : trim url = url).
  { rewrite Hu. apply trim_fixed.
    - rewrite Hu in Hnospace. simpl in Hnospace.
      apply andb_true_iff in Hnospace. destruct Hnospace as [H _].
      now apply negb_true_iff in H.
    - rewrite <- Hu. now apply trimEnd_no_space. }
  destruct seps as [|s0 seps]; [contradiction|].
  pose proof Hseps as Hall. simpl in Hall.
  apply andb_true_iff in Hall. destruct Hall as [Hs0 _].
  change (String s0 seps ++ url) with (String s0 (seps ++ url)) in *.
  assert (Hroute : routedToChrome chromeExe (String s0 (seps ++ url)) = false).
  { unfold routedToChrome.
    rewrite rewriteStartChrome_slash, Hchrome by assumption.
    reflexivity. }
  assert (Hnorm : normalizeCmdStart (String s0 (seps ++ url))
                  = Reject (reason_slashed_url url)).
  { unfold normalizeCmdStart. cbv zeta.
    rewrite Htrim, not_an_empty_launch, Hstrip by assumption.
    unfold looksLikeUrl. rewrite Htrimurl, Hurl.
    replace (String.eqb url (String s0 (seps ++ url))) with false;
      [reflexivity|].
    symmetry. apply String.eqb_neq.
    change (String s0 (seps ++ url)) with (String s0 seps ++ url).
    apply append_longer. discriminate. }
  assert (Hrun : executeCommand chromeExe i
                 = Return (failure (reason_slashed_url url))).
  { unfold executeCommand. fold (effectiveShell i). rewrite Hs, Hc, Hshell.
    assert (Hcmd : nonEmptyString (Some (String s0 (seps ++ url))) = true)
      by (unfold nonEmptyString; now rewrite Htrim).
    rewrite Hcmd. simpl. rewrite guardCmd_not_routed by assumption.
    now rewrite Hnorm. }
  rewrite Hrun. split; [reflexivity|]. split; [reflexivity|].
  split; [|reflexivity].
  apply includes_spec.
  exists "Looks like a URL with a leading \\ or /. Use the URL without the leading slash, or ask the bot to browse it. Example: ", "".
  rewrite append_nil_r. reflexivity.
Qed.

End DispatcherFacts.

(* ===================================================================== *)
(** ** Facts about the dispatcher on any input *)
(* ===================================================================== *)

Module AnyInputFacts.

Import Js Regex AnyInput Props.

Lemma shouldUsePowerShell_string s :
  shouldUsePowerShell (VString s) = inr (Dispatcher.shouldUsePowerShell s).
Proof. destruct s; reflexivity. Qed.



Lemma runCommandText_declared shell command :
  runCommandText (VString shell) command
  = Dispatcher.runCommandText shell command.
Proof. reflexivity. Qed.


Lemma readable_looks v :
  readable v = true -> exists b, looksLikePowerShell v = inr b.
Proof.
  unfold looksLikePowerShell, shouldUsePowerShell, readable.
  destruct (truthy v) eqn:Ht; simpl; [|eauto].
  destruct v; try discriminate; eauto.
Qed.

Lemma unreadable_looks v :
  readable v = false ->
  looksLikePowerShell v = inl "command.includes is not a function".
Proof.
  unfold looksLikePowerShell, shouldUsePowerShell, readable.
  destruct (truthy v) eqn:Ht; simpl; [|discriminate].
  destruct v; try discriminate; reflexivity.
Qed.




End AnyInputFacts.

(* ===================================================================== *)
(** ** Facts about the orchestrator *)
(* ===================================================================== *)

Module OrchestratorFacts.

Import Js Regex Orchestrator Props.

Section Facts.

Variable W : Type.
Variable create : option N -> list message -> W -> (string + response) * W.
Variable runTool :
  string -> tool_input -> W -> (string + Dispatcher.result) * W.
Variable MAX_AGENT_ITERATIONS : nat.
Variable STOP_AFTER_SUCCESSFUL_BROWSE : bool.

Local Abbreviation step := (step runTool STOP_AFTER_SUCCESSFUL_BROWSE).
Local Abbreviation forEach := (forEach runTool STOP_AFTER_SUCCESSFUL_BROWSE).
Local Abbreviation record := (record STOP_AFTER_SUCCESSFUL_BROWSE).
Local Abbreviation loop :=
  (loop create runTool MAX_AGENT_ITERATIONS STOP_AFTER_SUCCESSFUL_BROWSE).
Local Abbreviation attempt :=
  (attempt create runTool MAX_AGENT_ITERATIONS STOP_AFTER_SUCCESSFUL_BROWSE).
Local Abbreviation processWithClaude :=
  (processWithClaude create runTool MAX_AGENT_ITERATIONS
     STOP_AFTER_SUCCESSFUL_BROWSE).
Local Abbreviation ask := (ask create).
Local Abbreviation firstRequest := (firstRequest create).
Local Abbreviation nextRequest := (nextRequest create).

Lemma fingerprint_known name input f :
  fingerprintBrowserAction name input = Some f -> known name = true.
Proof.
  unfold fingerprintBrowserAction, known.
  destruct (String.eqb name "browse_website") eqn:Hb.
  - intros _. now rewrite !orb_true_r.
  - destruct (String.eqb name "execute_command") eqn:He;
      [reflexivity|discriminate].
Qed.

Lemma extend_extend t l1 l2 :
  extend (extend t l1) l2 = extend t (l1 ++ l2)%list.
Proof. unfold extend. simpl. now rewrite app_assoc. Qed.

Lemma extend_nil t : extend t [] = t.
Proof. destruct t. unfold extend. simpl. now rewrite app_nil_r. Qed.

(** In step mode, once a tool has run in this response, a request is
    answered with the deferral and nothing happens outside. *)
Lemma step_deferred chatId t b st :
  1 <= executedThisResponse t ->
  step chatId true t b st = (inr (extend t [answer b deferredResult]), st).
Proof.
  intros H. unfold Orchestrator.step.
  apply Nat.leb_le in H. rewrite H. reflexivity.
Qed.

Lemma step_passed_over chatId sc t b st :
  sc && (1 <=? executedThisResponse t) = false ->
  passedOver (executedBrowserActions t) b = true ->
  step chatId sc t b st
  = (inr (extend t [answer b (passedOverResult b)]), st).
Proof.
  intros H0 Hp.
  unfold Orchestrator.step, passedOver, seen, passedOverResult in *.
  rewrite H0. simpl.
  destruct (fingerprintBrowserAction (block_name b) (block_input b))
    as [f|] eqn:Hf.
  - rewrite (fingerprint_known _ _ Hf) in *. simpl in Hp.
    rewrite orb_false_r in Hp. rewrite Hp. reflexivity.
  - simpl in Hp. apply negb_true_iff in Hp. rewrite Hp. reflexivity.
Qed.

Lemma step_runs chatId sc t b st :
  sc && (1 <=? executedThisResponse t) = false ->
  passedOver (executedBrowserActions t) b = false ->
  step chatId sc t b st
  = let name := block_name b in
    let input := block_input b in
    let (out, w) := runTool name input (world st) in
    let st' :=
      {| world := w;
         trace := (trace st ++ [Said chatId (announcement name input);
                                Invoked name input out])%list |} in
    match out with
    | inr r =>
        (inr (extend (record t name (fingerprintBrowserAction name input) r)
                [answer b (ofEnvelope r)]), st')
    | inl msg => (inl msg, st')
    end.
Proof.
  intros H0 Hp. unfold Orchestrator.step, passedOver, seen in *.
  rewrite H0. simpl.
  apply orb_false_iff in Hp. destruct Hp as [Hs Hk].
  apply negb_false_iff in Hk. rewrite Hs, Hk.
  unfold bind, safeSendMessage, invoke, log, ret. simpl.
  destruct (runTool (block_name b) (block_input b) (world st)) as [[msg|r] w];
    simpl; rewrite <- app_assoc; reflexivity.
Qed.

Lemma forEach_app chatId sc l1 l2 t st :
  forEach chatId sc (l1 ++ l2)%list t st
  = bind (forEach chatId sc l1 t) (forEach chatId sc l2) st.
Proof.
  revert t st. induction l1 as [|b l1 IH]; intros t st; simpl.
  - reflexivity.
  - unfold bind in *. destruct (step chatId sc t b st) as [[msg|t'] st'].
    + reflexivity.
    + apply IH.
Qed.

Lemma forEach_deferred chatId bs t st :
  1 <= executedThisResponse t ->
  forEach chatId true bs t st
  = (inr (extend t (map (fun b => answer b deferredResult) bs)), st).
Proof.
  revert t. induction bs as [|b bs IH]; intros t H; simpl.
  - now rewrite extend_nil.
  - unfold bind. rewrite step_deferred by assumption.
    rewrite IH by (simpl; assumption).
    now rewrite extend_extend.
Qed.

Lemma not_yet_run sc t :
  executedThisResponse t = 0 -> sc && (1 <=? executedThisResponse t) = false.
Proof. intros ->. apply andb_false_r. Qed.

Lemma forEach_passed_over chatId sc bs t st :
  executedThisResponse t = 0 ->
  forallb (passedOver (executedBrowserActions t)) bs = true ->
  forEach chatId sc bs t st
  = (inr (extend t (map (fun b => answer b (passedOverResult b)) bs)), st).
Proof.
  revert t. induction bs as [|b bs IH]; intros t H0 Hall; simpl in *.
  - now rewrite extend_nil.
  - apply andb_true_iff in Hall. destruct Hall as [Hb Hall].
    unfold bind.
    rewrite step_passed_over by (try apply not_yet_run; assumption).
    rewrite IH by (simpl; assumption).
    now rewrite extend_extend.
Qed.

Lemma forEach_runs chatId sc u post t st :
  forEach chatId sc (u :: post) t st
  = bind (step chatId sc t u) (forEach chatId sc post) st.
Proof. reflexivity. Qed.

Lemma invocations_app tr1 tr2 :
  invocations (tr1 ++ tr2) = (invocations tr1 ++ invocations tr2)%list.
Proof. apply filter_app. Qed.

(** In step mode a response in which every request is a duplicate or names
    no tool runs nothing and defers nothing. *)
Lemma step_mode_nothing_to_run chatId sc executed bs st :
  forallb (passedOver executed) bs = true ->
  forEach chatId sc bs (newTurn executed) st
  = (inr (extend (newTurn executed)
            (map (fun b => answer b (passedOverResult b)) bs)), st).
Proof. intros H. now apply forEach_passed_over. Qed.

(** C2, as amended: in step mode the one request of a response that runs is
    the first that is neither a duplicate of a successful browser action nor
    a request for an unknown tool, and nothing else is executed.  When its
    handler returns, the requests before it are answered as duplicates or
    unknown tools, every request after it is answered with the deferral, and
    the result blocks carry the call identifiers of the requests, one each,
    in the order of the requests.  When its handler throws, the loop over
    the requests ends with the thrown message: no request after it is
    deferred and no result block is left for any request of the response.
    A response in which every request is a duplicate or names an unknown
    tool runs nothing and defers nothing. *)
Theorem step_mode_runs_one_request chatId executed pre u post st :
  forallb (passedOver executed) pre = true ->
  passedOver executed u = false ->
  exists out st',
    runTool (block_name u) (block_input u) (world st) = (out, world st')
    /\ trace st'
       = (trace st
          ++ [Said chatId (announcement (block_name u) (block_input u));
              Invoked (block_name u) (block_input u) out])%list
    /\ invocations (trace st')
       = (invocations (trace st)
          ++ [Invoked (block_name u) (block_input u) out])%list
    /\ match out with
       | inr r =>
           exists t,
             forEach chatId true (pre ++ u :: post)%list (newTurn executed) st
             = (inr t, st')
             /\ toolResultsBlocks t
                = (map (fun b => answer b (passedOverResult b)) pre
                   ++ answer u (ofEnvelope r)
                   :: map (fun b => answer b deferredResult) post)%list
             /\ map tool_use_id (toolResultsBlocks t)
                = map block_id (pre ++ u :: post)%list
       | inl message =>
           forEach chatId true (pre ++ u :: post)%list (newTurn executed) st
           = (inl message, st')
       end
    /\ deferred deferredResult = true
    /\ error deferredResult
       = Some "Deferred by step-by-step mode. The agent should continue in a follow-up step."
    /\ (forall bs st0,
          forallb (passedOver executed) bs = true ->
          forEach chatId true bs (newTurn executed) st0
          = (inr (extend (newTurn executed)
                    (map (fun b => answer b (passedOverResult b)) bs)),
             st0)).
Proof.
  intros Hpre Hu.
  destruct (runTool (block_name u) (block_input u) (world st))
    as [out w] eqn:Hrun.
  exists out,
    {| world := w;
       trace :=
         (trace st
          ++ [Said chatId (announcement (block_name u) (block_input u));
              Invoked (block_name u) (block_input u) out])%list |}.
  split; [reflexivity|]. split; [reflexivity|].
  split; [simpl; rewrite invocations_app; reflexivity|].
  split; [|split; [reflexivity|split; [reflexivity|]]];
    [|intros bs st0 Hbs; now apply step_mode_nothing_to_run].
  rewrite forEach_app. unfold bind.
  rewrite forEach_passed_over by first [reflexivity | exact Hpre].
  rewrite forEach_runs. unfold bind.
  rewrite step_runs by first [now apply not_yet_run | exact Hu].
  cbv zeta. rewrite Hrun. destruct out as [message|r]; [reflexivity|].
  rewrite forEach_deferred by (simpl; lia).
  eexists. split; [reflexivity|]. simpl. split.
  - rewrite <- app_assoc. reflexivity.
  - rewrite <- app_assoc, !map_app. simpl. rewrite !map_map. reflexivity.
Qed.

Lemma step_skips chatId sc t b st f :
  (sc = true /\ 1 <= executedThisResponse t)
  \/ (fingerprintBrowserAction (block_name b) (block_input b) = Some f
      /\ has f (executedBrowserActions t) = true) ->
  step chatId sc t b st
  = (inr (extend t
            [answer b (if sc && (1 <=? executedThisResponse t)
                       then deferredResult else dedupedResult f)]),
     st).
Proof.
  intros H.
  destruct (sc && (1 <=? executedThisResponse t)) eqn:Hsc.
  - apply andb_true_iff in Hsc. destruct Hsc as [-> Hex].
    apply Nat.leb_le in Hex. now apply step_deferred.
  - destruct H as [[-> Hex]|[Hf Hhas]].
    + apply Nat.leb_le in Hex. rewrite Hex in Hsc. discriminate.
    + unfold Orchestrator.step. rewrite Hsc, Hf, Hhas. reflexivity.
Qed.

(** C3, as amended: a request that policy skips, because step mode has
    already run a tool in this response or because its fingerprint was
    already executed successfully in this run, is answered without any tool
    being run.  The deferral comes first and reads [success: false],
    [deferred: true], with its explanation in [error]; the duplicate notice
    reads [success: true], [deduped: true], with its explanation in [note]
    and no [error]. *)
Theorem skipped_requests_results chatId sc t b st f :
  (sc = true /\ 1 <= executedThisResponse t)
  \/ (fingerprintBrowserAction (block_name b) (block_input b) = Some f
      /\ has f (executedBrowserActions t) = true) ->
  step chatId sc t b st
  = (inr (extend t
            [answer b (if sc && (1 <=? executedThisResponse t)
                       then deferredResult else dedupedResult f)]),
     st)
  /\ success deferredResult = false
  /\ deferred deferredResult = true
  /\ note deferredResult = None
  /\ error deferredResult
     = Some "Deferred by step-by-step mode. The agent should continue in a follow-up step."
  /\ success (dedupedResult f) = true
  /\ deduped (dedupedResult f) = true
  /\ error (dedupedResult f) = None
  /\ note (dedupedResult f)
     = Some "Skipped duplicate browser action (already executed in this request).".
Proof.
  intros H. split; [now apply step_skips|repeat split].
Qed.

(** *** The executed fingerprints along a trace *)

Lemma has_add_same f E : has f (add f E) = true.
Proof.
  unfold add. destruct (has f E) eqn:H; [assumption|].
  unfold has. rewrite existsb_app. simpl. rewrite String.eqb_refl.
  now rewrite orb_true_r.
Qed.

Lemma has_add_mono f g E : has f E = true -> has f (add g E) = true.
Proof.
  intros H. unfold add. destruct (has g E); [assumption|].
  unfold has in *. rewrite existsb_app, H. reflexivity.
Qed.

Lemma has_remember_mono f E e : has f E = true -> has f (remember E e) = true.
Proof.
  intros H. unfold remember. destruct (succeeded e); [|assumption].
  now apply has_add_mono.
Qed.

Lemma has_after_mono f tr : forall E, has f E = true -> has f (after E tr) = true.
Proof.
  induction tr as [|e tr IH]; intros E H; simpl; [assumption|].
  apply IH. now apply has_remember_mono.
Qed.

Lemma after_app a b : forall E, after E (a ++ b) = after (after E a) b.
Proof. induction a as [|e a IH]; intros E; simpl; [reflexivity|apply IH]. Qed.

Lemma fresh_app a b :
  forall E, fresh E (a ++ b) <-> fresh E a /\ fresh (after E a) b.
Proof.
  induction a as [|e a IH]; intros E; simpl.
  - tauto.
  - rewrite IH. tauto.
Qed.

Lemma fresh_quiet tr :
  Forall (fun e => is_invoked e = false) tr ->
  forall E, fresh E tr /\ after E tr = E.
Proof.
  induction 1 as [|e tr He _ IH]; intros E; simpl; [tauto|].
  destruct e; try discriminate; unfold remember; simpl; split;
    try split; try exact I; apply IH.
Qed.

Lemma fingerprint_remembers name input f :
  fingerprintBrowserAction name input = Some f ->
  String.eqb name "execute_command" || String.eqb name "browse_website" = true.
Proof.
  unfold fingerprintBrowserAction.
  destruct (String.eqb name "browse_website") eqn:Hb.
  - intros _. apply orb_true_r.
  - destruct (String.eqb name "execute_command"); [reflexivity|discriminate].
Qed.

(** What one request adds to the trace: at most one tool call, and only for
    a fingerprint that has not succeeded before. *)
Lemma step_trace chatId sc t b st out st' :
  step chatId sc t b st = (out, st') ->
  exists added,
    trace st' = (trace st ++ added)%list
    /\ fresh (executedBrowserActions t) added
    /\ Forall (fun e => is_asked e = false) added
    /\ match out with
       | inr t' =>
           executedBrowserActions t'
           = after (executedBrowserActions t) added
       | inl _ => True
       end.
Proof.
  intros H.
  destruct (sc && (1 <=? executedThisResponse t)) eqn:Hsc.
  - apply andb_true_iff in Hsc. destruct Hsc as [-> Hex].
    apply Nat.leb_le in Hex. rewrite step_deferred in H by assumption.
    inversion H; subst. exists []. rewrite app_nil_r. simpl. auto.
  - destruct (passedOver (executedBrowserActions t) b) eqn:Hp.
    + rewrite step_passed_over in H by assumption.
      inversion H; subst. exists []. rewrite app_nil_r. simpl. auto.
    + rewrite step_runs in H by assumption. cbv zeta in H.
      destruct (runTool (block_name b) (block_input b) (world st))
        as [o w] eqn:Hrun.
      exists [Said chatId (announcement (block_name b) (block_input b));
              Invoked (block_name b) (block_input b) o].
      unfold passedOver, seen in Hp. apply orb_false_iff in Hp.
      destruct Hp as [Hseen _].
      assert (Hfresh :
        match fingerprintBrowserAction (block_name b) (block_input b) with
        | Some f => has f (executedBrowserActions t) = false
        | None => True
        end).
      { destruct (fingerprintBrowserAction (block_name b) (block_input b));
          [assumption|exact I]. }
      destruct o as [msg|r]; inversion H; subst; clear H; simpl;
        (split; [reflexivity|]); (split; [tauto|]);
        (split; [repeat constructor|]); [exact I|].
      unfold remember. simpl.
      destruct (fingerprintBrowserAction (block_name b) (block_input b))
        as [f|] eqn:Hf.
      * rewrite (fingerprint_remembers _ _ Hf). simpl.
        destruct (Dispatcher.success r); reflexivity.
      * destruct (Dispatcher.success r); reflexivity.
Qed.

Lemma forEach_trace chatId sc bs :
  forall t st out st',
  forEach chatId sc bs t st = (out, st') ->
  exists added,
    trace st' = (trace st ++ added)%list
    /\ fresh (executedBrowserActions t) added
    /\ Forall (fun e => is_asked e = false) added
    /\ match out with
       | inr t' =>
           executedBrowserActions t'
           = after (executedBrowserActions t) added
       | inl _ => True
       end.
Proof.
  induction bs as [|b bs IH]; intros t st out st' H; simpl in H.
  - inversion H; subst. exists []. rewrite app_nil_r. simpl. auto.
  - unfold bind in H.
    destruct (step chatId sc t b st) as [[msg|t1] st1] eqn:Hstep;
      destruct (step_trace _ _ _ _ _ Hstep) as (a1 & Htr1 & Hf1 & Hq1 & He1).
    + inversion H; subst. exists a1. auto.
    + destruct (IH _ _ _ _ H) as (a2 & Htr2 & Hf2 & Hq2 & He2).
      exists (a1 ++ a2)%list. rewrite Htr2, Htr1, app_assoc.
      split; [reflexivity|]. split; [|split].
      * apply fresh_app. rewrite <- He1. tauto.
      * apply Forall_app. tauto.
      * destruct out; [exact I|]. now rewrite after_app, <- He1.
Qed.

(** *** Requests to the reasoning service *)

Lemma ask_trace th msgs st out st' :
  ask th msgs st = (out, st') ->
  trace st' = (trace st ++ [Asked th msgs])%list.
Proof.
  unfold Orchestrator.ask. destruct (create th msgs (world st)).
  intros H. inversion H; subst. reflexivity.
Qed.

Lemma nextRequest_trace o convo st out st' :
  nextRequest o convo st = (out, st') ->
  exists added, trace st' = (trace st ++ added)%list /\ onlyRequests added.
Proof.
  unfold Orchestrator.nextRequest, try. intros H.
  destruct (ask (if deepThinking o then Some (budget o) else None) convo st)
    as [[msg|r] st1] eqn:H1; apply ask_trace in H1.
  - apply ask_trace in H. rewrite H, H1, <- app_assoc.
    eexists. split; [reflexivity|]. repeat constructor.
  - inversion H; subst. eexists. split; [eassumption|]. repeat constructor.
Qed.

Lemma firstRequest_trace o convo st out st' :
  firstRequest o convo st = (out, st') ->
  exists added, trace st' = (trace st ++ added)%list /\ onlyRequests added.
Proof.
  unfold Orchestrator.firstRequest, try. intros H.
  destruct (deepThinking o).
  - destruct (ask (Some (budget o)) convo st) as [[msg|r] st1] eqn:H1;
      apply ask_trace in H1.
    + apply ask_trace in H. rewrite H, H1, <- app_assoc.
      eexists. split; [reflexivity|]. repeat constructor.
    + inversion H; subst. eexists. split; [eassumption|]. repeat constructor.
  - apply ask_trace in H. eexists. split; [eassumption|]. repeat constructor.
Qed.

Lemma loop_S fuel chatId o iterations executed convo r :
  loop (S fuel) chatId o iterations executed convo r
  = if negb (String.eqb (stop_reason r) "tool_use") then ret (finish convo r)
    else if MAX_AGENT_ITERATIONS <? iterations + 1 then ret (finish convo r)
    else if negb (allowTools o) then ret (finish convo r)
    else
      match filter is_tool_use (content r) with
      | [] => ret (finish convo r)
      | _ =>
          bind (forEach chatId (stepConfirm o)
                  (filter is_tool_use (content r)) (newTurn executed))
            (fun t =>
               let convo :=
                 (convo ++ [assistant (content r);
                            toolResults (toolResultsBlocks t)])%list in
               if stopAfterBrowseSuccess t then
                 ret {| replyText := "Browser task completed.";
                        updatedMessages := convo |}
               else
                 bind (nextRequest o convo)
                   (fun r' =>
                      loop fuel chatId o (iterations + 1)
                        (executedBrowserActions t) convo r'))
      end.
Proof. reflexivity. Qed.

(** Along the whole loop no tool is called for a fingerprint that has
    succeeded before. *)
Lemma loop_trace fuel chatId o :
  forall iterations executed convo r st out st',
  loop fuel chatId o iterations executed convo r st = (out, st') ->
  exists added, trace st' = (trace st ++ added)%list /\ fresh executed added.
Proof.
  induction fuel as [|fuel IH]; intros i E convo r st out st' H.
  - inversion H; subst. exists []. now rewrite app_nil_r.
  - rewrite loop_S in H.
    assert (Hret : forall x : run_result, ret x st = (out, st') ->
      exists added, trace st' = (trace st ++ added)%list /\ fresh E added).
    { intros x Hx. inversion Hx; subst. exists []. now rewrite app_nil_r. }
    destruct (negb (String.eqb (stop_reason r) "tool_use")); [eauto|].
    destruct (MAX_AGENT_ITERATIONS <? i + 1); [eauto|].
    destruct (negb (allowTools o)); [eauto|].
    destruct (filter is_tool_use (content r)) as [|b bs] eqn:Hbs; [eauto|].
    unfold bind in H.
    destruct (forEach chatId (stepConfirm o) (b :: bs) (newTurn E) st)
      as [[msg|t] st1] eqn:Hfor;
      destruct (forEach_trace _ _ _ _ _ Hfor) as (a1 & Htr1 & Hf1 & _ & He1);
      simpl in Hf1, He1.
    + inversion H; subst. eauto.
    + destruct (stopAfterBrowseSuccess t).
      * inversion H; subst. eauto.
      * match type of H with
        | match nextRequest ?o ?c ?s with _ => _ end = _ =>
            destruct (nextRequest o c s) as [[msg|r'] st2] eqn:Hnext
        end;
          destruct (nextRequest_trace _ _ _ Hnext) as (a2 & Htr2 & Hq2);
          destruct (fresh_quiet Hq2 (after E a1)) as [Hf2 Ha2].
        -- inversion H; subst. exists (a1 ++ a2)%list.
           rewrite Htr2, Htr1, app_assoc. split; [reflexivity|].
           apply fresh_app. tauto.
        -- destruct (IH _ _ _ _ _ _ _ H) as (a3 & Htr3 & Hf3).
           exists (a1 ++ a2 ++ a3)%list.
           rewrite Htr3, Htr2, Htr1, !app_assoc. split; [reflexivity|].
           rewrite <- app_assoc. apply fresh_app. split; [assumption|].
           apply fresh_app. rewrite Ha2. rewrite He1 in Hf3. tauto.
Qed.

Lemma run_trace messages chatId o st out st' :
  processWithClaude messages chatId o st = (out, st') ->
  exists added, trace st' = (trace st ++ added)%list /\ fresh [] added.
Proof.
  unfold Orchestrator.processWithClaude, try, Orchestrator.attempt, bind.
  intros H.
  destruct (firstRequest o messages st) as [[msg|r] st1] eqn:H1;
    destruct (firstRequest_trace _ _ _ H1) as (a1 & Htr1 & Hq1);
    destruct (fresh_quiet Hq1 []) as [Hf1 Ha1].
  - inversion H; subst. eauto.
  - destruct (loop (S MAX_AGENT_ITERATIONS) chatId o 0 [] messages r st1)
      as [[msg|res] st2] eqn:H2;
      destruct (loop_trace _ _ _ _ _ _ _ _ H2) as (a2 & Htr2 & Hf2);
      inversion H; subst;
      exists (a1 ++ a2)%list; rewrite Htr2, Htr1, app_assoc;
      (split; [reflexivity|]); apply fresh_app; rewrite Ha1; tauto.
Qed.

(** A tool call with a fingerprint that succeeded earlier in a fresh stretch
    of trace does not exist. *)
Lemma fresh_no_repeat l1 n1 i1 r1 l2 n2 i2 o2 l3 f :
  forall E,
  fresh E (l1 ++ Invoked n1 i1 (inr r1) :: l2 ++ Invoked n2 i2 o2 :: l3) ->
  Dispatcher.success r1 = true ->
  fingerprintBrowserAction n1 i1 = Some f ->
  fingerprintBrowserAction n2 i2 = Some f ->
  False.
Proof.
  intros E H Hs Hf1 Hf2.
  apply fresh_app in H. destruct H as [_ H]. simpl in H.
  destruct H as [_ H]. apply fresh_app in H. destruct H as [_ H].
  simpl in H. destruct H as [H _]. rewrite Hf2 in H.
  assert (Hin : has f (after (remember (after E l1) (Invoked n1 i1 (inr r1))) l2)
                = true).
  { apply has_after_mono. unfold remember. simpl. rewrite Hs, Hf1.
    apply has_add_same. }
  congruence.
Qed.

(** *** The shape of the history a run returns *)

Lemma step_pushes chatId sc t b st t' st' :
  step chatId sc t b st = (inr t', st') ->
  exists r, toolResultsBlocks t' = (toolResultsBlocks t ++ [answer b r])%list.
Proof.
  intros H.
  destruct (sc && (1 <=? executedThisResponse t)) eqn:Hsc.
  - apply andb_true_iff in Hsc. destruct Hsc as [-> Hex].
    apply Nat.leb_le in Hex. rewrite step_deferred in H by assumption.
    inversion H; subst. eexists. reflexivity.
  - destruct (passedOver (executedBrowserActions t) b) eqn:Hp.
    + rewrite step_passed_over in H by assumption.
      inversion H; subst. eexists. reflexivity.
    + rewrite step_runs in H by assumption. cbv zeta in H.
      destruct (runTool (block_name b) (block_input b) (world st))
        as [[msg|r] w]; inversion H; subst. eexists. reflexivity.
Qed.

Lemma forEach_ids chatId sc bs :
  forall t st t' st',
  forEach chatId sc bs t st = (inr t', st') ->
  map tool_use_id (toolResultsBlocks t')
  = (map tool_use_id (toolResultsBlocks t) ++ map block_id bs)%list.
Proof.
  induction bs as [|b bs IH]; intros t st t' st' H; simpl in H.
  - inversion H; subst. now rewrite app_nil_r.
  - unfold bind in H.
    destruct (step chatId sc t b st) as [[msg|t1] st1] eqn:Hstep;
      [discriminate|].
    destruct (step_pushes _ _ _ _ _ Hstep) as (r & Hr).
    rewrite (IH _ _ _ _ H), Hr, map_app, <- app_assoc. reflexivity.
Qed.

(** What a loop that returns normally leaves behind: some rounds, each an
    assistant message answered in full by the next message, and then either
    the last response of the service or nothing, when a successful browse
    ended the run. *)
Lemma loop_shape fuel chatId o :
  forall iterations executed convo r st res st',
  loop fuel chatId o iterations executed convo r st = (inr res, st') ->
  exists n l,
    Rounds n l
    /\ ((updatedMessages res = (convo ++ l ++ [assistant (content r)])%list
         /\ n = 0 /\ replyText res = finalText (content r))
        \/ (exists final,
              updatedMessages res = (convo ++ l ++ [assistant final])%list
              /\ 1 <= n /\ replyText res = finalText final)
        \/ (updatedMessages res = (convo ++ l)%list
            /\ 1 <= n /\ replyText res = "Browser task completed.")).
Proof.
  induction fuel as [|fuel IH]; intros i E convo r st res st' H.
  - inversion H; subst. exists 0, []. split; [constructor|]. left. auto.
  - rewrite loop_S in H.
    assert (Hret : ret (finish convo r) st = (inr res, st') ->
      exists n l,
        Rounds n l
        /\ ((updatedMessages res = (convo ++ l ++ [assistant (content r)])%list
             /\ n = 0 /\ replyText res = finalText (content r))
            \/ (exists final,
                  updatedMessages res = (convo ++ l ++ [assistant final])%list
                  /\ 1 <= n /\ replyText res = finalText final)
            \/ (updatedMessages res = (convo ++ l)%list
                /\ 1 <= n /\ replyText res = "Browser task completed."))).
    { intros Hx. inversion Hx; subst. exists 0, [].
      split; [constructor|]. left. auto. }
    destruct (negb (String.eqb (stop_reason r) "tool_use")); [auto|].
    destruct (MAX_AGENT_ITERATIONS <? i + 1); [auto|].
    destruct (negb (allowTools o)); [auto|].
    destruct (filter is_tool_use (content r)) as [|b bs] eqn:Hbs; [auto|].
    clear Hret. unfold bind in H.
    destruct (forEach chatId (stepConfirm o) (b :: bs) (newTurn E) st)
      as [[msg|t] st1] eqn:Hfor; [discriminate|].
    pose proof (forEach_ids _ _ _ _ _ Hfor) as Hids. simpl in Hids.
    assert (Hround : forall n l, Rounds n l ->
      Rounds (S n)
        (assistant (content r) :: toolResults (toolResultsBlocks t) :: l)).
    { intros n l Hl. constructor; [| |assumption].
      - unfold requested. rewrite Hbs. discriminate.
      - unfold requested. rewrite Hbs. exact Hids. }
    destruct (stopAfterBrowseSuccess t).
    + inversion H; subst. exists 1, [assistant (content r);
                                    toolResults (toolResultsBlocks t)].
      split; [apply Hround; constructor|]. right. right. simpl. auto.
    + match type of H with
      | match nextRequest ?o ?c ?s with _ => _ end = _ =>
          destruct (nextRequest o c s) as [[msg|r'] st2] eqn:Hnext
      end; [discriminate|].
      destruct (IH _ _ _ _ _ _ _ H) as (n & l & Hl & Hcases).
      exists (S n), (assistant (content r)
                     :: toolResults (toolResultsBlocks t) :: l).
      split; [now apply Hround|].
      right. destruct Hcases as [(Hu & _ & Hr)|[(final & Hu & _ & Hr)|(Hu & _ & Hr)]].
      * left. exists (content r'). rewrite Hu, <- app_assoc. simpl.
        repeat split; [lia|assumption].
      * left. exists final. rewrite Hu, <- app_assoc. simpl.
        repeat split; [lia|assumption].
      * right. rewrite Hu, <- app_assoc. simpl.
        repeat split; [lia|assumption].
Qed.

(** The reply of a run is never empty. *)
Lemma finalText_truthy bs : truthy (finalText bs) = true.
Proof.
  unfold finalText.
  match goal with |- truthy (if truthy ?x then _ else _) = true =>
    destruct (truthy x) eqn:Hx end; [assumption|reflexivity].
Qed.


Lemma requests_app tr1 tr2 :
  requests (tr1 ++ tr2) = (requests tr1 ++ requests tr2)%list.
Proof. apply filter_app. Qed.

Lemma requests_none added :
  Forall (fun e => is_asked e = false) added -> requests added = [].
Proof.
  induction 1 as [|e l He _ IH]; [reflexivity|].
  unfold requests in *. simpl. now rewrite He.
Qed.

(** *** A service that always asks for a tool *)

Section AlwaysTool.

Hypothesis service_wants_tool :
  forall th msgs w, exists resp w',
    create th msgs w = (inr resp, w')
    /\ stop_reason resp = "tool_use"
    /\ requested (content resp) <> [].

Hypothesis tools_return :
  forall name input w, exists r w', runTool name input w = (inr r, w').

Hypothesis no_successful_browse_stop :
  STOP_AFTER_SUCCESSFUL_BROWSE = true ->
  forall input w r w',
    runTool "browse_website" input w = (inr r, w') ->
    Dispatcher.success r = false.








End AlwaysTool.

(** Whatever the service and the tools do, the run returns, and its reply is
    not empty. *)
Lemma run_returns messages chatId o st :
  exists res st',
    processWithClaude messages chatId o st = (inr res, st')
    /\ truthy (replyText res) = true.
Proof.
  unfold Orchestrator.processWithClaude, try.
  destruct (attempt messages chatId o st) as [[msg|res] st1] eqn:H.
  - do 2 eexists. split; reflexivity.
  - do 2 eexists. split; [reflexivity|].
    unfold Orchestrator.attempt, bind in H.
    destruct (firstRequest o messages st) as [[msg|r] st0]; [discriminate|].
    destruct (loop_shape _ _ _ _ _ _ _ _ H) as (n & l & _ & Hc).
    destruct Hc as [(_ & _ & Hr)|[(final & _ & _ & Hr)|(_ & _ & Hr)]];
      rewrite Hr; try apply finalText_truthy. reflexivity.
Qed.

(** The recursion of the loop never runs out: one unit of fuel for each
    iteration that the cap still allows, and one more, is enough, and more
    fuel changes nothing. *)
Lemma loop_fuel chatId o fuel :
  forall iterations executed convo r st,
  MAX_AGENT_ITERATIONS < fuel + iterations ->
  loop fuel chatId o iterations executed convo r st
  = loop (S fuel) chatId o iterations executed convo r st.
Proof.
  induction fuel as [|fuel IH]; intros i E convo r st Hlt.
  - rewrite loop_S. simpl.
    destruct (negb (String.eqb (stop_reason r) "tool_use")); [reflexivity|].
    replace (MAX_AGENT_ITERATIONS <? i + 1) with true
      by (symmetry; apply Nat.ltb_lt; lia).
    reflexivity.
  - rewrite (loop_S (S fuel)), (loop_S fuel).
    destruct (negb (String.eqb (stop_reason r) "tool_use")); [reflexivity|].
    destruct (MAX_AGENT_ITERATIONS <? i + 1); [reflexivity|].
    destruct (negb (allowTools o)); [reflexivity|].
    destruct (filter is_tool_use (content r)) as [|b bs]; [reflexivity|].
    unfold bind.
    destruct (forEach chatId (stepConfirm o) (b :: bs) (newTurn E) st)
      as [[msg|t] st1]; [reflexivity|].
    destruct (stopAfterBrowseSuccess t); [reflexivity|].
    match goal with
    | |- context [nextRequest ?o ?c ?s] =>
        destruct (nextRequest o c s) as [[msg|r'] st2]
    end; [reflexivity|].
    apply IH. lia.
Qed.

Lemma sameIds_refl xs : sameIds xs xs = true.
Proof.
  induction xs as [|x xs IH]; simpl; [reflexivity|].
  now rewrite String.eqb_refl.
Qed.

(** Rounds pass the protocol check. *)
Lemma rounds_answered n l : Rounds n l -> answered l = true.
Proof.
  induction 1 as [|n bs rs l Hne Hids _ IH]; [reflexivity|].
  cbn [answered assistant toolResults msg_role msg_body].
  rewrite IH. destruct (requested bs) as [|i ids] eqn:Hreq; [contradiction|].
  rewrite Hids. now rewrite sameIds_refl.
Qed.

(** The history a run returns: the history it was given when an error was
    caught; otherwise that history, then rounds in which every request is
    answered, then the last response, which nothing answers even when it
    holds tool requests, or nothing when a successful browse ended the run. *)
Lemma run_shape messages chatId o st res st' :
  processWithClaude messages chatId o st = (inr res, st') ->
  (exists msg,
     replyText res = "Error: " ++ msg /\ updatedMessages res = messages)
  \/ exists n l,
       Rounds n l /\ answered l = true
       /\ ((exists final,
              updatedMessages res = (messages ++ l ++ [assistant final])%list)
           \/ updatedMessages res = (messages ++ l)%list).
Proof.
  unfold Orchestrator.processWithClaude, try. intros H.
  destruct (attempt messages chatId o st) as [[msg|res'] st1] eqn:Ha.
  - inversion H; subst. left. exists msg. auto.
  - inversion H; subst. right.
    unfold Orchestrator.attempt, bind in Ha.
    destruct (firstRequest o messages st) as [[msg|r] st0]; [discriminate|].
    destruct (loop_shape _ _ _ _ _ _ _ _ Ha) as (n & l & Hl & Hc).
    exists n, l. split; [assumption|]. split; [now apply rounds_answered with n|].
    destruct Hc as [(Hu & _)|[(final & Hu & _)|(Hu & _)]]; eauto.
Qed.

(** *** The answers to repeated requests *)

Lemma has_noted_mono f E x : has f E = true -> has f (noted E x) = true.
Proof.
  intros H. unfold noted.
  destruct (fingerprintBrowserAction (block_name (fst x))
              (block_input (fst x))); [|assumption].
  destruct (success (snd x) && negb (deduped (snd x))); [|assumption].
  now apply has_add_mono.
Qed.

Lemma has_noted_all_mono f xs :
  forall E, has f E = true -> has f (fold_left noted xs E) = true.
Proof.
  induction xs as [|x xs IH]; intros E H; simpl; [assumption|].
  apply IH. now apply has_noted_mono.
Qed.

Lemma settled_app sc xs ys :
  forall E,
  settled sc E (xs ++ ys)
  <-> settled sc E xs /\ settled sc (fold_left noted xs E) ys.
Proof.
  induction xs as [|x xs IH]; intros E; simpl; [tauto|].
  rewrite IH. tauto.
Qed.

(** A request that was executed with success leaves its fingerprint, and a
    later request with this fingerprint is answered by the duplicate notice
    or, in step mode, by the deferral. *)
Lemma settled_repeat sc E before b0 r0 between b r rest f :
  settled sc E (before ++ (b0, r0) :: between ++ (b, r) :: rest) ->
  fingerprintBrowserAction (block_name b0) (block_input b0) = Some f ->
  fingerprintBrowserAction (block_name b) (block_input b) = Some f ->
  success r0 = true ->
  deduped r0 = false ->
  r = dedupedResult f \/ (sc = true /\ r = deferredResult).
Proof.
  intros H Hf0 Hf Hs Hd.
  apply settled_app in H. destruct H as [_ H].
  change ((b0, r0) :: between ++ (b, r) :: rest)%list
    with ([(b0, r0)] ++ between ++ (b, r) :: rest)%list in H.
  apply settled_app in H. destruct H as [_ H].
  apply settled_app in H. destruct H as [_ H].
  simpl in H. destruct H as [H _]. apply (H f Hf).
  apply has_noted_all_mono. unfold noted. simpl.
  rewrite Hf0, Hs, Hd. apply has_add_same.
Qed.

Lemma accounted_left a b x : accounted a x -> accounted (a ++ b) x.
Proof.
  intros H Hs Hd. destruct (H Hs Hd) as (r & Hr & Hin).
  exists r. split; [assumption|]. apply in_or_app. now left.
Qed.

Lemma accounted_right a b x : accounted b x -> accounted (a ++ b) x.
Proof.
  intros H Hs Hd. destruct (H Hs Hd) as (r & Hr & Hin).
  exists r. split; [assumption|]. apply in_or_app. now right.
Qed.

Lemma step_settles chatId sc t b st t' st' :
  step chatId sc t b st = (inr t', st') ->
  exists r added,
    trace st' = (trace st ++ added)%list
    /\ toolResultsBlocks t' = (toolResultsBlocks t ++ [answer b r])%list
    /\ settled sc (executedBrowserActions t) [(b, r)]
    /\ executedBrowserActions t' = noted (executedBrowserActions t) (b, r)
    /\ accounted added (b, r).
Proof.
  intros H.
  destruct (sc && (1 <=? executedThisResponse t)) eqn:Hsc.
  - apply andb_true_iff in Hsc. destruct Hsc as [-> Hex].
    apply Nat.leb_le in Hex. rewrite step_deferred in H by assumption.
    inversion H; subst. exists deferredResult, [].
    split; [now rewrite app_nil_r|]. split; [reflexivity|]. split; [|split].
    + simpl. split; [auto|exact I].
    + unfold noted. simpl.
      destruct (fingerprintBrowserAction (block_name b) (block_input b));
        reflexivity.
    + intros Hs. discriminate.
  - destruct (passedOver (executedBrowserActions t) b) eqn:Hp.
    + rewrite step_passed_over in H by assumption.
      inversion H; subst. exists (passedOverResult b), [].
      split; [now rewrite app_nil_r|]. split; [reflexivity|].
      unfold passedOverResult, noted, accounted. simpl.
      destruct (fingerprintBrowserAction (block_name b) (block_input b))
        as [f|] eqn:Hf.
      * rewrite (fingerprint_known _ _ Hf). simpl.
        split; [|split; [reflexivity|discriminate]]. split; [|exact I].
        intros g Hg _. inversion Hg; subst. now left.
      * split; [|split; [reflexivity|discriminate]].
        split; [discriminate|exact I].
    + rewrite step_runs in H by assumption. cbv zeta in H.
      destruct (runTool (block_name b) (block_input b) (world st))
        as [[msg|r] w]; inversion H; subst; clear H.
      exists (ofEnvelope r),
        [Said chatId (announcement (block_name b) (block_input b));
         Invoked (block_name b) (block_input b) (inr r)].
      split; [reflexivity|]. split; [reflexivity|].
      unfold passedOver, seen in Hp. apply orb_false_iff in Hp.
      destruct Hp as [Hseen _].
      assert (Hin : accounted
                [Said chatId (announcement (block_name b) (block_input b));
                 Invoked (block_name b) (block_input b) (inr r)]
                (b, ofEnvelope r)).
      { intros _ _. exists r. split; [reflexivity|]. simpl. auto. }
      unfold noted. simpl.
      destruct (fingerprintBrowserAction (block_name b) (block_input b))
        as [f|] eqn:Hf.
      * rewrite (fingerprint_remembers _ _ Hf). simpl.
        rewrite andb_true_r. split; [|split; [reflexivity|assumption]].
        split; [|exact I].
        intros g Hg Hhas. inversion Hg; subst. congruence.
      * split; [|split; [reflexivity|assumption]].
        split; [discriminate|exact I].
Qed.

Lemma forEach_settles chatId sc bs :
  forall t st t' st',
  forEach chatId sc bs t st = (inr t', st') ->
  exists rs added,
    trace st' = (trace st ++ added)%list
    /\ toolResultsBlocks t' = (toolResultsBlocks t ++ rs)%list
    /\ settled sc (executedBrowserActions t) (combine bs (map result rs))
    /\ executedBrowserActions t'
       = fold_left noted (combine bs (map result rs))
           (executedBrowserActions t)
    /\ Forall (accounted added) (combine bs (map result rs)).
Proof.
  induction bs as [|b bs IH]; intros t st t' st' H; simpl in H.
  - inversion H; subst. exists [], []. rewrite !app_nil_r. simpl. auto.
  - unfold bind in H.
    destruct (step chatId sc t b st) as [[msg|t1] st1] eqn:Hstep;
      [discriminate|].
    destruct (step_settles _ _ _ _ _ Hstep)
      as (r & a1 & Htr1 & Hr & Hs & He & Ha).
    destruct (IH _ _ _ _ H) as (rs & a2 & Htr2 & Hrs & Hss & Hes & Has).
    exists (answer b r :: rs), (a1 ++ a2)%list.
    rewrite Htr2, Htr1, Hrs, Hr, <- !app_assoc.
    split; [reflexivity|]. split; [reflexivity|].
    simpl in Hs |- *. rewrite <- He.
    split; [split; [apply Hs|assumption]|]. split; [assumption|].
    constructor; [now apply accounted_left|].
    eapply Forall_impl; [|exact Has]. intros x. apply accounted_right.
Qed.

Lemma exchanges_round bs rs l :
  exchanges (assistant bs :: toolResults rs :: l)
  = (combine (filter is_tool_use bs) (map result rs) ++ exchanges l)%list.
Proof. reflexivity. Qed.

(** Along the loop every repeated request is answered as a duplicate or
    deferred, and every answer that reports a success of its own comes from
    a call of the loop. *)
Lemma loop_settles fuel chatId o :
  forall iterations executed convo r st res st',
  loop fuel chatId o iterations executed convo r st = (inr res, st') ->
  exists l added,
    trace st' = (trace st ++ added)%list
    /\ updatedMessages res = (convo ++ l)%list
    /\ settled (stepConfirm o) executed (exchanges l)
    /\ Forall (accounted added) (exchanges l).
Proof.
  induction fuel as [|fuel IH]; intros i E convo r st res st' H.
  - inversion H; subst. exists [assistant (content r)], [].
    rewrite app_nil_r. simpl. auto.
  - rewrite loop_S in H.
    assert (Hret : ret (finish convo r) st = (inr res, st') ->
      exists l added,
        trace st' = (trace st ++ added)%list
        /\ updatedMessages res = (convo ++ l)%list
        /\ settled (stepConfirm o) E (exchanges l)
        /\ Forall (accounted added) (exchanges l)).
    { intros Hx. inversion Hx; subst. exists [assistant (content r)], [].
      rewrite app_nil_r. simpl. auto. }
    destruct (negb (String.eqb (stop_reason r) "tool_use")); [auto|].
    destruct (MAX_AGENT_ITERATIONS <? i + 1); [auto|].
    destruct (negb (allowTools o)); [auto|].
    destruct (filter is_tool_use (content r)) as [|b bs] eqn:Hbs; [auto|].
    clear Hret. unfold bind in H.
    destruct (forEach chatId (stepConfirm o) (b :: bs) (newTurn E) st)
      as [[msg|t] st1] eqn:Hfor; [discriminate|].
    destruct (forEach_settles _ _ _ _ _ Hfor)
      as (rs & a1 & Htr1 & Hrs & Hs & He & Ha).
    simpl toolResultsBlocks in Hrs. simpl executedBrowserActions in Hs, He.
    simpl app in Hrs. subst rs.
    destruct (stopAfterBrowseSuccess t).
    + inversion H; subst.
      exists [assistant (content r); toolResults (toolResultsBlocks t)], a1.
      split; [assumption|]. split; [reflexivity|].
      rewrite exchanges_round, Hbs. simpl exchanges.
      rewrite app_nil_r. split; assumption.
    + match type of H with
      | match nextRequest ?o ?c ?s with _ => _ end = _ =>
          destruct (nextRequest o c s) as [[msg|r'] st2] eqn:Hnext
      end; [discriminate|].
      destruct (nextRequest_trace _ _ _ Hnext) as (a2 & Htr2 & _).
      destruct (IH _ _ _ _ _ _ _ H) as (l & a3 & Htr3 & Hu & Hl & Hal).
      exists (assistant (content r) :: toolResults (toolResultsBlocks t) :: l),
        (a1 ++ a2 ++ a3)%list.
      split; [rewrite Htr3, Htr2, Htr1, <- !app_assoc; reflexivity|].
      split; [rewrite Hu, <- app_assoc; reflexivity|].
      rewrite exchanges_round, Hbs. split.
      * apply settled_app. rewrite <- He. split; assumption.
      * apply Forall_app. split.
        -- eapply Forall_impl; [|exact Ha]. intros x. apply accounted_left.
        -- eapply Forall_impl; [|exact Hal]. intros x Hx.
           apply accounted_right. now apply accounted_right.
Qed.

Lemma run_settles messages chatId o st res st' :
  processWithClaude messages chatId o st = (inr res, st') ->
  exists l added,
    trace st' = (trace st ++ added)%list
    /\ updatedMessages res = (messages ++ l)%list
    /\ settled (stepConfirm o) [] (exchanges l)
    /\ Forall (accounted added) (exchanges l).
Proof.
  unfold Orchestrator.processWithClaude, try. intros H.
  destruct (attempt messages chatId o st) as [[msg|res'] st1] eqn:Ha.
  - inversion H; subst.
    unfold Orchestrator.attempt, bind in Ha.
    assert (Htr : exists added, trace st' = (trace st ++ added)%list).
    { destruct (firstRequest o messages st) as [[m|r] st0] eqn:H1;
        destruct (firstRequest_trace _ _ _ H1) as (a1 & Htr1 & _).
      - inversion Ha; subst. eauto.
      - destruct (loop_trace _ _ _ _ _ _ _ _ Ha) as (a2 & Htr2 & _).
        exists (a1 ++ a2)%list. now rewrite Htr2, Htr1, app_assoc. }
    destruct Htr as (added & Htr). exists [], added. rewrite app_nil_r.
    simpl. auto.
  - inversion H; subst.
    unfold Orchestrator.attempt, bind in Ha.
    destruct (firstRequest o messages st) as [[msg|r] st0] eqn:H1;
      [discriminate|].
    destruct (firstRequest_trace _ _ _ H1) as (a1 & Htr1 & _).
    destruct (loop_settles _ _ _ _ _ _ _ _ Ha)
      as (l & a2 & Htr2 & Hu & Hl & Hal).
    exists l, (a1 ++ a2)%list.
    split; [now rewrite Htr2, Htr1, app_assoc|]. split; [assumption|].
    split; [assumption|].
    eapply Forall_impl; [|exact Hal]. intros x. apply accounted_right.
Qed.

(** C7, as amended: in the trace of a run no tool is called for a
    fingerprint for which a call has succeeded earlier in the run.  What the
    run appends to the history is a number of rounds, in each of which every
    request has its result block, followed by at most one assistant message
    that nothing answers (the last response of the service, also when the
    run stops at its cap with requests in it); when an error was caught
    nothing is appended.  Among the requests that are answered there, one
    whose result reports success and is not marked as a duplicate was
    executed: its result is the result of a successful call of its tool in
    the trace of the run.  Every later request with the same fingerprint is
    answered by the duplicate notice, which is marked [deduped] and reports
    success, or, in step mode only, by the deferral, which is not marked
    [deduped] and reports no success. *)
Theorem no_second_dispatch messages chatId o st out st' :
  processWithClaude messages chatId o st = (out, st') ->
  (exists added, trace st' = (trace st ++ added)%list /\ fresh [] added)
  /\ (exists res n l,
        out = inr res
        /\ Rounds n l
        /\ (updatedMessages res = (messages ++ l)%list
            \/ exists final,
                 updatedMessages res
                 = (messages ++ l ++ [assistant final])%list))
  /\ (forall res appended before b0 r0 between b r rest f,
        out = inr res ->
        updatedMessages res = (messages ++ appended)%list ->
        exchanges appended
        = (before ++ (b0, r0) :: between ++ (b, r) :: rest)%list ->
        fingerprintBrowserAction (block_name b0) (block_input b0) = Some f ->
        fingerprintBrowserAction (block_name b) (block_input b) = Some f ->
        success r0 = true ->
        deduped r0 = false ->
        (exists added env,
           trace st' = (trace st ++ added)%list
           /\ In (Invoked (block_name b0) (block_input b0) (inr env)) added
           /\ Dispatcher.success env = true
           /\ r0 = ofEnvelope env)
        /\ (r = dedupedResult f
            \/ (stepConfirm o = true /\ r = deferredResult)))
  /\ (forall f,
        success (dedupedResult f) = true /\ deduped (dedupedResult f) = true)
  /\ success deferredResult = false
  /\ deduped deferredResult = false.
Proof.
  intros Hrun. split; [now apply run_trace in Hrun|].
  split; [|split; [|repeat split]].
  - destruct (run_returns messages chatId o st) as (res & st1 & Hres & _).
    rewrite Hres in Hrun. inversion Hrun; subst.
    destruct (run_shape _ _ _ _ Hres) as [(msg & _ & Hu)|(n & l & Hl & _ & Hu)].
    + exists res, 0, []. split; [reflexivity|]. split; [constructor|].
      left. now rewrite app_nil_r.
    + exists res, n, l. split; [reflexivity|]. split; [assumption|].
      destruct Hu as [(final & Hu)|Hu]; eauto.
  - intros res appended before b0 r0 between b r rest f -> Hu Hx Hf0 Hf Hs Hd.
    destruct (run_settles _ _ _ _ Hrun) as (l & added & Htr & Hl & Hsettled & Ha).
    rewrite Hl in Hu. apply app_inv_head in Hu. subst l.
    rewrite Hx in Hsettled, Ha. split.
    + apply Forall_app in Ha. destruct Ha as [_ Ha].
      inversion Ha as [|x xs H0 _]; subst.
      destruct (H0 Hs Hd) as (env & Hr & Hin). simpl in Hr, Hin.
      exists added, env. subst r0. auto.
    + eapply settled_repeat; eassumption.
Qed.

(** *** Failure of a run *)

Lemma trimHistory_idem ms : trimHistory (trimHistory ms) = trimHistory ms.
Proof.
  unfold trimHistory.
  destruct (length ms <=? MAX_HISTORY_MESSAGES) eqn:H.
  - now rewrite H.
  - apply Nat.leb_gt in H.
    replace (length (skipn (length ms - MAX_HISTORY_MESSAGES) ms)
             <=? MAX_HISTORY_MESSAGES) with true; [reflexivity|].
    symmetry. apply Nat.leb_le. rewrite length_skipn. lia.
Qed.

(** A request to the service that throws, with thinking off, ends the
    [try] block with that message. *)
Lemma first_request_failure messages chatId o st msg w :
  deepThinking o = false ->
  create None messages (world st) = (inl msg, w) ->
  attempt messages chatId o st
  = (inl msg,
     {| world := w; trace := (trace st ++ [Asked None messages])%list |}).
Proof.
  intros Ho Hc.
  unfold Orchestrator.attempt, bind, Orchestrator.firstRequest.
  rewrite Ho. unfold Orchestrator.ask. rewrite Hc. reflexivity.
Qed.

Section Store.

Variable DEEP_THINKING : bool.
Variable THINKING_BUDGET_TOKENS : N.
Variable STEP_CONFIRM : bool.

Local Abbreviation handleUserText :=
  (handleUserText create runTool MAX_AGENT_ITERATIONS
     STOP_AFTER_SUCCESSFUL_BROWSE DEEP_THINKING THINKING_BUDGET_TOKENS
     STEP_CONFIRM).

Local Abbreviation startOptions :=
  {| allowTools := true; deepThinking := DEEP_THINKING;
     thinkingBudgetTokens := THINKING_BUDGET_TOKENS;
     stepConfirm := STEP_CONFIRM |}.

(** C4, as amended: when the [try] block of the run ends with a thrown
    message (a request to the reasoning service that throws, after the one
    further attempt the code makes where it makes one), the reply is the
    text [Error: ] followed by that message, and the history stored for the
    conversation is the history stored before, extended by the new user
    message and trimmed; the assistant and tool-result messages of the run
    are not stored, and no other conversation changes. *)
Theorem failed_run_stores_request chatHistory chatId text st msg st1 :
  let prior := match chatHistory chatId with Some ms => ms | None => [] end in
  let next :=
    trimHistory (prior ++ [{| msg_role := User; msg_body := Plain text |}]) in
  attempt next chatId startOptions st = (inl msg, st1) ->
  processWithClaude next chatId startOptions st
  = (inr {| replyText := "Error: " ++ msg; updatedMessages := next |}, st1)
  /\ handleUserText chatHistory chatId text st
     = (inr (setHistory chatHistory chatId next),
        log (Said chatId ("Error: " ++ msg)) st1).
Proof.
  intros prior next H.
  assert (Hp : processWithClaude next chatId startOptions st
    = (inr {| replyText := "Error: " ++ msg; updatedMessages := next |}, st1)).
  { unfold Orchestrator.processWithClaude, try. now rewrite H. }
  split; [exact Hp|].
  unfold Orchestrator.handleUserText, bind.
  fold prior. fold next. rewrite Hp. simpl.
  unfold next at 1. rewrite trimHistory_idem. reflexivity.
Qed.

End Store.

End Facts.

End OrchestratorFacts.

(* ===================================================================== *)
(** ** Runs of the orchestrator *)
(* ===================================================================== *)

Module OrchestratorRuns.

Import Js Regex Orchestrator Props Scenarios OrchestratorFacts.

(** C1: with a cap of one iteration and a service that asks for a tool
    twice, the history the run returns ends with the second assistant
    message, whose tool request no message answers; the history it was given
    passes the protocol check and the one it returns does not.  The claim
    asks for a user message with the matching result after every assistant
    message with a tool request. *)
Theorem cap_leaves_request_unanswered :
  let run :=
    processWithClaude
      (scripted [wantsTool [screenshot "a"]; wantsTool [screenshot "b"]])
      succeeding 1 false hello 7 stepByStep start in
  exists res,
    fst run = inr res
    /\ updatedMessages res
       = (hello
          ++ [assistant [screenshot "a"];
              toolResults [answer (screenshot "a") (ofEnvelope done)];
              assistant [screenshot "b"]])%list
    /\ answered hello = true
    /\ answered (updatedMessages res) = false.
Proof.
  eexists. split; [vm_compute; reflexivity|].
  split; [reflexivity|]. split; reflexivity.
Qed.

(** C2 fails as stated: in step mode, with the configuration defaults, the
    first request of the second response repeats a Chrome launch that has
    succeeded in the first round and is not executed, and the request after
    it is executed, not deferred. *)
Lemma step_mode_runs_a_later_request :
  let run :=
    processWithClaude
      (scripted [wantsTool [launch "a"];
                 wantsTool [launch "b"; screenshot "c"];
                 says "finished"])
      succeeding 25 true hello 7 stepByStep start in
  exists res,
    fst run = inr res
    /\ nth 4 (updatedMessages res) (assistant [])
       = toolResults
           [answer (launch "b")
              (dedupedResult "exec:start chrome https://example.com");
            answer (screenshot "c") (ofEnvelope done)]
    /\ invocations (trace (snd run))
       = [Invoked "execute_command" (block_input (launch "a")) (inr done);
          Invoked "take_screenshot" [] (inr done)].
Proof.
  eexists. split; [vm_compute; reflexivity|]. split; reflexivity.
Qed.

Lemma step_mode_runs_one_request_witness :
  let run :=
    forEach succeeding false 7 true [screenshot "a"; screenshot "b"]
      (newTurn []) start in
  exists t,
    run = (inr t, snd run)
    /\ invocations (trace (snd run))
       = [Invoked "take_screenshot" [] (inr done)]
    /\ toolResultsBlocks t
       = [answer (screenshot "a") (ofEnvelope done);
          answer (screenshot "b") deferredResult].
Proof.
  destruct (@step_mode_runs_one_request nat succeeding false 7 [] []
              (screenshot "a") [screenshot "b"] start eq_refl eq_refl)
    as (out & st' & Hout & _ & Hinv & Hcase & _).
  injection Hout as <- _.
  destruct Hcase as (t & Hrun & Hres & _). simpl app in Hrun.
  exists t. cbv zeta. rewrite Hrun. split; [reflexivity|].
  split; [exact Hinv|exact Hres].
Defined.

(** The same response when the handler of the first request throws: the run
    ends with the error reply and the history it was given, and no result
    block exists for either request. *)
Lemma step_mode_handler_throws :
  let run :=
    processWithClaude
      (scripted [wantsTool [screenshot "a"; screenshot "b"];
                 says "finished"])
      RunScenarios.failing 25 false hello 7 stepByStep start in
  fst (forEach RunScenarios.failing false 7 true
         [screenshot "a"; screenshot "b"] (newTurn []) start)
  = inl "spawn ENOENT"
  /\ fst run
     = inr {| replyText := "Error: spawn ENOENT"; updatedMessages := hello |}
  /\ invocations (trace (snd run))
     = [Invoked "take_screenshot" [] (inl "spawn ENOENT")].
Proof. repeat split. Qed.

(** C3 fails as stated: the second of two requests in one response is
    deferred by step mode, and its result reads [success: false], with the
    explanation in [error] and no [note]. *)
Lemma deferred_result_reports_failure :
  let run :=
    processWithClaude
      (scripted [wantsTool [screenshot "a"; screenshot "b"]; says "finished"])
      succeeding 25 false hello 7 stepByStep start in
  exists res r,
    fst run = inr res
    /\ nth 2 (updatedMessages res) (assistant [])
       = toolResults [answer (screenshot "a") (ofEnvelope done);
                      {| tool_use_id := "b"; result := r |}]
    /\ deferred r = true
    /\ success r = false
    /\ note r = None.
Proof.
  do 2 eexists. split; [vm_compute; reflexivity|].
  split; [reflexivity|]. repeat split.
Qed.

Lemma skipped_requests_results_witness :
  step succeeding false 7 true afterOneTool (screenshot "b") start
  = (inr (extend afterOneTool [answer (screenshot "b") deferredResult]),
     start)
  /\ success deferredResult = false.
Proof.
  destruct (@skipped_requests_results nat succeeding false 7 true
              afterOneTool (screenshot "b") start ""
              (or_introl (conj eq_refl (le_n 1))))
    as (Hstep & Hsuccess & _).
  split; [exact Hstep|exact Hsuccess].
Defined.

(** C4 fails as stated: nothing was stored for the conversation before the
    request, the service throws, and afterwards the user message of the
    failed request is stored. *)
Lemma failed_run_changes_history :
  let run :=
    handleUserText (constant (inl "socket hang up")) succeeding 25 true
      false 8000%N true emptyHistory 7 "hello" start in
  exists h,
    fst run = inr h
    /\ emptyHistory 7 = None
    /\ h 7 = Some hello
    /\ trace (snd run)
       = [Asked None hello; Said 7 "Error: socket hang up"].
Proof.
  eexists. split; [vm_compute; reflexivity|]. repeat split.
Qed.

Lemma failed_run_stores_request_witness :
  handleUserText (constant (inl "socket hang up")) succeeding 25 true
    false 8000%N true emptyHistory 7 "hello" start
  = (inr (setHistory emptyHistory 7 hello),
     log (Said 7 "Error: socket hang up")
       {| world := 1; trace := [Asked None hello] |}).
Proof.
  exact (proj2 (@failed_run_stores_request nat
                  (constant (inl "socket hang up")) succeeding 25 true
                  false 8000%N true emptyHistory 7 "hello" start
                  "socket hang up"
                  {| world := 1; trace := [Asked None hello] |} eq_refl)).
Defined.

(** C7 fails as stated: in step mode the second of two identical browse
    requests in one response is answered by the deferral, which is not
    marked [deduped] and reports no success. *)
Lemma duplicate_in_step_mode_is_deferred :
  let run :=
    processWithClaude
      (scripted [wantsTool [browse "a"; browse "b"]; says "finished"])
      succeeding 25 false hello 7 stepByStep start in
  exists res r,
    fst run = inr res
    /\ fingerprintBrowserAction "browse_website" (block_input (browse "a"))
       = fingerprintBrowserAction "browse_website" (block_input (browse "b"))
    /\ nth 2 (updatedMessages res) (assistant [])
       = toolResults [answer (browse "a") (ofEnvelope done);
                      {| tool_use_id := "b"; result := r |}]
    /\ deduped r = false
    /\ success r = false
    /\ deferred r = true.
Proof.
  do 2 eexists. split; [vm_compute; reflexivity|].
  split; [reflexivity|]. split; [reflexivity|]. repeat split.
Qed.

Lemma no_second_dispatch_witness :
  let run :=
    processWithClaude
      (scripted [wantsTool [browse "a"]; wantsTool [browse "b"];
                 says "finished"])
      succeeding 25 false hello 7 stepByStep start in
  let res := RunScenarios.resultOf run in
  let notice := dedupedResult "browse:https://example.com|read the title" in
  (exists added,
     trace (snd run) = (trace start ++ added)%list /\ fresh [] added)
  /\ fst run = inr res
  /\ updatedMessages res = (hello ++ skipn 1 (updatedMessages res))%list
  /\ exchanges (skipn 1 (updatedMessages res))
     = [(browse "a", ofEnvelope done); (browse "b", notice)]
  /\ (notice = notice
      \/ (stepConfirm stepByStep = true /\ notice = deferredResult)).
Proof.
  intros run res notice.
  destruct (@no_second_dispatch nat
              (scripted [wantsTool [browse "a"]; wantsTool [browse "b"];
                         says "finished"])
              succeeding 25 false hello 7 stepByStep start _ _
              (surjective_pairing _))
    as (Htrace & _ & Hrepeat & _).
  split; [exact Htrace|]. split; [reflexivity|].
  split; [reflexivity|]. split; [reflexivity|].
  exact (proj2
           (Hrepeat res (skipn 1 (updatedMessages res)) []
              (browse "a") (ofEnvelope done) [] (browse "b") notice []
              "browse:https://example.com|read the title"
              eq_refl eq_refl eq_refl eq_refl eq_refl eq_refl eq_refl)).
Defined.



End OrchestratorRuns.

(* ===================================================================== *)
(** ** Calls of the dispatcher *)
(* ===================================================================== *)

Module DispatcherRuns.

Import Js Regex Dispatcher Props Scenarios RegexFacts DispatcherFacts.

(** C5 fails as stated: a bare [start] with the shell pinned to PowerShell
    goes to PowerShell, and a [start] followed by nothing but a quoted
    Chrome path, which is an empty launch target too, goes to the detached
    Chrome launcher. *)
Lemma empty_launch_reaches_a_process :
  test re_start_bare (trim "start") = true
  /\ executeCommand chrome (pinned "start" "powershell")
     = RunCommand ViaPowerShell "start"
  /\ spawns (executeCommand chrome (pinned "start" "powershell")) = true
  /\ test re_start_title_only (trim ("start " ++ q ++ "C:\chrome.exe" ++ q))
     = true
  /\ executeCommand chrome (commandLine ("start " ++ q ++ "C:\chrome.exe" ++ q))
     = LaunchChromeDetached ("start " ++ q ++ "C:\chrome.exe" ++ q).
Proof. repeat split; vm_compute; reflexivity. Qed.

Lemma empty_launch_refused_witness :
  executeCommand chrome (commandLine "start")
  = Return (failure reason_no_target)
  /\ includes "Refusing to run" reason_no_target = true
  /\ spawns (executeCommand chrome (commandLine "start")) = false.
Proof.
  apply (@empty_launch_refused chrome (commandLine "start") "start");
    try (vm_compute; reflexivity).
  exists "start", "". repeat split. now left.
Defined.

(** C6 fails as stated: an address behind two separators whose path holds
    a verb-noun token is classified as PowerShell text and handed to
    PowerShell, and one whose path holds [chrome.exe] is handed to the
    detached Chrome launcher. *)
Lemma slashed_url_reaches_a_process :
  stripLeadingSlashes "\\https://example.com/Get-Started"
  = "https://example.com/Get-Started"
  /\ looksLikeUrl "https://example.com/Get-Started" = true
  /\ executeCommand chrome (commandLine "\\https://example.com/Get-Started")
     = RunCommand ViaPowerShell "\\https://example.com/Get-Started"
  /\ looksLikeUrl "https://example.com/chrome.exe" = true
  /\ executeCommand chrome (commandLine "\\https://example.com/chrome.exe")
     = LaunchChromeDetached "\\https://example.com/chrome.exe".
Proof. repeat split; vm_compute; reflexivity. Qed.

Lemma slashed_url_refused_witness :
  executeCommand chrome (commandLine "\\https://example.com")
  = Return (failure (reason_slashed_url "https://example.com"))
  /\ reason_slashed_url "https://example.com"
     = "Looks like a URL with a leading \\ or /. Use the URL without the leading slash, or ask the bot to browse it. Example: "
       ++ "https://example.com"
  /\ includes "https://example.com" (reason_slashed_url "https://example.com")
     = true
  /\ spawns (executeCommand chrome (commandLine "\\https://example.com"))
     = false.
Proof.
  apply (@slashed_url_refused chrome (commandLine "\\https://example.com")
           "\\" "https://example.com"); try (vm_compute; reflexivity).
  discriminate.
Defined.

Lemma shell_selection_witness :
  detectShell "auto" (Some "Get-Process") None None = "powershell"
  /\ detectShell "auto" (Some ("Get-Process" ++ nl ++ "Get-Service")) None None
     = "powershell".
Proof.
  split.
  - apply (proj1 (proj1 (proj2 (shell_selection "")) "auto"
                    (Some "Get-Process") None (or_introl eq_refl))).
    right. right. right. left. exists "", "Get", "P"%char, "rocess".
    repeat split. simpl. tauto.
  - apply (proj1 (proj2 (proj2 (proj2 (proj2
             (shell_selection ("Get-Process" ++ nl ++ "Get-Service"))))))).
    exists "Get-Process", "Get-Service". vm_compute. reflexivity.
Defined.



End DispatcherRuns.

(* ===================================================================== *)
(** ** Facts about the delivery helpers *)
(* ===================================================================== *)

Module HelpersFacts.

Import Js Helpers MoreProps RegexFacts.

(** *** Pieces of a text *)

Lemma drop_all s : forall i, String.length s <= i -> drop i s = "".
Proof.
  induction s as [|c s IH]; intros [|i] H; simpl in *; try reflexivity;
    try lia.
  apply IH. lia.
Qed.

Lemma substring_0_drop s : forall n, substring 0 n s ++ drop n s = s.
Proof.
  induction s as [|c s IH]; intros [|n]; simpl; try reflexivity.
  now rewrite IH.
Qed.

Lemma substring_drop s : forall i n,
  substring i n s ++ drop (i + n) s = drop i s.
Proof.
  induction s as [|c s IH]; intros [|i] n.
  - destruct n; reflexivity.
  - reflexivity.
  - apply substring_0_drop.
  - simpl. apply IH.
Qed.

Lemma length_substring s : forall i n,
  String.length (substring i n s) = Nat.min n (String.length s - i).
Proof.
  induction s as [|c s IH]; intros [|i] [|n]; simpl; try reflexivity.
  - now rewrite IH, Nat.sub_0_r.
  - now rewrite IH.
  - now rewrite IH.
Qed.

Lemma chunkLoop_glue str n (Hn : 0 < n) : forall fuel i,
  String.length str - i <= fuel ->
  glue (chunkLoop fuel str n i) = drop i str.
Proof.
  induction fuel as [|fuel IH]; intros i H; simpl.
  - symmetry. apply drop_all. lia.
  - destruct (Nat.ltb_spec i (String.length str)) as [Hi|Hi]; simpl.
    + rewrite IH by lia. apply substring_drop.
    + symmetry. now apply drop_all.
Qed.

Lemma chunkLoop_sizes str n (Hn : 0 < n) : forall fuel i,
  Forall (fun c => 1 <= String.length c <= n) (chunkLoop fuel str n i)
  /\ Forall (fun c => String.length c = n)
       (removelast (chunkLoop fuel str n i)).
Proof.
  induction fuel as [|fuel IH]; intros i.
  - split; constructor.
  - cbn [chunkLoop].
    destruct (Nat.ltb_spec i (String.length str)) as [Hi|Hi];
      [|split; constructor].
    destruct (IH (i + n)) as [IH1 IH2]. split.
    + constructor; [|exact IH1]. rewrite length_substring. lia.
    + cbn [removelast].
      destruct (chunkLoop fuel str n (i + n)) as [|c l] eqn:E;
        [constructor|].
      constructor; [|exact IH2].
      rewrite length_substring.
      destruct fuel as [|fuel]; [discriminate|]. cbn [chunkLoop] in E.
      destruct (Nat.ltb_spec (i + n) (String.length str)); [lia|discriminate].
Qed.

Lemma chunkLoop_count str n (Hn : 0 < n) : forall fuel i,
  String.length str - i <= fuel ->
  String.length str - i <= n * List.length (chunkLoop fuel str n i)
  /\ n * List.length (chunkLoop fuel str n i) < String.length str - i + n.
Proof.
  induction fuel as [|fuel IH]; intros i H; cbn [chunkLoop].
  - simpl. lia.
  - destruct (Nat.ltb_spec i (String.length str)) as [Hi|Hi].
    + destruct (IH (i + n)) as [IH1 IH2]; [lia|]. cbn [List.length].
      destruct (List.length (chunkLoop fuel str n (i + n)));
        rewrite ?Nat.mul_succ_r, ?Nat.mul_0_r in *; lia.
    + simpl. lia.
Qed.

Lemma chunkString_glue (str : string) (maxLen : nat) :
  0 < maxLen -> glue (chunkString str maxLen) = str.
Proof.
  intros Hn. unfold chunkString. rewrite chunkLoop_glue by lia.
  reflexivity.
Qed.

(** The pieces of a text, put together again, are the text. *)
Theorem chunks_rejoin (str : string) (maxLen : nat) :
  0 < maxLen -> glue (chunkString str maxLen) = str.
Proof. apply chunkString_glue. Qed.

Lemma chunks_rejoin_witness :
  0 < 3 /\ glue (chunkString "screenshot" 3) = "screenshot".
Proof.
  split; [lia | apply (@chunks_rejoin "screenshot" 3); lia].
Defined.

Lemma chunkString_sizes (str : string) (maxLen : nat) :
  0 < maxLen ->
  Forall (fun c => 1 <= String.length c <= maxLen) (chunkString str maxLen)
  /\ Forall (fun c => String.length c = maxLen)
       (removelast (chunkString str maxLen))
  /\ String.length str <= maxLen * List.length (chunkString str maxLen)
  /\ maxLen * List.length (chunkString str maxLen)
     < String.length str + maxLen.
Proof.
  intros Hn. unfold chunkString.
  destruct (chunkLoop_sizes str Hn (String.length str) 0) as [H1 H2].
  destruct (@chunkLoop_count str maxLen Hn (String.length str) 0) as [H3 H4];
    [lia|].
  repeat split; try assumption; lia.
Qed.

(** Every piece holds between one and [maxLen] characters, every piece
    but the last holds exactly [maxLen], and there are just enough pieces
    for the text. *)
Theorem chunk_sizes (str : string) (maxLen : nat) :
  0 < maxLen ->
  Forall (fun c => 1 <= String.length c <= maxLen) (chunkString str maxLen)
  /\ Forall (fun c => String.length c = maxLen)
       (removelast (chunkString str maxLen))
  /\ String.length str <= maxLen * List.length (chunkString str maxLen)
  /\ maxLen * List.length (chunkString str maxLen)
     < String.length str + maxLen.
Proof. apply chunkString_sizes. Qed.

Lemma chunk_sizes_witness :
  0 < 3
  /\ Forall (fun c => 1 <= String.length c <= 3) (chunkString "screenshot" 3)
  /\ Forall (fun c => String.length c = 3)
       (removelast (chunkString "screenshot" 3))
  /\ String.length "screenshot"
     <= 3 * List.length (chunkString "screenshot" 3)
  /\ 3 * List.length (chunkString "screenshot" 3)
     < String.length "screenshot" + 3.
Proof.
  split; [lia | apply (@chunk_sizes "screenshot" 3); lia].
Defined.

(** *** Transient errors *)

Lemma toLower_append a b : toLower (a ++ b) = toLower a ++ toLower b.
Proof. induction a as [|c a IH]; simpl; [reflexivity | now rewrite IH]. Qed.

Lemma toLower_split s : forall a r,
  toLower s = a ++ r ->
  exists a0 r0, s = a0 ++ r0 /\ toLower a0 = a /\ toLower r0 = r.
Proof.
  induction s as [|c s IH]; intros [|d a] r H; simpl in H.
  - exists "", "". now rewrite <- H.
  - discriminate.
  - exists "", (String c s). now rewrite <- H.
  - inversion H; subst d. destruct (IH a r) as (a0 & r0 & -> & <- & <-);
      [assumption|].
    now exists (String c a0), r0.
Qed.

Lemma existsb_eqb c l : existsb (String.eqb c) l = true <-> In c l.
Proof.
  rewrite existsb_exists. split.
  - intros (x & Hx & E). apply String.eqb_eq in E. now subst.
  - intros H. exists c. split; [assumption | apply String.eqb_refl].
Qed.

(** An error is transient exactly when its code (the code of its cause
    when it has none of its own) is one of the six listed codes, or when
    its message, a blank and the message of its cause hold one of the four
    phrases written in any mix of capitals and small letters. *)
Theorem transient_when (err : js_error) :
  isTransientNetworkError err = true
  <-> In (if otruthy (code err) then orEmpty (code err)
          else orEmpty (cause_code err))
        ["ECONNRESET"; "ENOTFOUND"; "EAI_AGAIN"; "ETIMEDOUT"; "ECONNREFUSED";
         "EFATAL"]
      \/ exists before phrase after,
           orEmpty (message err) ++ " " ++ orEmpty (cause_message err)
           = before ++ phrase ++ after
           /\ In (toLower phrase)
                ["econnreset"; "enotfound"; "etimedout"; "socket hang up"].
Proof.
  change ["ECONNRESET"; "ENOTFOUND"; "EAI_AGAIN"; "ETIMEDOUT"; "ECONNREFUSED";
          "EFATAL"] with transientCodes.
  change ["econnreset"; "enotfound"; "etimedout"; "socket hang up"]
    with transientPhrases.
  unfold isTransientNetworkError. rewrite orb_true_iff, existsb_eqb.
  apply or_iff_compat_l. rewrite existsb_exists. split.
  - intros (p & Hp & Hinc). apply includes_spec in Hinc.
    destruct Hinc as (a & b & E).
    apply toLower_split in E. destruct E as (a0 & r0 & E & _ & Er).
    apply toLower_split in Er. destruct Er as (p0 & b0 & -> & Ep & _).
    exists a0, p0, b0. split; [assumption | now rewrite Ep].
  - intros (a & p & b & E & Hp). exists (toLower p). split; [assumption|].
    apply includes_spec. rewrite E, !toLower_append. eauto.
Qed.

(** *** [withRetries] *)

Section RetryFacts.

Variable St : Type.
Variable sleep : N -> St -> St.
Variable A : Type.
Variable fn : St -> (js_error + A) * St.
Variable retries : nat.
Variable baseDelayMs maxDelayMs : N.

(** What an observer of the state counts: the calls of [fn] and the
    pauses. *)
Variable calls : St -> nat.
Variable naps : St -> list N.

Hypothesis fn_calls : forall st, calls (snd (fn st)) = S (calls st).
Hypothesis fn_naps : forall st, naps (snd (fn st)) = naps st.
Hypothesis sleep_calls : forall ms st, calls (sleep ms st) = calls st.
Hypothesis sleep_naps : forall ms st,
  naps (sleep ms st) = (naps st ++ [ms])%list.

Lemma retryLoop_spec : forall fuel attempt st out st',
  retries <= fuel + attempt ->
  retryLoop sleep fn retries baseDelayMs maxDelayMs fuel attempt st
  = (out, st') ->
  exists k,
    1 <= k /\ (attempt + k <= S retries \/ k = 1)
    /\ calls st' = calls st + k
    /\ naps st'
       = (naps st
          ++ map (delay baseDelayMs maxDelayMs) (seq (S attempt) (k - 1)))%list
    /\ match out with
       | inl e => isTransientNetworkError e = false \/ retries < attempt + k
       | inr _ => True
       end.
Proof.
  induction fuel as [|fuel IH]; intros attempt st out st' Hfuel Hrun;
    cbn [retryLoop] in Hrun;
    pose proof (fn_calls st) as Hc; pose proof (fn_naps st) as Hn;
    destruct (fn st) as [[e|x] st1]; cbn [snd] in Hc, Hn.
  - assert (E : (out, st') = (inl e, st1)).
    { destruct (negb (isTransientNetworkError e) || (retries <? attempt + 1));
        congruence. }
    inversion E; subst. exists 1. rewrite Hc, Hn, app_nil_r.
    repeat split; lia.
  - inversion Hrun; subst. exists 1. rewrite Hc, Hn, app_nil_r.
    repeat split; lia.
  - destruct (isTransientNetworkError e) eqn:Et; cbn [negb orb] in Hrun.
    + destruct (Nat.ltb_spec retries (attempt + 1)) as [Hr|Hr].
      * inversion Hrun; subst. exists 1. rewrite Hc, Hn, app_nil_r.
        repeat split; lia.
      * apply IH in Hrun; [|lia].
        destruct Hrun as (k & Hk & Hb & Hcalls & Hnaps & Hout).
        rewrite sleep_calls in Hcalls. rewrite sleep_naps in Hnaps.
        exists (S k). repeat split; try lia.
        -- rewrite Hnaps, Hn, <- app_assoc.
           replace (S k - 1) with (S (k - 1)) by lia.
           cbn [seq map app]. now rewrite Nat.add_1_r.
        -- destruct out; [|exact I].
           destruct Hout as [Hout|Hout]; [now left | right; lia].
    + inversion Hrun; subst. exists 1. rewrite Hc, Hn, app_nil_r.
      repeat split; try lia. now left.
  - inversion Hrun; subst. exists 1. rewrite Hc, Hn, app_nil_r.
    repeat split; lia.
Qed.

(** [fn] is called at least once and at most [retries + 1] times; before
    the call number [k + 1] the loop pauses for
    [min(maxDelayMs, baseDelayMs * 2^(k-1))]; and an error comes out only
    when it is not transient or when call number [retries + 1] failed. *)
Theorem withRetries_bounded (st st' : St) (out : js_error + A) :
  withRetries sleep fn retries baseDelayMs maxDelayMs st = (out, st') ->
  exists k,
    1 <= k <= retries + 1
    /\ calls st' = calls st + k
    /\ naps st'
       = (naps st
          ++ map (fun a => N.min maxDelayMs (baseDelayMs * 2 ^ N.of_nat (a - 1)))
               (seq 1 (k - 1)))%list
    /\ match out with
       | inl e => isTransientNetworkError e = false \/ k = retries + 1
       | inr _ => True
       end.
Proof.
  intros Hrun. unfold withRetries in Hrun.
  apply retryLoop_spec in Hrun; [|lia].
  destruct Hrun as (k & Hk & Hb & Hcalls & Hnaps & Hout).
  exists k. repeat split; try lia; try assumption.
  destruct out; [|exact I]. destruct Hout; [now left | right; lia].
Qed.

End RetryFacts.

Lemma withRetries_bounded_witness :
  exists k,
    1 <= k <= 2 + 1
    /\ S (S (S 0)) = 0 + k
    /\ [500; 1000]%N
       = ([] ++ map (fun a => N.min 15000 (500 * 2 ^ N.of_nat (a - 1)))
                  (seq 1 (k - 1)))%list
    /\ (isTransientNetworkError MoreScenarios.timedOut = false \/ k = 2 + 1).
Proof.
  apply (@withRetries_bounded MoreScenarios.counter MoreScenarios.pause unit
           MoreScenarios.alwaysTimesOut 2 500 15000 fst snd
           (fun st => eq_refl) (fun st => eq_refl)
           (fun ms st => eq_refl) (fun ms st => eq_refl)
           (0, []) (3, [500; 1000]%N) (inl MoreScenarios.timedOut)).
  vm_compute. reflexivity.
Defined.

(** *** [safeSendMessage] and [sendLongMessage] *)

Lemma deliveredTexts_app a b :
  deliveredTexts (a ++ b) = (deliveredTexts a ++ deliveredTexts b)%list.
Proof.
  induction a as [|e a IH]; [reflexivity|].
  destruct e as [c t [|]|ms|]; simpl; now rewrite ?IH.
Qed.

Lemma triedTexts_app a b :
  triedTexts (a ++ b) = (triedTexts a ++ triedTexts b)%list.
Proof.
  induction a as [|e a IH]; [reflexivity|].
  destruct e as [c t d|ms|]; simpl; now rewrite ?IH.
Qed.

Lemma failedAttempts_delivered chatId text ms :
  deliveredTexts (failedAttempts chatId text ms) = [].
Proof. induction ms; simpl; [reflexivity | assumption]. Qed.

Lemma failedAttempts_tried chatId text ms :
  triedTexts (failedAttempts chatId text ms) = repeat text (List.length ms).
Proof. induction ms; simpl; [reflexivity | now rewrite IHms]. Qed.

Section BotFacts.

Variable W : Type.
Variable sendMessage : nat -> string -> W -> (js_error + unit) * W.

Lemma sendLoop_log chatId text : forall fuel attempt st out st',
  4 <= fuel + attempt ->
  retryLoop (fun ms => note (Paused ms)) (trySend sendMessage chatId text)
    4 500 15000 fuel attempt st = (out, st') ->
  exists k,
    (attempt + k <= 4 \/ k = 0)
    /\ hlog st'
       = (hlog st
          ++ failedAttempts chatId text
               (map (delay 500 15000) (seq (S attempt) k))
          ++ [Tried chatId text
                (match out with inr _ => true | inl _ => false end)])%list.
Proof.
  induction fuel as [|fuel IH]; intros attempt st out st' Hfuel Hrun;
    cbn [retryLoop] in Hrun; unfold trySend at 1 in Hrun;
    destruct (sendMessage chatId text (hworld st)) as [[e|x] w].
  - assert (E : (out, st')
                = (inl e, {| hworld := w;
                             hlog := (hlog st
                                      ++ [Tried chatId text false])%list |})).
    { destruct (negb (isTransientNetworkError e) || (4 <? attempt + 1));
        congruence. }
    inversion E; subst. exists 0. split; [now right | reflexivity].
  - inversion Hrun; subst. exists 0. split; [now right | reflexivity].
  - destruct (negb (isTransientNetworkError e) || (4 <? attempt + 1)) eqn:Et.
    + inversion Hrun; subst. exists 0. split; [now right | reflexivity].
    + apply orb_false_iff in Et. destruct Et as [_ Hr].
      apply Nat.ltb_ge in Hr.
      apply IH in Hrun; [|lia]. destruct Hrun as (k & Hk & Hlog).
      exists (S k). split; [left; lia|].
      rewrite Hlog. cbn [note hlog seq map failedAttempts flat_map].
      rewrite <- !app_assoc. cbn [app]. now rewrite Nat.add_1_r.
  - inversion Hrun; subst. exists 0. split; [now right | reflexivity].
Qed.

Lemma delays k :
  k <= 4 ->
  map (delay 500 15000) (seq 1 k) = firstn k [500; 1000; 2000; 4000]%N.
Proof.
  intros H. do 5 (destruct k as [|k]; [reflexivity|]). lia.
Qed.

Lemma safeSendMessage_log (chatId : nat) (text : string)
    (st : hstate W) :
  exists k,
    k <= 4
    /\ hlog (snd (safeSendMessage sendMessage chatId text st))
       = (hlog st
          ++ sendLog chatId text k
               (fst (safeSendMessage sendMessage chatId text st)))%list.
Proof.
  unfold safeSendMessage, withRetries.
  destruct (retryLoop _ _ _ _ _ _ _ _) as [out st'] eqn:Hrun.
  apply sendLoop_log in Hrun; [|lia]. destruct Hrun as (k & Hk & Hlog).
  exists k. split; [lia|]. rewrite delays in Hlog by lia.
  unfold sendLog.
  destruct out as [e|x]; cbn [fst snd note hlog]; rewrite Hlog;
    rewrite <- ?app_assoc; reflexivity.
Qed.

(** [safeSendMessage] calls [bot.sendMessage] at most five times with the
    same chat and text; it pauses 500, 1000, 2000 and 4000 ms between the
    calls; only the last call can have delivered; and a warning is written
    exactly when it answers [false]. *)
Theorem safeSendMessage_attempts (chatId : nat) (text : string)
    (st : hstate W) :
  exists k,
    k <= 4
    /\ hlog (snd (safeSendMessage sendMessage chatId text st))
       = (hlog st
          ++ sendLog chatId text k
               (fst (safeSendMessage sendMessage chatId text st)))%list.
Proof. apply safeSendMessage_log. Qed.

Lemma sendLog_delivered chatId text k ok :
  deliveredTexts (sendLog chatId text k ok) = if ok then [text] else [].
Proof.
  unfold sendLog. rewrite deliveredTexts_app, failedAttempts_delivered.
  now destruct ok.
Qed.

Lemma sendLog_tried chatId text k ok :
  Forall (eq text) (triedTexts (sendLog chatId text k ok)).
Proof.
  unfold sendLog. rewrite triedTexts_app, failedAttempts_tried.
  apply Forall_app. split.
  - apply Forall_forall. intros x Hx. apply repeat_spec in Hx. now subst.
  - destruct ok; repeat constructor.
Qed.

Lemma sendParts_log chatId : forall parts st,
  exists log n,
    hlog (sendParts sendMessage chatId parts st) = (hlog st ++ log)%list
    /\ deliveredTexts log = firstn n parts
    /\ Forall (fun t => In t parts) (triedTexts log).
Proof.
  induction parts as [|part rest IH]; intros st; cbn [sendParts].
  - exists [], 0. rewrite app_nil_r. repeat split. constructor.
  - destruct (safeSendMessage_log chatId part st) as (k & _ & Hlog).
    destruct (safeSendMessage sendMessage chatId part st) as [ok st'].
    cbn [fst snd] in Hlog.
    assert (Htried : Forall (fun t => In t (part :: rest))
                       (triedTexts (sendLog chatId part k ok))).
    { eapply Forall_impl; [|apply sendLog_tried].
      intros t <-. now left. }
    destruct ok.
    + destruct (IH st') as (log & n & Hl & Hd & Ht).
      exists (sendLog chatId part k true ++ log)%list, (S n).
      rewrite Hl, Hlog, <- app_assoc. split; [reflexivity|]. split.
      * rewrite deliveredTexts_app, sendLog_delivered, Hd. reflexivity.
      * rewrite triedTexts_app. apply Forall_app. split; [assumption|].
        eapply Forall_impl; [|exact Ht]. intros t Hin. now right.
    + exists (sendLog chatId part k false), 0.
      split; [assumption|]. split; [apply sendLog_delivered | assumption].
Qed.

Lemma glue_app a b : glue (a ++ b) = glue a ++ glue b.
Proof.
  induction a as [|x a IH]; simpl; [reflexivity|].
  now rewrite IH, append_assoc.
Qed.

(** Whatever the transport does, [sendLongMessage] hands
    [bot.sendMessage] only the text [(no output)] or pieces of one to 3500
    characters; and for a text that is not blank the pieces delivered are
    the first pieces of the text, in order and each once, so that they
    make up a beginning of the text. *)
Theorem sendLongMessage_texts (chatId : nat) (text : string)
    (st : hstate W) :
  exists log,
    hlog (sendLongMessage sendMessage chatId text st) = (hlog st ++ log)%list
    /\ Forall (fun t => t = "(no output)" \/ 1 <= String.length t <= 3500)
         (triedTexts log)
    /\ if truthy (trim text)
       then exists n rest,
              deliveredTexts log = firstn n (chunkString text 3500)
              /\ text = glue (deliveredTexts log) ++ rest
       else deliveredTexts log = ["(no output)"] \/ deliveredTexts log = [].
Proof.
  unfold sendLongMessage. destruct (truthy (trim text)); cbn [negb].
  - destruct (sendParts_log chatId (chunkString text 3500) st)
      as (log & n & Hl & Hd & Ht).
    exists log. split; [assumption|]. split.
    + eapply Forall_impl; [|exact Ht]. intros t Hin. right.
      destruct (@chunkString_sizes text 3500) as [Hs _]; [lia|].
      rewrite Forall_forall in Hs. now apply Hs.
    + exists n, (glue (skipn n (chunkString text 3500))). split; [assumption|].
      rewrite Hd, <- glue_app, firstn_skipn. symmetry.
      apply chunkString_glue. lia.
  - destruct (safeSendMessage_log chatId "(no output)" st)
      as (k & _ & Hlog).
    exists (sendLog chatId "(no output)" k
              (fst (safeSendMessage sendMessage chatId "(no output)" st))).
    split; [assumption|]. split.
    + eapply Forall_impl; [|apply sendLog_tried]. intros t <-. now left.
    + rewrite sendLog_delivered.
      destruct (fst _); [now left | now right].
Qed.

(** Over a transport that delivers every message, [sendLongMessage] calls
    [bot.sendMessage] once for each piece of a text that is not blank, in
    order, and nothing else happens. *)
Theorem sendLongMessage_delivers_all (chatId : nat) (text : string)
    (st : hstate W) :
  (forall c t w, exists w', sendMessage c t w = (inr tt, w')) ->
  truthy (trim text) = true ->
  hlog (sendLongMessage sendMessage chatId text st)
  = (hlog st
     ++ map (fun part => Tried chatId part true) (chunkString text 3500))%list.
Proof.
  intros Hok Ht. unfold sendLongMessage. rewrite Ht. cbn [negb].
  generalize (chunkString text 3500). intros parts. revert st.
  induction parts as [|part rest IH]; intros st; cbn [sendParts map].
  - now rewrite app_nil_r.
  - unfold safeSendMessage, withRetries. cbn [retryLoop].
    unfold trySend at 1.
    destruct (Hok chatId part (hworld st)) as (w' & ->).
    rewrite IH. cbn [hlog]. now rewrite <- app_assoc.
Qed.

End BotFacts.

Lemma sendLongMessage_delivers_all_witness :
  hlog (sendLongMessage MoreScenarios.delivers 7 "done" MoreScenarios.quiet)
  = ([] ++ map (fun part => Tried 7 part true) (chunkString "done" 3500))%list.
Proof.
  apply (@sendLongMessage_delivers_all unit MoreScenarios.delivers 7 "done"
           MoreScenarios.quiet).
  - intros c t w. exists w. reflexivity.
  - vm_compute. reflexivity.
Defined.

End HelpersFacts.

(* ===================================================================== *)
(** ** Facts about whole runs of the orchestrator *)
(* ===================================================================== *)

Module RunFacts.

Import Js Regex Orchestrator Props RunProps OrchestratorFacts.

(** *** Stretches of trace *)

Lemma announced_app chatId a b : forall p,
  announced chatId p a -> (forall q, announced chatId q b) ->
  announced chatId p (a ++ b).
Proof.
  induction a as [|e a IH]; intros p Ha Hb; simpl in *; [apply Hb|].
  destruct Ha as [He Ha]. split; [assumption|]. now apply IH.
Qed.

Lemma announced_split chatId l1 name input o l2 : forall p,
  announced chatId p (l1 ++ Invoked name input o :: l2) ->
  known name = true
  /\ ((l1 = [] /\ p = Some (Said chatId (announcement name input)))
      \/ exists l0,
           l1 = (l0 ++ [Said chatId (announcement name input)])%list).
Proof.
  induction l1 as [|e l1 IH]; intros p H; simpl in H.
  - destruct H as [[Hk Hp] _]. split; [assumption|]. left. auto.
  - destruct H as [_ H]. apply IH in H. destruct H as [Hk H].
    split; [assumption|]. right.
    destruct H as [[-> Hp]|[l0 ->]].
    + inversion Hp; subst. now exists [].
    + now exists (e :: l0).
Qed.

Lemma halts_calm err a : existsb thrown a = false -> halts err a.
Proof.
  induction a as [|e a IH]; simpl; [trivial|].
  intros H. apply orb_false_iff in H. destruct H as [He Ha].
  split; [|now apply IH].
  destruct e as [| name input [msg|r] |]; try exact I. discriminate.
Qed.

Lemma halts_app err a b :
  existsb thrown a = false -> halts err b -> halts err (a ++ b).
Proof.
  induction a as [|e a IH]; simpl; [trivial|].
  intros H Hb. apply orb_false_iff in H. destruct H as [He Ha].
  split; [|now apply IH].
  destruct e as [| name input [msg|r] |]; try exact I. discriminate.
Qed.

Lemma halts_split err l1 name input msg l2 :
  halts err (l1 ++ Invoked name input (inl msg) :: l2) ->
  l2 = [] /\ err = Some msg.
Proof.
  induction l1 as [|e l1 IH]; simpl; intros [H1 H2]; [assumption|].
  now apply IH.
Qed.

Lemma requests_quiet a :
  Forall (fun e => is_asked e = false) a -> quiet a.
Proof.
  induction 1 as [|e a He Ha IH]; simpl; [trivial|].
  split; [|assumption]. intros _. now apply requests_none.
Qed.

Lemma quiet_app a b :
  existsb successfulBrowse a = false -> quiet b -> quiet (a ++ b).
Proof.
  induction a as [|e a IH]; simpl; [trivial|].
  intros H Hb. apply orb_false_iff in H. destruct H as [He Ha].
  split; [|now apply IH]. rewrite He. discriminate.
Qed.

Lemma quiet_calm a : existsb successfulBrowse a = false -> quiet a.
Proof.
  induction a as [|e a IH]; simpl; [trivial|].
  intros H. apply orb_false_iff in H. destruct H as [He Ha].
  split; [|now apply IH]. rewrite He. discriminate.
Qed.

Lemma quiet_split l1 e l2 :
  quiet (l1 ++ e :: l2) -> successfulBrowse e = true -> requests l2 = [].
Proof.
  induction l1 as [|x l1 IH]; simpl; intros [H1 H2]; [assumption|].
  now apply IH.
Qed.

(** What a stretch made of requests only does not hold. *)
Lemma only_requests a :
  Forall (fun e => is_asked e = true) a ->
  requests a = a /\ invocations a = []
  /\ existsb thrown a = false /\ existsb successfulBrowse a = false
  /\ forall chatId p, announced chatId p a.
Proof.
  induction 1 as [|e a He Ha IH]; [repeat split|].
  destruct IH as (H1 & H2 & H3 & H4 & H5).
  destruct e as [th ms| |]; try discriminate.
  unfold requests, invocations in *. simpl. rewrite H1, H2, H3, H4.
  repeat split. apply H5.
Qed.

Section Runs.

Variable W : Type.
Variable create : option N -> list message -> W -> (string + response) * W.
Variable runTool :
  string -> tool_input -> W -> (string + Dispatcher.result) * W.
Variable MAX_AGENT_ITERATIONS : nat.
Variable STOP_AFTER_SUCCESSFUL_BROWSE : bool.

Local Abbreviation step := (step runTool STOP_AFTER_SUCCESSFUL_BROWSE).
Local Abbreviation forEach := (forEach runTool STOP_AFTER_SUCCESSFUL_BROWSE).
Local Abbreviation loop :=
  (loop create runTool MAX_AGENT_ITERATIONS STOP_AFTER_SUCCESSFUL_BROWSE).
Local Abbreviation attempt :=
  (attempt create runTool MAX_AGENT_ITERATIONS STOP_AFTER_SUCCESSFUL_BROWSE).
Local Abbreviation processWithClaude :=
  (processWithClaude create runTool MAX_AGENT_ITERATIONS
     STOP_AFTER_SUCCESSFUL_BROWSE).
Local Abbreviation firstRequest := (firstRequest create).
Local Abbreviation nextRequest := (nextRequest create).

Local Abbreviation turned := (turned STOP_AFTER_SUCCESSFUL_BROWSE).
Local Abbreviation looped :=
  (looped MAX_AGENT_ITERATIONS STOP_AFTER_SUCCESSFUL_BROWSE).

Lemma turned_nil chatId sc t : turned chatId sc t (inr t) [].
Proof.
  unfold RunProps.turned. simpl.
  rewrite andb_false_r, orb_false_r, Nat.add_0_r.
  repeat split; auto. intros _. lia.
Qed.

Lemma turned_extend chatId sc t l : turned chatId sc t (inr (extend t l)) [].
Proof. exact (turned_nil chatId sc t). Qed.

Lemma step_turn chatId sc t b st out st' :
  step chatId sc t b st = (out, st') ->
  exists a, trace st' = (trace st ++ a)%list /\ turned chatId sc t out a.
Proof.
  intros H.
  destruct (sc && (1 <=? executedThisResponse t)) eqn:Hsc.
  - apply andb_true_iff in Hsc. destruct Hsc as [-> Hex].
    apply Nat.leb_le in Hex. rewrite step_deferred in H by assumption.
    inversion H; subst. exists []. rewrite app_nil_r.
    split; [reflexivity | apply turned_extend].
  - destruct (passedOver (executedBrowserActions t) b) eqn:Hp.
    + rewrite step_passed_over in H by assumption.
      inversion H; subst. exists []. rewrite app_nil_r.
      split; [reflexivity | apply turned_extend].
    + rewrite step_runs in H by assumption. cbv zeta in H.
      destruct (runTool (block_name b) (block_input b) (world st))
        as [o w] eqn:Hrun.
      exists [Said chatId (announcement (block_name b) (block_input b));
              Invoked (block_name b) (block_input b) o].
      unfold passedOver in Hp. apply orb_false_iff in Hp.
      destruct Hp as [_ Hk]. apply negb_false_iff in Hk.
      assert (Hcount : sc = true -> 1 <= 1 - executedThisResponse t).
      { intros ->. cbn [andb] in Hsc. apply Nat.leb_gt in Hsc. lia. }
      destruct o as [msg|r]; inversion H; subst; clear H;
        (split; [reflexivity|]); unfold RunProps.turned;
        (split; [repeat constructor|]);
        (split; [intros p; simpl; auto|]);
        (split; [simpl; auto|]);
        (split; [exact Hcount|]); [exact I|].
      cbn [extend Orchestrator.record stopAfterBrowseSuccess
           executedThisResponse existsb thrown successfulBrowse invocations
           filter is_invoked length].
      split; [reflexivity|]. split; [|reflexivity].
      destruct (String.eqb (block_name b) "browse_website"),
        STOP_AFTER_SUCCESSFUL_BROWSE, (Dispatcher.success r),
        (stopAfterBrowseSuccess t); reflexivity.
Qed.

Lemma forEach_turn chatId sc bs : forall t st out st',
  forEach chatId sc bs t st = (out, st') ->
  exists a, trace st' = (trace st ++ a)%list /\ turned chatId sc t out a.
Proof.
  induction bs as [|b bs IH]; intros t st out st' H; simpl in H.
  - inversion H; subst. exists []. rewrite app_nil_r.
    split; [reflexivity | apply turned_nil].
  - unfold bind in H.
    destruct (step chatId sc t b st) as [[msg|t1] st1] eqn:Hstep;
      destruct (step_turn _ _ _ _ _ Hstep)
        as (a1 & Htr1 & Hq1 & Hn1 & Hh1 & Hc1 & Ho1).
    + inversion H; subst. exists a1. split; [assumption|].
      unfold RunProps.turned. auto.
    + destruct (IH _ _ _ _ H) as (a2 & Htr2 & Hq2 & Hn2 & Hh2 & Hc2 & Ho2).
      destruct Ho1 as (Ht1 & Hf1 & He1).
      exists (a1 ++ a2)%list. rewrite Htr2, Htr1, app_assoc.
      split; [reflexivity|]. unfold RunProps.turned.
      rewrite invocations_app, length_app.
      split; [now apply Forall_app|].
      split; [intros p; now apply announced_app|].
      split; [now apply halts_app|].
      split; [intros Hsc; specialize (Hc1 Hsc); specialize (Hc2 Hsc); lia|].
      destruct out as [msg|t2]; [exact I|].
      destruct Ho2 as (Ht2 & Hf2 & He2).
      rewrite existsb_app, Ht1, Ht2, Hf2, Hf1, He2, He1, existsb_app.
      split; [reflexivity|]. split; [|lia].
      destruct (stopAfterBrowseSuccess t), STOP_AFTER_SUCCESSFUL_BROWSE,
        (existsb successfulBrowse a1), (existsb successfulBrowse a2);
        reflexivity.
Qed.

(** A request inside the run: one call of the service, or two. *)
Lemma ask_asks th msgs st out st' :
  ask create th msgs st = (out, st') ->
  trace st' = (trace st ++ [Asked th msgs])%list.
Proof.
  unfold ask. destruct (create th msgs (world st)).
  intros H. inversion H; subst. reflexivity.
Qed.

Lemma nextRequest_asks o convo st out st' :
  nextRequest o convo st = (out, st') ->
  exists a,
    trace st' = (trace st ++ a)%list
    /\ Forall (fun e => is_asked e = true) a /\ length a <= 2.
Proof.
  unfold Orchestrator.nextRequest, try. intros H.
  destruct (ask create (if deepThinking o then Some (budget o) else None)
              convo st) as [[msg|r] st1] eqn:H1; apply ask_asks in H1.
  - apply ask_asks in H. rewrite H, H1, <- app_assoc.
    eexists. split; [reflexivity|]. split; [repeat constructor | simpl; lia].
  - inversion H; subst. eexists. split; [eassumption|].
    split; [repeat constructor | simpl; lia].
Qed.

Lemma firstRequest_asks o convo st out st' :
  firstRequest o convo st = (out, st') ->
  exists a,
    trace st' = (trace st ++ a)%list
    /\ Forall (fun e => is_asked e = true) a /\ length a <= 2.
Proof.
  unfold Orchestrator.firstRequest, try. intros H.
  destruct (deepThinking o).
  - destruct (ask create (Some (budget o)) convo st) as [[msg|r] st1] eqn:H1;
      apply ask_asks in H1.
    + apply ask_asks in H. rewrite H, H1, <- app_assoc.
      eexists. split; [reflexivity|].
      split; [repeat constructor | simpl; lia].
    + inversion H; subst. eexists. split; [eassumption|].
      split; [repeat constructor | simpl; lia].
  - apply ask_asks in H. eexists. split; [eassumption|].
    split; [repeat constructor | simpl; lia].
Qed.

Lemma looped_nil chatId o i convo r :
  looped chatId o i convo (inr (finish convo r)) [].
Proof.
  unfold RunProps.looped. simpl. rewrite length_app. simpl.
  repeat split; auto; try lia; discriminate.
Qed.

Lemma loop_run fuel chatId o : forall i E convo r st out st',
  loop fuel chatId o i E convo r st = (out, st') ->
  exists a, trace st' = (trace st ++ a)%list /\ looped chatId o i convo out a.
Proof.
  induction fuel as [|fuel IH]; intros i E convo r st out st' H.
  - inversion H; subst. exists []. rewrite app_nil_r.
    split; [reflexivity | apply looped_nil].
  - rewrite loop_S in H.
    assert (Hret : ret (finish convo r) st = (out, st') ->
      exists a,
        trace st' = (trace st ++ a)%list /\ looped chatId o i convo out a).
    { intros Hx. inversion Hx; subst. exists []. rewrite app_nil_r.
      split; [reflexivity | apply looped_nil]. }
    destruct (negb (String.eqb (stop_reason r) "tool_use")); [auto|].
    destruct (MAX_AGENT_ITERATIONS <? i + 1) eqn:Hcap; [auto|].
    apply Nat.ltb_ge in Hcap.
    destruct (negb (allowTools o)); [auto|].
    destruct (filter is_tool_use (content r)) as [|b bs] eqn:Hbs; [auto|].
    clear Hret. unfold bind in H.
    destruct (forEach chatId (stepConfirm o) (b :: bs) (newTurn E) st)
      as [[msg|t] st1] eqn:Hfor;
      destruct (forEach_turn _ _ _ _ _ Hfor)
        as (a1 & Htr1 & Hq1 & Hn1 & Hh1 & Hc1 & Ho1);
      cbn [newTurn executedThisResponse stopAfterBrowseSuccess orb] in Hc1, Ho1;
      pose proof (requests_none Hq1) as Hr1.
    + inversion H; subst. exists a1. split; [assumption|].
      unfold RunProps.looped. rewrite Hr1.
      split; [assumption|]. split; [assumption|].
      split; [simpl; lia|].
      split; [intros Hsc; specialize (Hc1 Hsc); lia|].
      split; [intros _; now apply requests_quiet | exact I].
    + destruct Ho1 as (Ht1 & Hf1 & He1).
      destruct (stopAfterBrowseSuccess t) eqn:Hflag.
      * inversion H; subst. exists a1. split; [assumption|].
        unfold RunProps.looped. rewrite Hr1.
        split; [assumption|]. split; [assumption|].
        split; [simpl; lia|].
        split; [intros Hsc; specialize (Hc1 Hsc); lia|].
        split; [intros _; now apply requests_quiet|].
        cbn [updatedMessages replyText]. rewrite length_app. simpl.
        split; [lia | reflexivity].
      * assert (Hnb : STOP_AFTER_SUCCESSFUL_BROWSE = true ->
                      existsb successfulBrowse a1 = false).
        { intros Hs. rewrite Hs in Hf1. now symmetry. }
        match type of H with
        | match nextRequest ?o ?c ?s with _ => _ end = _ =>
            destruct (nextRequest o c s) as [[msg|r'] st2] eqn:Hnext
        end;
          destruct (nextRequest_asks _ _ _ Hnext) as (a2 & Htr2 & Hall2 & Hl2);
          destruct (only_requests Hall2) as (R1 & R2 & R3 & R4 & R5).
        -- inversion H; subst. exists (a1 ++ a2)%list.
           rewrite Htr2, Htr1, app_assoc. split; [reflexivity|].
           unfold RunProps.looped.
           rewrite requests_app, invocations_app, !length_app, Hr1, R1, R2.
           split; [intros p; now apply announced_app|].
           split; [apply halts_calm; now rewrite existsb_app, Ht1, R3|].
           split; [simpl; lia|].
           split; [intros Hsc; specialize (Hc1 Hsc); simpl; lia|].
           split; [|exact I].
           intros Hs. apply quiet_app; [now apply Hnb | now apply quiet_calm].
        -- destruct (IH _ _ _ _ _ _ _ H)
             as (a3 & Htr3 & Hn3 & Hh3 & Hr3 & Hi3 & Hq3 & Ho3).
           exists (a1 ++ a2 ++ a3)%list.
           rewrite Htr3, Htr2, Htr1, <- !app_assoc. split; [reflexivity|].
           unfold RunProps.looped.
           rewrite !requests_app, !invocations_app, !length_app, Hr1, R1, R2.
           split; [intros p; apply announced_app; [apply Hn1|];
                   intros q; now apply announced_app|].
           split; [apply halts_app; [assumption|]; now apply halts_app|].
           split; [simpl; lia|].
           split; [intros Hsc; specialize (Hc1 Hsc); specialize (Hi3 Hsc);
                   simpl; lia|].
           split.
           { intros Hs. apply quiet_app; [now apply Hnb|].
             apply quiet_app; [assumption | now apply Hq3]. }
           destruct out as [msg|res]; [exact I|].
           destruct Ho3 as [Hlen Hreply]. rewrite length_app in Hlen.
           simpl in Hlen. split; [lia|].
           intros Hs Hex. apply Hreply; [assumption|].
           rewrite !existsb_app, (Hnb Hs), R4 in Hex. exact Hex.
Qed.

(** What the [try] block of a run leaves in the trace. *)
Lemma attempt_run messages chatId o st out st' :
  attempt messages chatId o st = (out, st') ->
  exists a,
    trace st' = (trace st ++ a)%list
    /\ (forall p, announced chatId p a)
    /\ halts (failure out) a
    /\ length (requests a) <= 2 * (MAX_AGENT_ITERATIONS + 1)
    /\ (stepConfirm o = true ->
        length (invocations a) <= MAX_AGENT_ITERATIONS)
    /\ (STOP_AFTER_SUCCESSFUL_BROWSE = true -> quiet a)
    /\ match out with
       | inr res =>
           length (updatedMessages res)
           <= length messages + 2 * MAX_AGENT_ITERATIONS + 1
           /\ (STOP_AFTER_SUCCESSFUL_BROWSE = true ->
               existsb successfulBrowse a = true ->
               replyText res = "Browser task completed.")
       | inl _ => True
       end.
Proof.
  unfold Orchestrator.attempt, bind. intros H.
  destruct (firstRequest o messages st) as [[msg|r] st1] eqn:H1;
    destruct (firstRequest_asks _ _ _ H1) as (a1 & Htr1 & Hall1 & Hl1);
    destruct (only_requests Hall1) as (R1 & R2 & R3 & R4 & R5).
  - inversion H; subst. exists a1. split; [assumption|].
    rewrite R1, R2. split; [apply R5|]. split; [now apply halts_calm|].
    split; [lia|]. split; [simpl; lia|].
    split; [intros _; now apply quiet_calm | exact I].
  - destruct (loop_run _ _ _ _ _ _ _ _ H)
      as (a2 & Htr2 & Hn2 & Hh2 & Hr2 & Hi2 & Hq2 & Ho2).
    rewrite Nat.sub_0_r in *.
    exists (a1 ++ a2)%list. rewrite Htr2, Htr1, app_assoc.
    split; [reflexivity|].
    rewrite requests_app, invocations_app, !length_app, R1, R2.
    split; [intros p; apply announced_app; [apply R5 | assumption]|].
    split; [now apply halts_app|].
    split; [lia|]. split; [intros Hsc; specialize (Hi2 Hsc); simpl; lia|].
    split; [intros Hs; apply quiet_app; [assumption | now apply Hq2]|].
    destruct out as [msg|res]; [exact I|].
    destruct Ho2 as [Hlen Hreply]. split; [lia|].
    intros Hs Hex. apply Hreply; [assumption|].
    rewrite existsb_app, R4 in Hex. exact Hex.
Qed.

(** *** Whole runs *)

Lemma run_of_attempt messages chatId o st :
  processWithClaude messages chatId o st
  = match attempt messages chatId o st with
    | (inr res, st') => (inr res, st')
    | (inl msg, st') =>
        (inr {| replyText := "Error: " ++ msg; updatedMessages := messages |},
         st')
    end.
Proof.
  unfold Orchestrator.processWithClaude, try.
  destruct (attempt messages chatId o st) as [[msg|res] st']; reflexivity.
Qed.

(** A run returns: it makes at most [2 * (MAX_AGENT_ITERATIONS + 1)]
    requests to the reasoning service, and the history it returns is at
    most [2 * MAX_AGENT_ITERATIONS + 1] messages longer than the one it was
    given. *)
Theorem run_bounded messages chatId o st out st' :
  processWithClaude messages chatId o st = (out, st') ->
  exists res added,
    out = inr res
    /\ trace st' = (trace st ++ added)%list
    /\ length (requests added) <= 2 * (MAX_AGENT_ITERATIONS + 1)
    /\ length (updatedMessages res)
       <= length messages + 2 * MAX_AGENT_ITERATIONS + 1.
Proof.
  rewrite run_of_attempt. intros H.
  destruct (attempt messages chatId o st) as [[msg|res] st1] eqn:Ha;
    destruct (attempt_run _ _ _ _ Ha)
      as (a & Htr & _ & _ & Hr & _ & _ & Ho);
    inversion H; subst; do 2 eexists;
    (split; [reflexivity|]); (split; [eassumption|]);
    (split; [assumption|]).
  - simpl. lia.
  - exact (proj1 Ho).
Qed.

(** In step mode a run calls tools at most [MAX_AGENT_ITERATIONS] times. *)
Theorem step_mode_bounds_calls messages chatId o st out st' :
  stepConfirm o = true ->
  processWithClaude messages chatId o st = (out, st') ->
  exists added,
    trace st' = (trace st ++ added)%list
    /\ length (invocations added) <= MAX_AGENT_ITERATIONS.
Proof.
  rewrite run_of_attempt. intros Hsc H.
  destruct (attempt messages chatId o st) as [[msg|res] st1] eqn:Ha;
    destruct (attempt_run _ _ _ _ Ha)
      as (a & Htr & _ & _ & _ & Hi & _ & _);
    inversion H; subst; exists a; auto.
Qed.

(** Every tool call of a run is a call of one of the five tools, and the
    event just before it is the message that announces it to the chat of
    the run. *)
Theorem tool_calls_announced messages chatId o st out st'
    before name input outcome rest :
  processWithClaude messages chatId o st = (out, st') ->
  trace st'
  = (trace st ++ before ++ Invoked name input outcome :: rest)%list ->
  known name = true
  /\ exists earlier,
       before = (earlier ++ [Said chatId (announcement name input)])%list.
Proof.
  rewrite run_of_attempt. intros H Hsplit.
  assert (Hann : announced chatId None
                   (before ++ Invoked name input outcome :: rest)).
  { destruct (attempt messages chatId o st) as [[msg|res] st1] eqn:Ha;
      destruct (attempt_run _ _ _ _ Ha) as (a & Htr & Hn & _);
      inversion H; subst; rewrite Htr in Hsplit;
      apply app_inv_head in Hsplit; subst a; apply Hn. }
  apply announced_split in Hann. destruct Hann as [Hk [[_ Hp]|He]].
  - discriminate.
  - auto.
Qed.

(** A tool handler that throws ends the run: nothing happens after the
    call, the reply is [Error: ] followed by the thrown message, and the
    history returned is the history given. *)
Theorem tool_throw_ends_run messages chatId o st out st'
    before name input msg rest :
  processWithClaude messages chatId o st = (out, st') ->
  trace st'
  = (trace st ++ before ++ Invoked name input (inl msg) :: rest)%list ->
  rest = []
  /\ out = inr {| replyText := "Error: " ++ msg;
                  updatedMessages := messages |}.
Proof.
  rewrite run_of_attempt. intros H Hsplit.
  destruct (attempt messages chatId o st) as [[m|res] st1] eqn:Ha;
    destruct (attempt_run _ _ _ _ Ha) as (a & Htr & _ & Hh & _);
    inversion H; subst; rewrite Htr in Hsplit;
    apply app_inv_head in Hsplit; subst a;
    apply halts_split in Hh; destruct Hh as [-> Hm]; simpl in Hm.
  - inversion Hm; subst. auto.
  - discriminate.
Qed.

(** With the stop-after-browse switch on, no request to the reasoning
    service follows a call of [browse_website] that reported success, and
    the reply is the fixed completion text, or an error text when a later
    tool call of the same response threw. *)
Theorem browse_success_ends_requests messages chatId o st out st'
    before input r rest :
  STOP_AFTER_SUCCESSFUL_BROWSE = true ->
  processWithClaude messages chatId o st = (out, st') ->
  trace st'
  = (trace st ++ before ++ Invoked "browse_website" input (inr r) :: rest)%list ->
  Dispatcher.success r = true ->
  requests rest = []
  /\ exists res,
       out = inr res
       /\ (replyText res = "Browser task completed."
           \/ exists msg,
                replyText res = "Error: " ++ msg
                /\ updatedMessages res = messages).
Proof.
  rewrite run_of_attempt. intros Hs H Hsplit Hok.
  assert (Hb : successfulBrowse (Invoked "browse_website" input (inr r))
               = true) by (simpl; now rewrite Hok).
  destruct (attempt messages chatId o st) as [[m|res] st1] eqn:Ha;
    destruct (attempt_run _ _ _ _ Ha) as (a & Htr & _ & _ & _ & _ & Hq & Ho);
    inversion H; subst; rewrite Htr in Hsplit;
    apply app_inv_head in Hsplit; subst a;
    (split; [eapply quiet_split; [now apply Hq | exact Hb]|]);
    eexists; (split; [reflexivity|]).
  - right. exists m. split; reflexivity.
  - left. destruct Ho as [_ Hreply]. apply Hreply; [reflexivity|].
    rewrite existsb_app. simpl. rewrite Hok. simpl. apply orb_true_r.
Qed.

(** Whatever the service and the tools do, return or throw, the run
    returns, and its reply is not empty. *)
Theorem run_never_throws messages chatId o st :
  exists res st',
    processWithClaude messages chatId o st = (inr res, st')
    /\ truthy (replyText res) = true.
Proof. apply run_returns. Qed.

(** The history a run returns is the history it was given when an error
    was caught; otherwise it is that history followed by rounds, in each of
    which an assistant message with tool requests is answered request by
    request by the next message, and then by the last response of the
    service, or by nothing when a successful browse ended the run. *)
Theorem returned_history_shape messages chatId o st res st' :
  processWithClaude messages chatId o st = (inr res, st') ->
  (exists msg,
     replyText res = "Error: " ++ msg /\ updatedMessages res = messages)
  \/ exists n l,
       Rounds n l /\ answered l = true
       /\ ((exists final,
              updatedMessages res = (messages ++ l ++ [assistant final])%list)
           \/ updatedMessages res = (messages ++ l)%list).
Proof. apply run_shape. Qed.

Lemma length_trimHistory ms :
  length (trimHistory ms) = Nat.min (length ms) MAX_HISTORY_MESSAGES.
Proof.
  unfold trimHistory.
  destruct (Nat.leb_spec (length ms) MAX_HISTORY_MESSAGES).
  - lia.
  - rewrite length_skipn. lia.
Qed.

Section Stored.

Variable DEEP_THINKING : bool.
Variable THINKING_BUDGET_TOKENS : N.
Variable STEP_CONFIRM : bool.

Local Abbreviation handleUserText :=
  (handleUserText create runTool MAX_AGENT_ITERATIONS
     STOP_AFTER_SUCCESSFUL_BROWSE DEEP_THINKING THINKING_BUDGET_TOKENS
     STEP_CONFIRM).

(** A text message is always handled to the end: the history stored for
    the chat afterwards holds at most 40 messages, the history of every
    other chat is as before, and the last thing that happens is the reply
    to the chat, which is not empty. *)
Theorem text_message_handled chatHistory chatId text st :
  exists chatHistory' st' stored reply added,
    handleUserText chatHistory chatId text st = (inr chatHistory', st')
    /\ chatHistory' chatId = Some stored
    /\ length stored <= MAX_HISTORY_MESSAGES
    /\ (forall c, c <> chatId -> chatHistory' c = chatHistory c)
    /\ trace st' = (trace st ++ added ++ [Said chatId reply])%list
    /\ truthy reply = true.
Proof.
  unfold Orchestrator.handleUserText, bind.
  match goal with
  | |- context [Orchestrator.processWithClaude _ _ _ _ ?m ?c ?o ?s] =>
      destruct (@run_returns W create runTool MAX_AGENT_ITERATIONS
                  STOP_AFTER_SUCCESSFUL_BROWSE m c o s)
        as (res & st1 & Hrun & Hreply)
  end.
  rewrite Hrun. pose proof Hrun as Htr. apply run_trace in Htr.
  destruct Htr as (added & Htr & _).
  do 2 eexists. exists (trimHistory (updatedMessages res)), (replyText res),
    added.
  split; [reflexivity|]. unfold setHistory. rewrite Nat.eqb_refl.
  split; [reflexivity|].
  split; [rewrite length_trimHistory; lia|].
  split.
  - intros c Hc. apply Nat.eqb_neq in Hc. now rewrite Hc.
  - split; [|assumption]. cbn [log trace]. now rewrite Htr, app_assoc.
Qed.

End Stored.

End Runs.

(** *** The statements at concrete runs *)

Import Scenarios RunScenarios.

Lemma run_bounded_witness :
  exists res added,
    fst screenshotRun = inr res
    /\ trace (snd screenshotRun) = (trace start ++ added)%list
    /\ length (requests added) <= 2 * (25 + 1)
    /\ length (updatedMessages res) <= length hello + 2 * 25 + 1.
Proof.
  exact (@run_bounded nat oneScreenshot succeeding 25 false hello 7
           stepByStep start (fst screenshotRun) (snd screenshotRun)
           (surjective_pairing _)).
Defined.

Lemma step_mode_bounds_calls_witness :
  exists added,
    trace (snd screenshotRun) = (trace start ++ added)%list
    /\ length (invocations added) <= 25.
Proof.
  exact (@step_mode_bounds_calls nat oneScreenshot succeeding 25 false hello
           7 stepByStep start (fst screenshotRun) (snd screenshotRun)
           eq_refl (surjective_pairing _)).
Defined.

Lemma tool_calls_announced_witness :
  known "take_screenshot" = true
  /\ exists earlier,
       [Asked None hello; Said 7 "Taking screenshot..."]
       = (earlier ++ [Said 7 (announcement "take_screenshot" [])])%list.
Proof.
  apply (@tool_calls_announced nat oneScreenshot succeeding 25 false hello 7
           stepByStep start (fst screenshotRun) (snd screenshotRun)
           [Asked None hello; Said 7 "Taking screenshot..."]
           "take_screenshot" [] (inr done)
           (skipn 3 (trace (snd screenshotRun)))).
  - apply surjective_pairing.
  - vm_compute. reflexivity.
Defined.

Lemma tool_throw_ends_run_witness :
  @nil event = []
  /\ fst failedRun
     = inr {| replyText := "Error: " ++ "spawn ENOENT";
              updatedMessages := hello |}.
Proof.
  apply (@tool_throw_ends_run nat oneScreenshot failing 25 false hello 7
           stepByStep start (fst failedRun) (snd failedRun)
           [Asked None hello; Said 7 "Taking screenshot..."]
           "take_screenshot" [] "spawn ENOENT" []).
  - apply surjective_pairing.
  - vm_compute. reflexivity.
Defined.

Lemma browse_success_ends_requests_witness :
  requests [Said 7 "Taking screenshot...";
            Invoked "take_screenshot" [] (inr done)] = []
  /\ exists res,
       fst browseRun = inr res
       /\ (replyText res = "Browser task completed."
           \/ exists msg,
                replyText res = "Error: " ++ msg
                /\ updatedMessages res = hello).
Proof.
  apply (@browse_success_ends_requests nat browseAndLook succeeding 25 true
           hello 7 atOnce start (fst browseRun) (snd browseRun)
           [Asked None hello; Said 7 "Browsing: https://example.com"]
           (block_input (browse "a")) done
           [Said 7 "Taking screenshot...";
            Invoked "take_screenshot" [] (inr done)]).
  - reflexivity.
  - apply surjective_pairing.
  - vm_compute. reflexivity.
  - reflexivity.
Defined.

Lemma returned_history_shape_witness :
  (exists msg,
     replyText (resultOf screenshotRun) = "Error: " ++ msg
     /\ updatedMessages (resultOf screenshotRun) = hello)
  \/ exists n l,
       Rounds n l /\ answered l = true
       /\ ((exists final,
              updatedMessages (resultOf screenshotRun)
              = (hello ++ l ++ [assistant final])%list)
           \/ updatedMessages (resultOf screenshotRun) = (hello ++ l)%list).
Proof.
  apply (@returned_history_shape nat oneScreenshot succeeding 25 false hello
           7 stepByStep start (resultOf screenshotRun) (snd screenshotRun)).
  vm_compute. reflexivity.
Defined.

End RunFacts.

(* ===================================================================== *)
(** ** Facts about the reply text *)
(* ===================================================================== *)

Module TextFacts.

Import Js Regex Orchestrator Props RunProps RegexFacts.

(** *** Expressions without anchors *)

Lemma plain_anywhere r p x s :
  Match r p x s -> plain r = true -> forall p' s', Match r p' x s'.
Proof.
  induction 1 as [p s|f c p s Hc|a b p w1 w2 s _ IHa _ IHb|a b p w s _ IH
                 |a b p w s _ IH|f p w s Hw|s|p|p s Hx|p s];
    simpl; intros Hp p' s'; try discriminate.
  - constructor.
  - now constructor.
  - apply andb_true_iff in Hp. destruct Hp as [Ha Hb].
    constructor; [now apply IHa | now apply IHb].
  - apply andb_true_iff in Hp. destruct Hp as [Ha Hb].
    apply match_alt_l. now apply IH.
  - apply andb_true_iff in Hp. destruct Hp as [Ha Hb].
    apply match_alt_r. now apply IH.
  - now constructor.
  - constructor.
Qed.

(** An expression without anchors that matches inside a part of a text
    matches inside the text. *)
Lemma test_inside r u l v :
  plain r = true -> test r l = true -> test r (u ++ l ++ v) = true.
Proof.
  intros Hp H. apply test_spec in H. destruct H as (a & w & b & -> & HM).
  apply test_spec. exists (u ++ a), w, (b ++ v).
  split; [now rewrite !append_assoc|].
  now apply plain_anywhere with (lastc None a) b.
Qed.

(** *** Lines *)

Local Abbreviation LF := (ascii_of_nat 10).

Lemma splitLines_cons s : exists l ls, splitLines s = l :: ls.
Proof.
  induction s as [|c s (l & ls & IH)]; cbn [splitLines]; [eauto|].
  destruct (Ascii.eqb c LF); [eauto|].
  rewrite IH. eauto.
Qed.

Lemma splitLines_oneLine s : Forall (fun l => oneLine l = true) (splitLines s).
Proof.
  induction s as [|c s IH]; cbn [splitLines]; [repeat constructor|].
  destruct (Ascii.eqb c LF) eqn:Hc.
  - constructor; [reflexivity | assumption].
  - destruct (splitLines s) as [|l ls].
    + repeat constructor. unfold oneLine. cbn [all]. now rewrite Hc.
    + inversion IH; subst. constructor; [|assumption].
      unfold oneLine in *. cbn [all]. now rewrite Hc.
Qed.

Lemma splitLines_line l : oneLine l = true -> splitLines l = [l].
Proof.
  unfold oneLine. induction l as [|c l IH]; cbn [splitLines all];
    [reflexivity|].
  intros H. apply andb_true_iff in H. destruct H as [Hc Hl].
  apply negb_true_iff in Hc. rewrite Hc, IH by assumption. reflexivity.
Qed.

Lemma splitLines_first l rest :
  oneLine l = true ->
  splitLines (l ++ Dispatcher.nl ++ rest) = l :: splitLines rest.
Proof.
  unfold oneLine, Dispatcher.nl.
  induction l as [|c l IH]; cbn [splitLines all append].
  - intros _. now rewrite Ascii.eqb_refl.
  - intros H. apply andb_true_iff in H. destruct H as [Hc Hl].
    apply negb_true_iff in Hc. rewrite Hc. cbn [append] in IH.
    rewrite IH by assumption. reflexivity.
Qed.

(** Lines that are joined and split again are the same lines. *)
Lemma split_join ls :
  ls <> [] -> Forall (fun l => oneLine l = true) ls ->
  splitLines (joinLines ls) = ls.
Proof.
  induction ls as [|l ls IH]; intros Hne H; [contradiction|].
  inversion H as [|? ? Hl Hls]; subst.
  destruct ls as [|l2 ls].
  - cbn [joinLines]. now apply splitLines_line.
  - change (joinLines (l :: l2 :: ls))
      with (l ++ Dispatcher.nl ++ joinLines (l2 :: ls)).
    rewrite splitLines_first by assumption.
    rewrite IH; [reflexivity | discriminate | assumption].
Qed.

Lemma first_line_grows x y :
  exists v,
    hd EmptyString (splitLines (x ++ y))
    = hd EmptyString (splitLines x) ++ v.
Proof.
  induction x as [|c x (v & IH)]; cbn [splitLines append hd].
  - eexists. reflexivity.
  - destruct (Ascii.eqb c LF); [now exists EmptyString|].
    destruct (splitLines_cons (x ++ y)) as (l & ls & E).
    destruct (splitLines_cons x) as (m & ms & E').
    rewrite E, E' in *. cbn [hd] in *. exists v. now rewrite IH.
Qed.

(** Every line of a part of a text lies inside a line of the text. *)
Lemma lines_app_l x y l :
  In l (splitLines x) ->
  exists l' u v, In l' (splitLines (x ++ y)) /\ l' = u ++ l ++ v.
Proof.
  revert l. induction x as [|c x IH]; intros l Hin.
  - cbn [splitLines] in Hin. destruct Hin as [<-|[]].
    destruct (splitLines_cons y) as (l0 & ls & E). cbn [append]. rewrite E.
    exists l0, EmptyString, l0. split; [now left | reflexivity].
  - cbn [splitLines append] in Hin |- *.
    destruct (Ascii.eqb c LF).
    + destruct Hin as [<-|Hin].
      * exists EmptyString, EmptyString, EmptyString.
        split; [now left | reflexivity].
      * destruct (IH _ Hin) as (l' & u & v & Hl' & E).
        exists l', u, v. split; [now right | assumption].
    + destruct (first_line_grows x y) as (v0 & Hhd).
      destruct (splitLines_cons (x ++ y)) as (l0 & ls & E).
      destruct (splitLines_cons x) as (m & ms & E').
      rewrite E, E' in *. cbn [hd] in Hhd.
      destruct Hin as [<-|Hin].
      * exists (String c l0), EmptyString, v0.
        split; [now left | cbn [append]; now rewrite Hhd].
      * destruct (IH l (or_intror Hin)) as (l' & u & v & [<-|Hl'] & Eq).
        -- exists (String c l0), (String c u), v.
           split; [now left | cbn [append]; now rewrite Eq].
        -- exists l', u, v. split; [now right | assumption].
Qed.

Lemma lines_app_r x y l :
  In l (splitLines y) ->
  exists l' u v, In l' (splitLines (x ++ y)) /\ l' = u ++ l ++ v.
Proof.
  intros Hin. induction x as [|c x (l' & u & v & Hl' & E)].
  - exists l, EmptyString, EmptyString.
    split; [assumption | cbn [append]; now rewrite append_nil_r].
  - cbn [splitLines append]. destruct (Ascii.eqb c LF).
    + exists l', u, v. split; [now right | assumption].
    + destruct (splitLines (x ++ y)) as [|l0 ls]; [contradiction|].
      destruct Hl' as [<-|Hl'].
      * exists (String c l0), (String c u), v.
        split; [now left | cbn [append]; now rewrite E].
      * exists l', u, v. split; [now right | assumption].
Qed.

Lemma lines_inside a t b l :
  In l (splitLines t) ->
  exists l' u v, In l' (splitLines (a ++ t ++ b)) /\ l' = u ++ l ++ v.
Proof.
  intros Hin.
  destruct (@lines_app_l t b l Hin) as (l1 & u1 & v1 & H1 & E1).
  destruct (@lines_app_r a (t ++ b) l1 H1) as (l2 & u2 & v2 & H2 & E2).
  exists l2, (u2 ++ u1), (v1 ++ v2). split; [assumption|].
  rewrite E2, E1, !append_assoc. reflexivity.
Qed.

(** *** Trimming *)

Lemma trimStart_suffix s : exists a, s = a ++ trimStart s.
Proof.
  induction s as [|c s (a & IH)]; simpl; [now exists EmptyString|].
  destruct (is_space c).
  - exists (String c a). simpl. now rewrite <- IH.
  - now exists EmptyString.
Qed.

Lemma trimEnd_prefix s : exists b, s = trimEnd s ++ b.
Proof.
  induction s as [|c s (b & IH)]; simpl; [now exists EmptyString|].
  destruct (trimEnd s) as [|d t] eqn:E.
  - destruct (is_space c).
    + exists (String c s). reflexivity.
    + exists s. reflexivity.
  - exists b. simpl in *. congruence.
Qed.

Lemma trim_inside s : exists a b, s = a ++ trim s ++ b.
Proof.
  unfold trim. destruct (trimStart_suffix s) as (a & Ha).
  destruct (trimEnd_prefix (trimStart s)) as (b & Hb).
  exists a, b. now rewrite <- Hb.
Qed.

(** *** The reply *)

Lemma default_reply_clean :
  test re_continue_or_stop "Task completed." = false
  /\ test re_would_you_like "Task completed." = false.
Proof. split; vm_compute; reflexivity. Qed.

(** No line of the reply of a run that ends with a response of the
    service matches one of the two patterns that ask the user whether to go
    on. *)
Theorem reply_lines_filtered (content : list block) :
  Forall (fun line =>
            test re_continue_or_stop line = false
            /\ test re_would_you_like line = false)
    (splitLines (finalText content)).
Proof.
  unfold finalText.
  set (L := filter (fun line => negb (test re_would_you_like line))
              (filter (fun line => negb (test re_continue_or_stop line))
                 (splitLines (joinLines (texts content))))).
  assert (HL : forall l, In l L ->
             test re_continue_or_stop l = false
             /\ test re_would_you_like l = false /\ oneLine l = true).
  { intros l Hin. unfold L in Hin.
    apply filter_In in Hin. destruct Hin as [Hin Hb].
    apply filter_In in Hin. destruct Hin as [Hin Ha].
    apply negb_true_iff in Ha, Hb. repeat split; try assumption.
    pose proof (splitLines_oneLine (joinLines (texts content))) as H.
    rewrite Forall_forall in H. now apply H. }
  destruct (truthy (trim (joinLines L))) eqn:Ht.
  - assert (Hne : L <> []).
    { intros E. rewrite E in Ht. discriminate. }
    apply Forall_forall. intros l Hin.
    destruct (trim_inside (joinLines L)) as (a & b & E).
    destruct (@lines_inside a _ b l Hin) as (l' & u & v & Hl' & El').
    rewrite <- E, split_join in Hl'.
    + destruct (HL l' Hl') as (Ha & Hb & _). subst l'. split.
      * destruct (test re_continue_or_stop l) eqn:T; [|reflexivity].
        rewrite (@test_inside re_continue_or_stop u l v) in Ha;
          [discriminate | reflexivity | assumption].
      * destruct (test re_would_you_like l) eqn:T; [|reflexivity].
        rewrite (@test_inside re_would_you_like u l v) in Hb;
          [discriminate | reflexivity | assumption].
    + assumption.
    + apply Forall_forall. intros x Hx. now apply HL.
  - rewrite splitLines_line by reflexivity.
    constructor; [exact default_reply_clean | constructor].
Qed.

End TextFacts.

(* ===================================================================== *)
(** ** Facts about start-up *)
(* ===================================================================== *)

Module StartupFacts.

Import Js Startup StartupProps RegexFacts.

(** *** Limits *)

Lemma floor_cases x :
  floor x = NaN \/ (exists b, floor x = Infinity b)
  \/ exists n, floor x = int n.
Proof.
  destruct x as [|b|n d]; simpl; eauto.
Qed.

Lemma cap_closed_form (stringToNumber : string -> number)
    (cfg : string -> json) :
  MAX_AGENT_ITERATIONS stringToNumber cfg
  = match toNumber stringToNumber (cfg "maxAgentIterations") with
    | NaN => int 25
    | Infinity negative => if negative then int 1 else int 100
    | Ratio n d =>
        int (if (n / Zpos d =? 0)%Z then 25
             else Z.max 1 (Z.min 100 (n / Zpos d)))
    end.
Proof.
  unfold MAX_AGENT_ITERATIONS.
  destruct (toNumber stringToNumber (cfg "maxAgentIterations"))
    as [|[|]|n d]; try reflexivity.
  unfold floor, orElse, truthyNumber, int.
  destruct (Z.eqb_spec (n / Z.pos d) 0) as [E|E]; cbn [negb]; [reflexivity|].
  unfold min, max, leq.
  rewrite !Z.mul_1_r.
  destruct (Z.leb_spec 100 (n / Z.pos d)); cbn [leq];
    rewrite ?Z.mul_1_r, ?Z.mul_1_l.
  - simpl. f_equal. lia.
  - destruct (Z.leb_spec 1 (n / Z.pos d)); f_equal; lia.
Qed.

(** [MAX_AGENT_ITERATIONS] in closed form: a value that [Number] cannot
    read, and a value whose floor is zero, give 25; every other value is
    brought into the range from 1 to 100. *)
Theorem iteration_cap_value (stringToNumber : string -> number)
    (cfg : string -> json) :
  MAX_AGENT_ITERATIONS stringToNumber cfg
  = match toNumber stringToNumber (cfg "maxAgentIterations") with
    | NaN => int 25
    | Infinity negative => if negative then int 1 else int 100
    | Ratio n d =>
        int (if (n / Zpos d =? 0)%Z then 25
             else Z.max 1 (Z.min 100 (n / Zpos d)))
    end.
Proof. apply cap_closed_form. Qed.

Lemma cap_range (stringToNumber : string -> number) (cfg : string -> json) :
  1 <= count (MAX_AGENT_ITERATIONS stringToNumber cfg) <= 100.
Proof.
  rewrite cap_closed_form.
  destruct (toNumber stringToNumber (cfg "maxAgentIterations"))
    as [|[|]|n d]; unfold count, int; try (simpl; lia).
  destruct (n / Z.pos d =? 0)%Z; [simpl; lia|].
  split.
  - change 1 with (Z.to_nat 1). apply Z2Nat.inj_le; lia.
  - change 100 with (Z.to_nat 100). apply Z2Nat.inj_le; lia.
Qed.

(** The retention is at least one hour and the interval between two
    clean-ups at least five minutes, whatever the configuration holds;
    both are whole numbers or infinite. *)
Theorem cleanup_limits (stringToNumber : string -> number)
    (cfg : string -> json) :
  (DATA_RETENTION_HOURS stringToNumber cfg = Infinity false
   \/ exists n,
        DATA_RETENTION_HOURS stringToNumber cfg = int n /\ (1 <= n)%Z)
  /\ (DATA_CLEANUP_INTERVAL_MINUTES stringToNumber cfg = Infinity false
      \/ exists n,
           DATA_CLEANUP_INTERVAL_MINUTES stringToNumber cfg = int n
           /\ (5 <= n)%Z).
Proof.
  unfold DATA_RETENTION_HOURS, DATA_CLEANUP_INTERVAL_MINUTES.
  assert (H : forall lo x dflt,
            (lo <= dflt)%Z ->
            max (int lo) (orElse (floor x) (int dflt)) = Infinity false
            \/ exists n,
                 max (int lo) (orElse (floor x) (int dflt)) = int n
                 /\ (lo <= n)%Z).
  { intros lo x dflt Hd. destruct x as [|[|]|n d]; simpl.
    - right. unfold orElse, max, leq, int. simpl.
      rewrite !Z.mul_1_r. destruct (Z.leb_spec lo dflt); [eauto|lia].
    - right. exists lo. split; [reflexivity|lia].
    - now left.
    - right. unfold orElse, truthyNumber, int.
      destruct (Z.eqb_spec (n / Z.pos d) 0); cbn [negb];
        unfold max, leq; rewrite !Z.mul_1_r.
      + destruct (Z.leb_spec lo dflt); [eauto|lia].
      + destruct (Z.leb_spec lo (n / Z.pos d)); eexists;
          (split; [reflexivity|lia]). }
  split; apply H; lia.
Qed.

(** *** Authorised users *)

Lemma all_impl (f g : ascii -> bool) s :
  (forall c, f c = true -> g c = true) -> all f s = true -> all g s = true.
Proof.
  intros Hfg. induction s as [|c s IH]; simpl; [trivial|].
  intros H. apply andb_true_iff in H. destruct H as [Hc Hs].
  now rewrite (Hfg c Hc), IH.
Qed.

Lemma all_trimStart f s : all f s = true -> all f (trimStart s) = true.
Proof.
  induction s as [|c s IH]; simpl; [trivial|].
  intros H. destruct (is_space c); [|exact H].
  apply andb_true_iff in H. now apply IH.
Qed.

Lemma all_trimEnd f s : all f s = true -> all f (trimEnd s) = true.
Proof.
  induction s as [|c s IH]; simpl; [trivial|].
  intros H. apply andb_true_iff in H. destruct H as [Hc Hs].
  specialize (IH Hs). destruct (trimEnd s) as [|d t].
  - destruct (is_space c); simpl; [reflexivity | now rewrite Hc].
  - simpl in *. now rewrite Hc, IH.
Qed.

Lemma all_trim f s : all f s = true -> all f (trim s) = true.
Proof. intros H. unfold trim. now apply all_trimEnd, all_trimStart. Qed.

Lemma trimStart_no_space s :
  all (Regex.non is_space) s = true -> trimStart s = s.
Proof.
  destruct s as [|c s]; simpl; [reflexivity|].
  intros H. apply andb_true_iff in H. destruct H as [Hc _].
  unfold Regex.non in Hc. apply negb_true_iff in Hc. now rewrite Hc.
Qed.

Lemma trim_no_space s : all (Regex.non is_space) s = true -> trim s = s.
Proof.
  intros H. unfold trim. rewrite trimStart_no_space by assumption.
  now apply trimEnd_no_space.
Qed.

Lemma trim_blank s : all is_space s = true -> trim s = EmptyString.
Proof.
  unfold trim. induction s as [|c s IH]; simpl; [reflexivity|].
  intros H. apply andb_true_iff in H. destruct H as [Hc Hs].
  rewrite Hc. now apply IH.
Qed.

Lemma split_cons sep s : exists l ls, split sep s = l :: ls.
Proof.
  induction s as [|c s (l & ls & IH)]; cbn [split]; [eauto|].
  destruct (Ascii.eqb c sep); [eauto|]. rewrite IH. eauto.
Qed.

(** The items of a split hold the characters of the text that are not the
    separator. *)
Lemma split_items f sep s :
  all f s = true ->
  Forall (fun l => all (fun c => f c && negb (Ascii.eqb c sep)) l = true)
    (split sep s).
Proof.
  induction s as [|c s IH]; cbn [split all]; [repeat constructor|].
  intros H. apply andb_true_iff in H. destruct H as [Hc Hs].
  specialize (IH Hs). destruct (Ascii.eqb c sep) eqn:E.
  - constructor; [reflexivity | assumption].
  - destruct (split sep s) as [|l ls].
    + repeat constructor. cbn [all]. now rewrite Hc, E.
    + inversion IH; subst. constructor; [|assumption].
      cbn [all]. now rewrite Hc, E.
Qed.

Lemma split_item sep l :
  all (fun c => negb (Ascii.eqb c sep)) l = true -> split sep l = [l].
Proof.
  induction l as [|c l IH]; cbn [split all]; [reflexivity|].
  intros H. apply andb_true_iff in H. destruct H as [Hc Hl].
  apply negb_true_iff in Hc. rewrite Hc, IH by assumption. reflexivity.
Qed.

Lemma split_first sep l rest :
  all (fun c => negb (Ascii.eqb c sep)) l = true ->
  split sep (l ++ String sep rest) = l :: split sep rest.
Proof.
  induction l as [|c l IH]; cbn [split all append].
  - intros _. now rewrite Ascii.eqb_refl.
  - intros H. apply andb_true_iff in H. destruct H as [Hc Hl].
    apply negb_true_iff in Hc. rewrite Hc, IH by assumption. reflexivity.
Qed.

Lemma split_concat sep ls :
  ls <> [] ->
  Forall (fun l => all (fun c => negb (Ascii.eqb c sep)) l = true) ls ->
  split sep (String.concat (String sep EmptyString) ls) = ls.
Proof.
  induction ls as [|l ls IH]; intros Hne H; [contradiction|].
  inversion H as [|? ? Hl Hls]; subst.
  destruct ls as [|l2 ls].
  - cbn [String.concat]. now apply split_item.
  - change (String.concat (String sep EmptyString) (l :: l2 :: ls))
      with (l ++ String sep (String.concat (String sep EmptyString)
                               (l2 :: ls))).
    rewrite split_first by assumption.
    rewrite IH; [reflexivity | discriminate | assumption].
Qed.

(** A list of identifiers separated by commas is read back as it is. *)
Theorem ids_read_back (ids : list string) (AUTHORIZED_USER_ID : option string) :
  ids <> [] ->
  forallb plainId ids = true ->
  authorizedUserIds (Some (String.concat "," ids)) AUTHORIZED_USER_ID = ids.
Proof.
  intros Hne Hall. rewrite forallb_forall in Hall.
  assert (Hns : forall u, In u ids -> all (Regex.non is_space) u = true).
  { intros u Hu. specialize (Hall u Hu). unfold plainId in Hall.
    apply andb_true_iff in Hall. destruct Hall as [_ Hall].
    eapply all_impl; [|exact Hall]. intros c Hc.
    apply andb_true_iff in Hc. now destruct Hc. }
  assert (Hnc : Forall (fun l => all (fun c => negb (Ascii.eqb c ",")) l = true)
                  ids).
  { apply Forall_forall. intros u Hu. specialize (Hall u Hu).
    unfold plainId in Hall.
    apply andb_true_iff in Hall. destruct Hall as [_ Hall].
    eapply all_impl; [|exact Hall]. intros c Hc.
    apply andb_true_iff in Hc. now destruct Hc. }
  assert (Hj : all (Regex.non is_space) (String.concat "," ids) = true).
  { clear Hne Hall Hnc. induction ids as [|u ids IH]; [reflexivity|].
    destruct ids as [|u2 ids].
    - apply Hns. now left.
    - change (String.concat "," (u :: u2 :: ids))
        with (u ++ "," ++ String.concat "," (u2 :: ids)).
      rewrite !all_append, (Hns u (or_introl eq_refl)), IH; [reflexivity|].
      intros v Hv. apply Hns. now right. }
  assert (Ht : truthy (String.concat "," ids) = true).
  { destruct ids as [|u ids]; [contradiction|].
    specialize (Hall u (or_introl eq_refl)). unfold plainId in Hall.
    apply andb_true_iff in Hall. destruct Hall as [Hu _].
    destruct u as [|c u]; [discriminate|]. now destruct ids. }
  unfold authorizedUserIds. cbn [orEmpty].
  rewrite trim_no_space by assumption. rewrite Ht.
  rewrite (@split_concat "," ids Hne Hnc).
  clear Hne Hnc Hj Ht.
  induction ids as [|u ids IH]; [reflexivity|].
  cbn [map filter]. rewrite trim_no_space by (apply Hns; now left).
  assert (Hu : truthy u = true).
  { specialize (Hall u (or_introl eq_refl)). unfold plainId in Hall.
    apply andb_true_iff in Hall. now destruct Hall. }
  rewrite Hu, IH; [reflexivity | |].
  - intros v Hv. apply Hall. now right.
  - intros v Hv. apply Hns. now right.
Qed.

Lemma ids_read_back_witness :
  authorizedUserIds (Some (String.concat "," ["1001"; "1002"])) None
  = ["1001"; "1002"].
Proof.
  apply (@ids_read_back ["1001"; "1002"] None).
  - discriminate.
  - reflexivity.
Defined.

(** When [AUTHORIZED_USER_IDS] holds commas and white space only, but
    something that survives trimming, the list is empty even if
    [AUTHORIZED_USER_ID] names a user, and then nobody is turned away. *)
Theorem separators_only_admit_everyone (AUTHORIZED_USER_IDS : string)
    (AUTHORIZED_USER_ID : option string) (userId : string) :
  truthy (trim AUTHORIZED_USER_IDS) = true ->
  onlySeparators AUTHORIZED_USER_IDS = true ->
  authorizedUserIds (Some AUTHORIZED_USER_IDS) AUTHORIZED_USER_ID = []
  /\ unauthorized
       (authorizedUserIds (Some AUTHORIZED_USER_IDS) AUTHORIZED_USER_ID)
       userId = false.
Proof.
  intros Ht Hsep.
  assert (E : authorizedUserIds (Some AUTHORIZED_USER_IDS) AUTHORIZED_USER_ID
              = []).
  { unfold authorizedUserIds. cbn [orEmpty]. rewrite Ht.
    pose proof (split_items _ "," _ (all_trim _ _ Hsep)) as Hitems.
    induction Hitems as [|l ls Hl _ IH]; [reflexivity|].
    cbn [map filter]. rewrite trim_blank; [exact IH|].
    eapply all_impl; [|exact Hl]. intros c Hc. cbn beta in Hc.
    apply andb_true_iff in Hc. destruct Hc as [Hc Hn].
    apply negb_true_iff in Hn. rewrite Hn, orb_false_r in Hc. exact Hc. }
  split; [exact E|]. rewrite E. reflexivity.
Qed.

Lemma separators_only_admit_everyone_witness :
  authorizedUserIds (Some " , ") (Some "1001") = []
  /\ unauthorized (authorizedUserIds (Some " , ") (Some "1001")) "666"
     = false.
Proof.
  apply (@separators_only_admit_everyone " , " (Some "1001") "666");
    reflexivity.
Defined.

(** *** The cap of a configured run *)

Import Orchestrator Props.

(** Whatever [config.json] holds, a run makes at most 202 requests to the
    reasoning service and returns a history at most 201 messages longer
    than the one it was given. *)
Theorem configured_run_bounded (W : Type)
    (create : option N -> list message -> W -> (string + response) * W)
    (runTool : string -> tool_input -> W -> (string + Dispatcher.result) * W)
    (stringToNumber : string -> number) (raw : option object)
    (messages : list message) (chatId : nat) (o : options) (st : state W)
    (out : string + run_result) (st' : state W) :
  processWithClaude create runTool
    (count (MAX_AGENT_ITERATIONS stringToNumber (loadConfig raw)))
    (STOP_AFTER_SUCCESSFUL_BROWSE (loadConfig raw))
    messages chatId o st = (out, st') ->
  exists res added,
    out = inr res
    /\ trace st' = (trace st ++ added)%list
    /\ length (requests added) <= 202
    /\ length (updatedMessages res) <= length messages + 201.
Proof.
  rewrite RunFacts.run_of_attempt. intros H.
  pose proof (cap_range stringToNumber (loadConfig raw)) as Hcap.
  destruct (attempt create runTool
              (count (MAX_AGENT_ITERATIONS stringToNumber (loadConfig raw)))
              (STOP_AFTER_SUCCESSFUL_BROWSE (loadConfig raw))
              messages chatId o st) as [[msg|res] st1] eqn:Ha;
    destruct (RunFacts.attempt_run _ _ _ _ _ _ _ _ Ha)
      as (a & Htr & _ & _ & Hr & _ & _ & Ho);
    inversion H; subst; do 2 eexists;
    (split; [reflexivity|]); (split; [eassumption|]);
    (split; [lia|]).
  - simpl. lia.
  - destruct Ho as [Hlen _]. lia.
Qed.

Lemma configured_run_bounded_witness :
  exists res added,
    fst (processWithClaude RunScenarios.oneScreenshot Scenarios.succeeding
           (count (MAX_AGENT_ITERATIONS (fun _ => NaN) (loadConfig None)))
           (STOP_AFTER_SUCCESSFUL_BROWSE (loadConfig None))
           Scenarios.hello 7 Scenarios.stepByStep Scenarios.start)
    = inr res
    /\ trace (snd (processWithClaude RunScenarios.oneScreenshot
                     Scenarios.succeeding
                     (count (MAX_AGENT_ITERATIONS (fun _ => NaN)
                               (loadConfig None)))
                     (STOP_AFTER_SUCCESSFUL_BROWSE (loadConfig None))
                     Scenarios.hello 7 Scenarios.stepByStep Scenarios.start))
       = (trace Scenarios.start ++ added)%list
    /\ length (requests added) <= 202
    /\ length (updatedMessages res) <= length Scenarios.hello + 201.
Proof.
  exact (@configured_run_bounded nat RunScenarios.oneScreenshot
           Scenarios.succeeding (fun _ => NaN) None Scenarios.hello 7
           Scenarios.stepByStep Scenarios.start _ _ (surjective_pairing _)).
Defined.

End StartupFacts.

(* ===================================================================== *)
(** ** Further facts about the dispatcher *)
(* ===================================================================== *)

Module DispatcherMore.

Import Js Regex Dispatcher Props DispatcherProps RegexFacts DispatcherFacts.

(** *** Scripts *)

Lemma detectShell_values i :
  schemaShell (AnyInput.shell i) = true ->
  settledShell i = inr (AnyInput.VString "powershell")
  \/ settledShell i = inr (AnyInput.VString "bash")
  \/ settledShell i = inr (AnyInput.VString "cmd")
  \/ (settledShell i = inl "command.includes is not a function"
      /\ pinnedShell i = false
      /\ flagged i = false
      /\ (readable (AnyInput.script i) = false
          \/ (AnyInput.shouldUsePowerShell (AnyInput.script i) = inr false
              /\ readable (AnyInput.command i) = false))).
Proof.
  destruct i as [command script shell file_path use_powershell].
  unfold schemaShell, settledShell, pinnedShell, flagged.
  cbn [AnyInput.shell AnyInput.command AnyInput.script
       AnyInput.use_powershell].
  intros H.
  assert (Hshell :
    (AnyInput.truthy shell && negb (AnyInput.same shell "auto") = false
     /\ AnyInput.detectShell (AnyInput.orDefault shell (AnyInput.VString "auto"))
          command script use_powershell
        = AnyInput.detectShell (AnyInput.VString "auto") command script
            use_powershell)
    \/ exists s,
         (s = "powershell" \/ s = "bash" \/ s = "cmd")
         /\ AnyInput.detectShell
              (AnyInput.orDefault shell (AnyInput.VString "auto"))
              command script use_powershell
            = inr (AnyInput.VString s)).
  { destruct shell as [| | | |s| |]; try discriminate; [left; split; reflexivity|].
    destruct (String.eqb_spec s "auto") as [->|_]; [left; split; reflexivity|].
    destruct (String.eqb_spec s "cmd") as [->|_]; [right; eauto|].
    destruct (String.eqb_spec s "powershell") as [->|_]; [right; eauto|].
    destruct (String.eqb_spec s "bash") as [->|_]; [right; eauto|].
    simpl in H. apply String.eqb_eq in H. subst s. left. split; reflexivity. }
  destruct Hshell as [[Hp Hd]|(s & Hs & Hd)]; rewrite Hd;
    [|destruct Hs as [Hs|[Hs|Hs]]; subst s; auto].
  clear Hd. unfold AnyInput.detectShell. cbn [AnyInput.truthy Js.truthy andb].
  assert (Hany :
    match AnyInput.looksLikePowerShell script with
    | inl message => inl message
    | inr true => inr (AnyInput.VString "powershell")
    | inr false =>
        match AnyInput.looksLikePowerShell command with
        | inl message => inl message
        | inr true => inr (AnyInput.VString "powershell")
        | inr false => inr (AnyInput.VString "cmd")
        end
    end = inr (AnyInput.VString "powershell")
    \/ match AnyInput.looksLikePowerShell script with
       | inl message => inl message
       | inr true => inr (AnyInput.VString "powershell")
       | inr false =>
           match AnyInput.looksLikePowerShell command with
           | inl message => inl message
           | inr true => inr (AnyInput.VString "powershell")
           | inr false => inr (AnyInput.VString "cmd")
           end
       end = inr (AnyInput.VString "cmd")
    \/ (match AnyInput.looksLikePowerShell script with
        | inl message => inl message
        | inr true => inr (AnyInput.VString "powershell")
        | inr false =>
            match AnyInput.looksLikePowerShell command with
            | inl message => inl message
            | inr true => inr (AnyInput.VString "powershell")
            | inr false => inr (AnyInput.VString "cmd")
            end
        end = inl "command.includes is not a function"
        /\ (readable script = false
            \/ (AnyInput.shouldUsePowerShell script = inr false
                /\ readable command = false)))).
  { destruct (readable script) eqn:Hrs.
    - destruct (AnyInputFacts.readable_looks _ Hrs) as (b & Hb).
      assert (Hsb : AnyInput.shouldUsePowerShell script = inr b).
      { revert Hb. unfold AnyInput.looksLikePowerShell,
          AnyInput.shouldUsePowerShell.
        destruct (AnyInput.truthy script); simpl; auto. }
      rewrite Hb. destruct b; [auto|].
      destruct (readable command) eqn:Hrc.
      + destruct (AnyInputFacts.readable_looks _ Hrc) as ([|] & ->); auto.
      + rewrite (AnyInputFacts.unreadable_looks _ Hrc). auto 10.
    - rewrite (AnyInputFacts.unreadable_looks _ Hrs). auto 10. }
  destruct use_powershell as [| |[|]| | | |]; auto;
    (destruct Hany as [->|[->|[-> Hwhy]]]; auto;
     right; right; right; auto).
Qed.

(** A script whose shell hint is one the tool schema allows, and for which
    the input names no file, is written to a temporary file with the
    extension of the interpreter that will run it, and the command of the
    same input is not run.  The one exception: no shell is pinned, the
    script does not send the shell heuristic to PowerShell, and the command
    is a value that the heuristic cannot read; then the message of the
    exception is handed back and nothing is written. *)
Theorem script_extension_fits chromeExe i :
  AnyInput.nonEmptyString (AnyInput.script i) = true ->
  schemaShell (AnyInput.shell i) = true ->
  AnyInput.file_path i = None ->
  (exists via,
     AnyInput.executeCommand chromeExe i
     = RunScript via (AnyInput.text (AnyInput.script i)) (extensionOf via)
         None)
  \/ (AnyInput.executeCommand chromeExe i
      = Return (failure "command.includes is not a function")
      /\ pinnedShell i = false
      /\ flagged i = false
      /\ AnyInput.shouldUsePowerShell (AnyInput.script i) = inr false
      /\ readable (AnyInput.command i) = false).
Proof.
  intros Hs Hh Hfile. unfold AnyInput.executeCommand. fold (settledShell i).
  rewrite Hfile.
  assert (Hrs : readable (AnyInput.script i) = true).
  { revert Hs. destruct (AnyInput.script i); try discriminate.
    intros _. apply orb_true_r. }
  destruct (detectShell_values i Hh) as [E|[E|[E|(E & Hp & Hf & Hwhy)]]];
    rewrite E; try rewrite Hs; cbn [negb andb].
  - left. now exists ViaPowerShell.
  - left. now exists ViaBash.
  - left. now exists ViaCmd.
  - right. destruct Hwhy as [Hwhy|[Hsc Hc]]; [congruence|]. auto.
Qed.

(** *** What reaches [cmd.exe] *)

Lemma runCommandText_cmd sh c c' :
  AnyInput.runCommandText sh c = RunCommand ViaCmd c' ->
  c' = c
  /\ test re_start_bare (trim c) = false
  /\ test re_start_empty_title (trim c) = false.
Proof.
  unfold AnyInput.runCommandText.
  destruct (AnyInput.interpreterOf sh); try discriminate.
  destruct (test re_start_bare (trim c) || test re_start_empty_title (trim c))
    eqn:E; [discriminate|].
  apply orb_false_iff in E. destruct E as [E1 E2].
  intros H. inversion H; subst. auto.
Qed.

Lemma guardCmd_cmd chromeExe c c' :
  guardCmd chromeExe c = RunCommand ViaCmd c' ->
  test re_start_bare (trim c') = false
  /\ test re_start_empty_title (trim c') = false.
Proof.
  unfold guardCmd.
  destruct (didTryChrome (rewriteStartChrome chromeExe c)); [discriminate|].
  match goal with
  | |- (if ?b then _ else _) = _ -> _ => destruct b; [discriminate|]
  end.
  match goal with
  | |- match normalizeCmdStart ?x with _ => _ end = _ -> _ =>
      destruct (normalizeCmdStart x) as [reason|c1|c1]; [discriminate| |]
  end;
    match goal with
    | |- (if ?b then _ else _) = _ -> _ => destruct b; [discriminate|]
    end;
    intros H;
    rewrite <- (AnyInputFacts.runCommandText_declared "cmd") in H;
    apply runCommandText_cmd in H; destruct H as (-> & H1 & H2);
    auto.
Qed.

(** Whatever the input, a command line that is handed to [cmd.exe] is not
    a bare [start], and not a [start] followed only by an empty pair of
    quotes. *)
Theorem no_bare_start_reaches_cmd chromeExe i c :
  AnyInput.executeCommand chromeExe i = RunCommand ViaCmd c ->
  test re_start_bare (trim c) = false
  /\ test re_start_empty_title (trim c) = false.
Proof.
  unfold AnyInput.executeCommand. fold (settledShell i).
  destruct (settledShell i) as [message|effectiveShell]; [discriminate|].
  destruct (negb (AnyInput.nonEmptyString (AnyInput.script i))
            && negb (AnyInput.nonEmptyString (AnyInput.command i)));
    [discriminate|].
  destruct (AnyInput.nonEmptyString (AnyInput.script i)); [discriminate|].
  destruct (AnyInput.same effectiveShell "cmd").
  - apply guardCmd_cmd.
  - intros H. apply runCommandText_cmd in H. destruct H as (-> & H1 & H2).
    auto.
Qed.

Lemma no_bare_start_reaches_cmd_witness :
  test re_start_bare (trim "dir /b") = false
  /\ test re_start_empty_title (trim "dir /b") = false.
Proof.
  apply (@no_bare_start_reaches_cmd Scenarios.chrome
           (Scenarios.onlyCommand (AnyInput.VString "dir /b")) "dir /b").
  vm_compute. reflexivity.
Defined.

Lemma script_extension_fits_witness :
  let input :=
    {| AnyInput.command := AnyInput.VString "dir";
       AnyInput.script := AnyInput.VString "Get-Process | Out-String";
       AnyInput.shell := AnyInput.VUndefined;
       AnyInput.file_path := None;
       AnyInput.use_powershell := AnyInput.VUndefined |} in
  (exists via,
     AnyInput.executeCommand Scenarios.chrome input
     = RunScript via "Get-Process | Out-String" (extensionOf via) None)
  \/ (AnyInput.executeCommand Scenarios.chrome input
      = Return (failure "command.includes is not a function")
      /\ pinnedShell input = false
      /\ flagged input = false
      /\ AnyInput.shouldUsePowerShell (AnyInput.script input) = inr false
      /\ readable (AnyInput.command input) = false).
Proof.
  intros input.
  apply (@script_extension_fits Scenarios.chrome input); reflexivity.
Defined.

(** *** The detached Chrome launcher *)

Lemma toLowerCase_append a b :
  toLowerCase (a ++ b) = toLowerCase a ++ toLowerCase b.
Proof. induction a as [|c a IH]; simpl; [reflexivity | now rewrite IH]. Qed.

Lemma Match_mentions w r :
  Mentions w r ->
  forall p x s, Match r p x s ->
  exists a y b, x = a ++ y ++ b /\ toLowerCase y = toLowerCase w.
Proof.
  induction 1 as [|a b _ IH|a b _ IH|a b _ IHa _ IHb]; intros p x s HM.
  - apply Match_liti in HM. exists EmptyString, x, EmptyString.
    split; [simpl; now rewrite append_nil_r | assumption].
  - apply Match_cat in HM. destruct HM as (w1 & w2 & -> & H1 & _).
    destruct (IH _ _ _ H1) as (a' & y & b' & -> & Hy).
    exists a', y, (b' ++ w2). split; [now rewrite !append_assoc | assumption].
  - apply Match_cat in HM. destruct HM as (w1 & w2 & -> & _ & H2).
    destruct (IH _ _ _ H2) as (a' & y & b' & -> & Hy).
    exists (w1 ++ a'), y, b'. split; [now rewrite !append_assoc | assumption].
  - inversion HM; subst; [now apply IHa with p s | now apply IHb with p s].
Qed.

Lemma test_mentions w r t :
  Mentions w r -> test r t = true ->
  includes (toLowerCase w) (toLowerCase t) = true.
Proof.
  intros Hm H. apply test_spec in H. destruct H as (a & x & b & -> & HM).
  destruct (Match_mentions Hm HM) as (a' & y & b' & -> & Hy).
  apply includes_spec. exists (toLowerCase (a ++ a')), (toLowerCase (b' ++ b)).
  rewrite <- Hy, !toLowerCase_append, !append_assoc. reflexivity.
Qed.

Lemma exec_test r t ms : exec r t = Some ms -> test r t = true.
Proof. unfold test. now intros ->. Qed.

Lemma mentions_chrome_exe t :
  includes "chrome.exe" t = true -> includes "chrome" t = true.
Proof.
  intros H. apply includes_spec in H. destruct H as (a & b & ->).
  apply includes_spec. now exists a, (".exe" ++ b).
Qed.

Lemma mentions_in_trim w c :
  includes w (toLowerCase (trim c)) = true ->
  includes w (toLowerCase c) = true.
Proof.
  intros H. apply includes_spec in H. destruct H as (a & b & E).
  destruct (TextFacts.trim_inside c) as (u & v & Hc).
  apply includes_spec. exists (toLowerCase u ++ a), (b ++ toLowerCase v).
  rewrite Hc at 1. rewrite !toLowerCase_append, E, !append_assoc.
  reflexivity.
Qed.

Lemma start_title_chrome_exe_mentions :
  Mentions "chrome.exe" re_start_title_chrome_exe.
Proof. do 6 apply mentions_later. apply mentions_here. Qed.

Lemma drive_chrome_exe_mentions : Mentions "chrome.exe" re_drive_chrome_exe.
Proof. do 4 apply mentions_later. apply mentions_here. Qed.

Lemma start_chrome_mentions : Mentions "chrome" re_start_chrome.
Proof.
  do 3 apply mentions_later. apply mentions_first. apply mentions_here.
Qed.

Lemma start_title_chrome_mentions : Mentions "chrome" re_start_title_chrome.
Proof.
  do 5 apply mentions_later. apply mentions_first. apply mentions_here.
Qed.

Lemma chrome_mentions : Mentions "chrome" re_chrome.
Proof. apply mentions_later, mentions_first, mentions_here. Qed.

Lemma chrome_exe_mentions : Mentions "chrome.exe" re_chrome_exe.
Proof. apply mentions_later, mentions_first, mentions_here. Qed.

Lemma tried_mentions chromeExe c :
  didTryChrome (rewriteStartChrome chromeExe c) = true ->
  includes "chrome" (toLowerCase c) = true.
Proof.
  intros H. apply mentions_in_trim. revert H. unfold rewriteStartChrome.
  destruct (negb (truthy (trim c))); [discriminate|].
  destruct (test re_start_title_chrome_exe (trim c)) eqn:T1.
  { intros _. apply mentions_chrome_exe.
    exact (@test_mentions _ _ _ start_title_chrome_exe_mentions T1). }
  destruct (startsWith "start " (trim c) && test re_drive_chrome_exe (trim c))
    eqn:T2.
  { intros _. apply andb_true_iff in T2. destruct T2 as [_ T2].
    apply mentions_chrome_exe.
    exact (@test_mentions _ _ _ drive_chrome_exe_mentions T2). }
  cbn [orb].
  destruct (exec re_start_chrome (trim c)) eqn:E3.
  { intros _.
    exact (@test_mentions _ _ _ start_chrome_mentions
             (@exec_test _ _ _ E3)). }
  destruct (exec re_start_title_chrome (trim c)) eqn:E4.
  { intros _.
    exact (@test_mentions _ _ _ start_title_chrome_mentions
             (@exec_test _ _ _ E4)). }
  destruct (exec re_chrome (trim c)) eqn:E5; [|discriminate].
  intros _.
  exact (@test_mentions _ _ _ chrome_mentions (@exec_test _ _ _ E5)).
Qed.

Lemma guardCmd_launch chromeExe c c' :
  guardCmd chromeExe c = LaunchChromeDetached c' ->
  includes "chrome" (toLowerCase c) = true.
Proof.
  unfold guardCmd.
  destruct (didTryChrome (rewriteStartChrome chromeExe c)) eqn:Ht.
  - intros _. now apply tried_mentions with chromeExe.
  - rewrite (changed_tried _ _ Ht).
    destruct (test re_chrome_exe c) eqn:Tc.
    + intros _. apply mentions_chrome_exe.
      exact (@test_mentions _ _ _ chrome_exe_mentions Tc).
    + cbn [andb]. destruct (normalizeCmdStart c) as [reason|c1|c1];
        [discriminate| |];
        match goal with
        | |- (if ?b then _ else _) = _ -> _ => destruct b; [discriminate|]
        end;
        unfold runCommandText; cbn [interpreterOf String.eqb Ascii.eqb Bool.eqb];
        match goal with
        | |- (if ?b then _ else _) = _ -> _ => destruct b; discriminate
        end.
Qed.

(** A call reaches the detached Chrome launcher only in command mode, under
    the shell [cmd], and for a command that holds the word [chrome] in some
    letter case. *)
Theorem chrome_launch_names_chrome chromeExe i c :
  AnyInput.executeCommand chromeExe i = LaunchChromeDetached c ->
  AnyInput.nonEmptyString (AnyInput.script i) = false
  /\ settledShell i = inr (AnyInput.VString "cmd")
  /\ (exists text,
        AnyInput.command i = AnyInput.VString text
        /\ includes "chrome" (toLowerCase text) = true).
Proof.
  unfold AnyInput.executeCommand. fold (settledShell i).
  destruct (settledShell i) as [message|effectiveShell]; [discriminate|].
  destruct (AnyInput.nonEmptyString (AnyInput.command i)) eqn:Hc.
  2:{ rewrite andb_false_r || idtac.
      destruct (AnyInput.nonEmptyString (AnyInput.script i)); discriminate. }
  rewrite andb_false_r.
  destruct (AnyInput.nonEmptyString (AnyInput.script i)); [discriminate|].
  destruct (AnyInput.command i) as [| | | |text| |]; try discriminate.
  cbn [AnyInput.text].
  destruct effectiveShell as [| | | |s| |]; cbn [AnyInput.same];
    try (unfold AnyInput.runCommandText, AnyInput.interpreterOf;
         cbn [AnyInput.same];
         match goal with
         | |- (if ?b then _ else _) = _ -> _ => destruct b; discriminate
         end).
  destruct (String.eqb_spec s "cmd") as [->|E].
  - intros H. apply guardCmd_launch in H. eauto.
  - unfold AnyInput.runCommandText.
    destruct (AnyInput.interpreterOf (AnyInput.VString s)); try discriminate.
    match goal with
    | |- (if ?b then _ else _) = _ -> _ => destruct b; discriminate
    end.
Qed.

Lemma chrome_launch_names_chrome_witness :
  AnyInput.nonEmptyString
    (AnyInput.script
       (Scenarios.onlyCommand
          (AnyInput.VString "start chrome https://example.com")))
  = false
  /\ settledShell
       (Scenarios.onlyCommand
          (AnyInput.VString "start chrome https://example.com"))
     = inr (AnyInput.VString "cmd")
  /\ (exists text,
        AnyInput.command
          (Scenarios.onlyCommand
             (AnyInput.VString "start chrome https://example.com"))
        = AnyInput.VString text
        /\ includes "chrome" (toLowerCase text) = true).
Proof.
  apply (@chrome_launch_names_chrome Scenarios.chrome
           (Scenarios.onlyCommand
              (AnyInput.VString "start chrome https://example.com"))
           (rw_command (rewriteStartChrome Scenarios.chrome
                          "start chrome https://example.com"))).
  vm_compute. reflexivity.
Defined.

End DispatcherMore.

(* ===================================================================== *)
(** ** Facts about the healer *)
(* ===================================================================== *)

Module HealerFacts.

Import Js Healer.

Lemma session_after_run calls st :
  ran st = true ->
  session calls st = (map (fun _ => alreadyRan) calls, st).
Proof.
  intros H. induction calls as [|m calls IH]; [reflexivity|].
  cbn [session map]. unfold runHealer. rewrite H, IH. reflexivity.
Qed.

Lemma session_app calls1 calls2 st :
  session (calls1 ++ calls2) st
  = let (rs1, st1) := session calls1 st in
    let (rs2, st2) := session calls2 st1 in
    ((rs1 ++ rs2)%list, st2).
Proof.
  revert st. induction calls1 as [|m calls1 IH]; intros st; cbn [session app].
  - now destruct (session calls2 st).
  - destruct (runHealer m st) as [r st']. rewrite IH.
    destruct (session calls1 st') as [rs1 st1].
    now destruct (session calls2 st1).
Qed.

Lemma session_not_run calls :
  ran (snd (session calls fresh)) = false ->
  session calls fresh = (map (fun _ => notFound) calls, fresh).
Proof.
  induction calls as [|m calls IH]; [reflexivity|].
  cbn [session map]. unfold runHealer. cbn [ran fresh].
  destruct (healExists m); cbn [negb].
  - rewrite session_after_run by reflexivity. discriminate.
  - destruct (session calls fresh) as [rs st] eqn:E. cbn [snd].
    intros H. specialize (IH H). inversion IH; subst. reflexivity.
Qed.

Lemma session_not_found calls :
  forallb (fun m => negb (healExists m)) calls = true ->
  session calls fresh = (map (fun _ => notFound) calls, fresh).
Proof.
  induction calls as [|m calls IH]; [reflexivity|].
  cbn [forallb]. intros H. apply andb_true_iff in H. destruct H as [Hm H].
  cbn [session map]. unfold runHealer. cbn [ran fresh].
  rewrite Hm, (IH H). reflexivity.
Qed.

(** In calls that follow one another, the calls before the first one that
    finds [heal.ps1] are answered by the failure that names the missing
    file, that call starts the script, and every later call is answered by
    the notice that the healer has run, which reports success whatever the
    run came to; the script is started once. *)
Theorem healer_runs_once (before : list machine) (m : machine)
    (after : list machine) :
  forallb (fun b => negb (healExists b)) before = true ->
  healExists m = true ->
  session (before ++ m :: after) fresh
  = ((map (fun _ => notFound) before
      ++ outcome (powershell m) :: map (fun _ => alreadyRan) after)%list,
     {| ran := true; started := 1 |})
  /\ success alreadyRan = true.
Proof.
  intros Hb Hm. split; [|reflexivity].
  rewrite session_app, (session_not_found _ Hb).
  cbn [session]. unfold runHealer at 1. cbn [ran fresh]. rewrite Hm.
  cbn [negb]. rewrite session_after_run by reflexivity. reflexivity.
Qed.

Lemma healer_runs_once_witness :
  session
    ([{| healExists := false;
         powershell := {| stdout := EmptyString; stderr := EmptyString;
                          ends := TimedOut |} |}]
     ++ {| healExists := true;
           powershell := {| stdout := "ok"; stderr := EmptyString;
                            ends := Closed (Some 1%Z) |} |}
     :: [{| healExists := true;
            powershell := {| stdout := "ok"; stderr := EmptyString;
                             ends := Closed (Some 0%Z) |} |}])
    fresh
  = ((map (fun _ => notFound)
        [{| healExists := false;
            powershell := {| stdout := EmptyString; stderr := EmptyString;
                             ends := TimedOut |} |}]
      ++ outcome {| stdout := "ok"; stderr := EmptyString;
                    ends := Closed (Some 1%Z) |}
      :: map (fun _ => alreadyRan)
           [{| healExists := true;
               powershell := {| stdout := "ok"; stderr := EmptyString;
                                ends := Closed (Some 0%Z) |} |}])%list,
     {| ran := true; started := 1 |})
  /\ success alreadyRan = true.
Proof.
  apply (@healer_runs_once
           [{| healExists := false;
               powershell := {| stdout := EmptyString; stderr := EmptyString;
                                ends := TimedOut |} |}]
           {| healExists := true;
              powershell := {| stdout := "ok"; stderr := EmptyString;
                               ends := Closed (Some 1%Z) |} |}
           [{| healExists := true;
               powershell := {| stdout := "ok"; stderr := EmptyString;
                                ends := Closed (Some 0%Z) |} |}]);
    reflexivity.
Defined.

(** Whatever the calls find, in calls that follow one another the script
    is started at most once, and it has been started exactly when the flag
    is set. *)
Theorem healer_started_at_most_once (calls : list machine) :
  started (snd (session calls fresh))
  = if ran (snd (session calls fresh)) then 1 else 0.
Proof.
  destruct (ran (snd (session calls fresh))) eqn:Hr.
  - revert Hr. induction calls as [|m calls IH]; [discriminate|].
    cbn [session]. unfold runHealer. cbn [ran fresh].
    destruct (healExists m); cbn [negb].
    + rewrite session_after_run by reflexivity. reflexivity.
    + destruct (session calls fresh) as [rs st]. exact IH.
  - now rewrite (session_not_run _ Hr).
Qed.

End HealerFacts.

(* ===================================================================== *)
(** ** Facts about the clean-up *)
(* ===================================================================== *)

Module CleanupFacts.

Import Js Startup Cleanup.

Section Walks.

Variable cutoffMs : number.
Variable isDataDir underDataDir : path -> bool.

Local Abbreviation visit := (visit cutoffMs isDataDir underDataDir).
Local Abbreviation walk := (walk cutoffMs isDataDir underDataDir).
Local Abbreviation justified := (justified cutoffMs isDataDir underDataDir).

Lemma walk_Entry dir name x rest :
  walk dir (Entry name x rest)
  = let (x', l1) := visit (dir ++ [name])%list x in
    let (rest', l2) := walk dir rest in
    (match x' with
     | Some y => Entry name y rest'
     | None => rest'
     end, (l1 ++ l2)%list).
Proof. reflexivity. Qed.

Lemma visit_eq fullPath e :
  visit fullPath e
  = if isDataDir fullPath then (Some e, [])
    else
      match e with
      | Unreadable => (Some e, [])
      | SymbolicLink => (Some e, [])
      | Directory mtimeMs reads rereads removes entries =>
          let (remaining, log) :=
            if reads then walk fullPath entries else (entries, []) in
          if rereads && isEmpty remaining && lt mtimeMs cutoffMs && removes
          then (None, (log ++ [Removed fullPath])%list)
          else (Some (Directory mtimeMs reads rereads removes remaining),
                log)
      | File mtimeMs unlinks =>
          if lt mtimeMs cutoffMs && underDataDir fullPath && unlinks
          then (None, [Unlinked fullPath])
          else (Some e, [])
      | Other => (Some e, [])
      end.
Proof. destruct e; reflexivity. Qed.

Lemma justified_below dir name m r rr rm sub rest a :
  justified sub (dir ++ [name])%list a ->
  justified (Entry name (Directory m r rr rm sub) rest) dir a.
Proof.
  intros (rel & H). exists (name :: rel).
  destruct a as [p|p]; rewrite <- app_assoc in H; cbn [app] in H.
  - destruct H as (Hp & (m0 & Hat & Hold) & Hrest).
    split; [assumption|]. split; [|assumption].
    exists m0. split; [now apply at_below | assumption].
  - destruct H as (Hp & (m0 & r0 & sub0 & Hat & Hold) & Hrest).
    split; [assumption|]. split; [|assumption].
    exists m0, r0, sub0. split; [now apply at_below | assumption].
Qed.

Lemma justified_later dir name x rest a :
  justified rest dir a -> justified (Entry name x rest) dir a.
Proof.
  intros (rel & H). exists rel. destruct a as [p|p].
  - destruct H as (Hp & (m0 & Hat & Hold) & Hrest).
    split; [assumption|]. split; [|assumption].
    exists m0. split; [now apply at_later | assumption].
  - destruct H as (Hp & (m0 & r0 & sub0 & Hat & Hold) & Hrest).
    split; [assumption|]. split; [|assumption].
    exists m0, r0, sub0. split; [now apply at_later | assumption].
Qed.

Lemma walk_justified es : forall dir a,
  In a (snd (walk dir es)) -> justified es dir a.
Proof.
  apply (listing_entry_ind
           (fun e => forall name rest dir a,
                       In a (snd (visit (dir ++ [name])%list e)) ->
                       justified (Entry name e rest) dir a)
           (fun es => forall dir a,
                        In a (snd (walk dir es)) -> justified es dir a)).
  - intros m u name rest dir a. rewrite visit_eq.
    destruct (isDataDir (dir ++ [name])%list) eqn:Hroot; [intros []|].
    destruct (lt m cutoffMs && underDataDir (dir ++ [name])%list && u) eqn:Hc;
      [|intros []].
    apply andb_true_iff in Hc. destruct Hc as [Hc ->].
    apply andb_true_iff in Hc. destruct Hc as [Hold Hunder].
    intros [<-|[]]. exists [name].
    split; [reflexivity|]. split; [|now split].
    exists m. split; [constructor | assumption].
  - intros m r rr rm sub IH name rest dir a. rewrite visit_eq.
    destruct (isDataDir (dir ++ [name])%list) eqn:Hroot; [intros []|].
    assert (Hwalk : forall remaining log,
      (forall a, In a log -> justified sub (dir ++ [name])%list a) ->
      In a (snd (if rr && isEmpty remaining && lt m cutoffMs && rm
                 then (None, (log ++ [Removed (dir ++ [name])%list])%list)
                 else (Some (Directory m r rr rm remaining), log))) ->
      justified (Entry name (Directory m r rr rm sub) rest) dir a).
    { intros remaining log Hlog.
      destruct (rr && isEmpty remaining && lt m cutoffMs && rm) eqn:Hc;
        cbn [snd]; intros Hin.
      - apply in_app_or in Hin. destruct Hin as [Hin|[<-|[]]].
        + apply justified_below. now apply Hlog.
        + apply andb_true_iff in Hc. destruct Hc as [Hc ->].
          apply andb_true_iff in Hc. destruct Hc as [Hc Hold].
          apply andb_true_iff in Hc. destruct Hc as [-> _].
          exists [name]. split; [reflexivity|]. split; [|assumption].
          exists m, r, sub. split; [constructor | assumption].
      - apply justified_below. now apply Hlog. }
    destruct r.
    + specialize (IH (dir ++ [name])%list).
      destruct (walk (dir ++ [name])%list sub) as [remaining log].
      cbn [snd] in IH. now apply Hwalk.
    + apply Hwalk. intros a0 [].
  - intros name rest dir a. rewrite visit_eq.
    destruct (isDataDir (dir ++ [name])%list); intros [].
  - intros name rest dir a. rewrite visit_eq.
    destruct (isDataDir (dir ++ [name])%list); intros [].
  - intros name rest dir a. rewrite visit_eq.
    destruct (isDataDir (dir ++ [name])%list); intros [].
  - intros dir a [].
  - intros name x IHx rest IHrest dir a. rewrite walk_Entry.
    specialize (IHx name rest dir a). specialize (IHrest dir a).
    destruct (visit (dir ++ [name])%list x) as [x' l1].
    destruct (walk dir rest) as [rest' l2]. cbn [snd] in *.
    intros Hin. apply in_app_or in Hin. destruct Hin as [Hin|Hin].
    + now apply IHx.
    + apply justified_later. now apply IHrest.
Qed.

(** A second walk with the same cut-off over what a walk has left deletes
    nothing and leaves everything as it is. *)
Lemma walk_settled es : forall dir,
  walk dir (fst (walk dir es)) = (fst (walk dir es), []).
Proof.
  apply (listing_entry_ind
           (fun e => forall fullPath,
                       match fst (visit fullPath e) with
                       | Some e' => visit fullPath e' = (Some e', [])
                       | None => True
                       end)
           (fun es => forall dir,
                        walk dir (fst (walk dir es)) = (fst (walk dir es), []))).
  - intros m u fullPath. rewrite visit_eq.
    destruct (isDataDir fullPath) eqn:Hroot.
    + cbn [fst]. rewrite visit_eq, Hroot. reflexivity.
    + destruct (lt m cutoffMs && underDataDir fullPath && u) eqn:Hc;
        cbn [fst]; [exact I|].
      rewrite visit_eq, Hroot, Hc. reflexivity.
  - intros m r rr rm sub IH fullPath. rewrite visit_eq.
    destruct (isDataDir fullPath) eqn:Hroot.
    + cbn [fst]. rewrite visit_eq, Hroot. reflexivity.
    + destruct r.
      * specialize (IH fullPath).
        destruct (walk fullPath sub) as [remaining log]. cbn [fst] in IH.
        destruct (rr && isEmpty remaining && lt m cutoffMs && rm) eqn:Hc;
          cbn [fst]; [exact I|].
        rewrite visit_eq, Hroot, IH, Hc. reflexivity.
      * destruct (rr && isEmpty sub && lt m cutoffMs && rm) eqn:Hc;
          cbn [fst]; [exact I|].
        rewrite visit_eq, Hroot, Hc. reflexivity.
  - intros fullPath. rewrite visit_eq.
    destruct (isDataDir fullPath) eqn:Hroot; cbn [fst];
      rewrite visit_eq, Hroot; reflexivity.
  - intros fullPath. rewrite visit_eq.
    destruct (isDataDir fullPath) eqn:Hroot; cbn [fst];
      rewrite visit_eq, Hroot; reflexivity.
  - intros fullPath. rewrite visit_eq.
    destruct (isDataDir fullPath) eqn:Hroot; cbn [fst];
      rewrite visit_eq, Hroot; reflexivity.
  - reflexivity.
  - intros name x IHx rest IHrest dir. rewrite walk_Entry.
    specialize (IHx (dir ++ [name])%list). specialize (IHrest dir).
    destruct (visit (dir ++ [name])%list x) as [[y|] l1];
      destruct (walk dir rest) as [rest' l2]; cbn [fst] in *.
    + rewrite walk_Entry, IHx, IHrest. reflexivity.
    + exact IHrest.
Qed.

(** Whatever lies in the data directory and whichever operations throw,
    every file the clean-up deletes was a regular file there with a
    modification time before the cut-off, lies under the data directory and
    is not the data directory itself; and every directory it removes was a
    directory there with a modification time before the cut-off. *)
Theorem deletions_are_old (reads : bool) (es es' : listing)
    (log : list action) (a : action) :
  cleanupOldFilesInDataDir cutoffMs isDataDir underDataDir reads es
  = (es', log) ->
  In a log ->
  match a with
  | Unlinked p =>
      (exists m, At es p (File m true) /\ lt m cutoffMs = true)
      /\ underDataDir p = true /\ isDataDir p = false
  | Removed p =>
      (exists m reads sub,
         At es p (Directory m reads true true sub) /\ lt m cutoffMs = true)
      /\ isDataDir p = false
  end.
Proof.
  unfold cleanupOldFilesInDataDir. intros H Hin.
  destruct reads; [|inversion H; subst; contradiction].
  assert (Hj : justified es [] a).
  { apply walk_justified. rewrite H. exact Hin. }
  destruct Hj as (rel & Hj). destruct a as [p|p]; cbn [app] in Hj.
  - destruct Hj as (-> & Hat & Hrest). auto.
  - destruct Hj as (-> & Hat & Hrest). auto.
Qed.

(** A second clean-up with the same cut-off, over what the first has
    left and with every operation going through or throwing as it did the
    first time, deletes nothing and leaves everything in place. *)
Theorem second_cleanup_deletes_nothing (reads : bool) (es : listing) :
  cleanupOldFilesInDataDir cutoffMs isDataDir underDataDir reads
    (fst (cleanupOldFilesInDataDir cutoffMs isDataDir underDataDir reads es))
  = (fst (cleanupOldFilesInDataDir cutoffMs isDataDir underDataDir reads es),
     []).
Proof.
  unfold cleanupOldFilesInDataDir. destruct reads; [|reflexivity].
  apply walk_settled.
Qed.

End Walks.

Lemma deletions_are_old_witness :
  (exists m, At sampleData ["tmp"; "a.png"] (File m true)
             /\ lt m (int 100) = true)
  /\ true = true /\ false = false.
Proof.
  apply (@deletions_are_old (int 100) (fun _ => false) (fun _ => true) true
           sampleData (fst sampleCleanup) (snd sampleCleanup)
           (Unlinked ["tmp"; "a.png"])).
  - reflexivity.
  - vm_compute. now left.
Defined.

End CleanupFacts.

(* ===================================================================== *)
(** ** Facts about the search for ffmpeg *)
(* ===================================================================== *)

Module FfmpegFacts.

Import Js Ffmpeg.

Lemma resolve_keeps_promise m st :
  ffmpegAvailabilityPromise (snd (resolveFfmpegPath m st))
  = ffmpegAvailabilityPromise st.
Proof.
  unfold resolveFfmpegPath.
  destruct (otruthy (ffmpegResolvedPath st)); [reflexivity|].
  destruct (firstWorking m (_candidateFfmpegPaths m)); reflexivity.
Qed.

Lemma isFfmpegAvailable_promise m st :
  ffmpegAvailabilityPromise (snd (isFfmpegAvailable m st))
  = Some (fst (isFfmpegAvailable m st)).
Proof.
  unfold isFfmpegAvailable.
  destruct (ffmpegAvailabilityPromise st) as [b|] eqn:E; [exact E|].
  destruct (resolveFfmpegPath m st). reflexivity.
Qed.

Lemma remembered b calls : forall st,
  ffmpegAvailabilityPromise st = Some b ->
  forallb (fun c => negb (isRefresh c)) calls = true ->
  Forall (eq b) (availabilities calls (fst (session calls st))).
Proof.
  induction calls as [|c calls IH]; intros st Hp Hn; [constructor|].
  cbn [forallb] in Hn. apply andb_true_iff in Hn. destruct Hn as [Hc Hn].
  cbn [session]. destruct c as [m|m|m]; [| |discriminate];
    cbn [perform].
  - unfold isFfmpegAvailable. rewrite Hp.
    specialize (IH st Hp Hn). destruct (session calls st) as [answers st'].
    cbn [fst availabilities] in *. now constructor.
  - pose proof (resolve_keeps_promise m st) as Hk. rewrite Hp in Hk.
    destruct (resolveFfmpegPath m st) as [p st1]. cbn [snd] in Hk.
    specialize (IH st1 Hk Hn). destruct (session calls st1) as [answers st'].
    cbn [fst availabilities] in *. exact IH.
Qed.

(** What [isFfmpegAvailable] has answered once, found or not found, it
    answers in every later call until [refreshFfmpegAvailability] is
    called, whatever has been installed since and whatever
    [resolveFfmpegPath] has found in between. *)
Theorem availability_is_remembered (m : machine) (st : state)
    (calls : list call) :
  forallb (fun c => negb (isRefresh c)) calls = true ->
  Forall (eq (fst (isFfmpegAvailable m st)))
    (availabilities calls
       (fst (session calls (snd (isFfmpegAvailable m st))))).
Proof.
  intros Hn. apply remembered; [apply isFfmpegAvailable_promise | exact Hn].
Qed.

Lemma availability_is_remembered_witness :
  Forall (eq false)
    (availabilities [Resolve installed; IsAvailable installed]
       [Resolved (Some "ffmpeg"); Available false]).
Proof.
  exact (@availability_is_remembered without fresh
           [Resolve installed; IsAvailable installed] eq_refl).
Defined.

End FfmpegFacts.

(* ===================================================================== *)
(** ** Facts about the browser tool *)
(* ===================================================================== *)

Module BrowserFacts.

Import Js Browser BrowserProps RegexFacts.

Lemma starts_app a b : starts (a ++ b) = starts a + starts b.
Proof. unfold starts. now rewrite filter_app, length_app. Qed.

Lemma within_app good lo1 hi1 lo2 hi2 a b :
  within good lo1 hi1 a -> within good lo2 hi2 b ->
  within good (lo1 + lo2) (hi1 + hi2) (a ++ b).
Proof.
  intros [[L1 U1] F1] [[L2 U2] F2].
  split; [rewrite starts_app; split; lia|].
  now apply Forall_app.
Qed.

Lemma within_weaken good lo hi lo' hi' a :
  within good lo hi a -> lo' <= lo -> hi <= hi' -> within good lo' hi' a.
Proof. intros [[L U] F] Hl Hh. split; [split; lia | assumption]. Qed.

Lemma within_nil good : within good 0 0 [].
Proof. split; [unfold starts; simpl; lia | constructor]. Qed.

Section Hoare.

Variable W : Type.

Lemma Adds_ret A (x : A) (Q : list event -> string + A -> Prop) :
  Q [] (inr x) -> Adds (@ret W A x) Q.
Proof.
  intros H st out st' E. inversion E; subst. exists [].
  now rewrite app_nil_r.
Qed.

Lemma Adds_throw A msg (Q : list event -> string + A -> Prop) :
  Q [] (inl msg) -> Adds (@throw W A msg) Q.
Proof.
  intros H st out st' E. inversion E; subst. exists [].
  now rewrite app_nil_r.
Qed.

Lemma Adds_bind A B (c : M W A) (k : A -> M W B)
    (Q1 : list event -> string + A -> Prop)
    (Q : list event -> string + B -> Prop) :
  Adds c Q1 ->
  (forall a1 msg, Q1 a1 (inl msg) -> Q a1 (inl msg)) ->
  (forall a1 x, Q1 a1 (inr x) ->
     Adds (k x) (fun a2 out => Q (a1 ++ a2)%list out)) ->
  Adds (bind c k) Q.
Proof.
  intros Hc Hthrow Hk st out st' E. unfold bind in E.
  destruct (c st) as [[msg|x] st1] eqn:E1;
    destruct (Hc _ _ _ E1) as (a1 & Hl1 & H1).
  - inversion E; subst. exists a1. auto.
  - destruct (Hk _ _ H1 _ _ _ E) as (a2 & Hl2 & H2).
    exists (a1 ++ a2)%list. rewrite Hl2, Hl1, app_assoc. auto.
Qed.

Lemma Adds_weaken A (c : M W A) (Q Q' : list event -> string + A -> Prop) :
  Adds c Q -> (forall a out, Q a out -> Q' a out) -> Adds c Q'.
Proof.
  intros Hc Hq st out st' E. destruct (Hc _ _ _ E) as (a & Hl & H).
  exists a. auto.
Qed.

Lemma Adds_note e : Adds (@note W e) (fun a out => a = [e] /\ out = inr tt).
Proof.
  intros st out st' E. inversion E; subst. exists [e]. auto.
Qed.

Lemma Adds_lift A e (f : W -> (string + A) * W) :
  Adds (lift e f)
    (fun a _ => a = match e with Some x => [x] | None => [] end).
Proof.
  intros st out st' E. unfold lift in E. destruct (f (world st)).
  inversion E; subst. eexists. split; reflexivity.
Qed.

Lemma Adds_ignoring A (c : M W A) (P : list event -> Prop) :
  Adds c (fun a _ => P a) ->
  Adds (ignoring c) (fun a out => P a /\ out = inr tt).
Proof.
  intros Hc st out st' E. unfold ignoring in E.
  destruct (c st) as [r st1] eqn:E1. inversion E; subst.
  destruct (Hc _ _ _ E1) as (a & Hl & H). exists a. auto.
Qed.

(** One computation after another, when what follows may add starts of
    the runner but need not. *)
Lemma Adds_seq A B (c : M W A) (k : A -> M W B) good lo hi hi2 :
  Adds c (fun a _ => within good lo hi a) ->
  (forall x, Adds (k x) (fun a _ => within good 0 hi2 a)) ->
  Adds (bind c k) (fun a _ => within good lo (hi + hi2) a).
Proof.
  intros Hc Hk. eapply Adds_bind; [exact Hc| |].
  - intros a1 msg H. eapply within_weaken; [exact H|lia|lia].
  - intros a1 x H. eapply Adds_weaken; [apply Hk|].
    intros a2 out H2. cbv beta.
    eapply within_weaken; [apply (within_app H H2)|lia|lia].
Qed.

End Hoare.

Section BrowseFacts.

Variable W : Type.
Variable isHttpUrl : string -> bool.
Variable OPENAI_API_KEY ANTHROPIC_API_KEY : bool.
Variable mkdir : W -> (string + unit) * W.
Variable spawnRunner :
  string -> string -> W -> (string + (string * string)) * W.
Variable runPythonCommand : list string -> W -> (string + option Z) * W.
Variable parse : string -> option (option runner_output).
Variable autoInstall ensurePlaywright ensureChromium : bool.
Variable payloadError : option string.
Variable chatId : nat.
Variable i : browse_input.

Local Abbreviation good :=
  (goodStart isHttpUrl OPENAI_API_KEY ANTHROPIC_API_KEY i).
Local Abbreviation quiet := (fun (a : list event) => within good 0 0 a).
Local Abbreviation runRunnerOnce := (@runRunnerOnce W spawnRunner parse).
Local Abbreviation ensureBrowserUseReady :=
  (@ensureBrowserUseReady W runPythonCommand autoInstall ensurePlaywright
     ensureChromium chatId).

Lemma quiet_one e : is_started e = false -> quiet [e].
Proof.
  intros H. split.
  - unfold starts. simpl. rewrite H. simpl. lia.
  - constructor; [|constructor]. destruct e; try exact I. discriminate.
Qed.

Lemma toChat_quiet e :
  is_started e = false ->
  Adds (@toChat W chatId e) (fun a _ => quiet a).
Proof.
  intros He. unfold toChat. destruct (negb (chatId =? 0)).
  - eapply Adds_weaken; [apply Adds_note|]. intros a out [-> _].
    now apply quiet_one.
  - apply Adds_ret. apply within_nil.
Qed.

Lemma python_quiet args :
  Adds (python runPythonCommand args) (fun a _ => quiet a).
Proof.
  eapply Adds_weaken; [apply Adds_lift|]. intros a out ->.
  now apply quiet_one.
Qed.

Lemma ignoring_quiet A (c : M W A) :
  Adds c (fun a _ => quiet a) -> Adds (ignoring c) (fun a _ => quiet a).
Proof.
  intros H. eapply Adds_weaken; [apply Adds_ignoring; exact H|].
  intros a out [Hq _]. exact Hq.
Qed.

Lemma ret_quiet A (x : A) : Adds (@ret W A x) (fun a _ => quiet a).
Proof. apply Adds_ret. apply within_nil. Qed.

Lemma seq_quiet A B (c : M W A) (k : A -> M W B) :
  Adds c (fun a _ => quiet a) ->
  (forall x, Adds (k x) (fun a _ => quiet a)) ->
  Adds (bind c k) (fun a _ => quiet a).
Proof.
  intros Hc Hk.
  exact (@Adds_seq W A B c k good 0 0 0 Hc Hk).
Qed.

Lemma ensure_quiet : Adds ensureBrowserUseReady (fun a _ => quiet a).
Proof.
  unfold Browser.ensureBrowserUseReady.
  apply seq_quiet; [apply python_quiet|]. intros check.
  destruct (isZero check); [apply ret_quiet|].
  destruct (negb autoInstall); [apply ret_quiet|].
  apply seq_quiet; [now apply toChat_quiet|]. intros _.
  apply seq_quiet; [apply ignoring_quiet, python_quiet|]. intros _.
  apply seq_quiet.
  { destruct ensurePlaywright;
      [apply ignoring_quiet, python_quiet | apply ret_quiet]. }
  intros _. apply seq_quiet.
  { destruct ensureChromium;
      [apply ignoring_quiet, python_quiet | apply ret_quiet]. }
  intros _. apply seq_quiet; [apply python_quiet|]. intros recheck.
  apply ret_quiet.
Qed.

Lemma runner_once agentTask provider :
  good (Started agentTask provider) ->
  Adds (runRunnerOnce agentTask provider) (fun a _ => within good 1 1 a).
Proof.
  intros Hg. unfold Browser.runRunnerOnce.
  eapply Adds_weaken.
  - eapply Adds_seq with (lo := 1) (hi := 1) (hi2 := 0) (good := good).
    + eapply Adds_weaken; [apply Adds_lift|]. intros a out Ha.
      cbn beta iota in Ha. subst a.
      split; [unfold starts; simpl; lia|].
      constructor; [exact Hg | constructor].
    + intros out. destruct (parsed parse (fst out));
        [apply ret_quiet | apply Adds_throw, within_nil].
  - intros a out H. exact H.
Qed.

(** The task handed to the runner names the address, and working it out
    adds nothing to the log. *)
Lemma defaultTask_names_url u : includes u (defaultTask u) = true.
Proof.
  apply includes_spec.
  now exists "Go to ",
    " and summarize what you see. If it's a video page, summarize the title/description and any visible metadata.".
Qed.

Lemma agentTask_names_url task u :
  Adds (@agentTaskOf W task u)
    (fun a out =>
       a = []
       /\ match out with
          | inr agentTask => includes u agentTask = true
          | inl _ => True
          end).
Proof.
  unfold agentTaskOf. destruct task as [|text|].
  - apply Adds_ret. split; [reflexivity|apply defaultTask_names_url].
  - destruct (truthy text && truthy (trim text)).
    + apply Adds_ret. split; [reflexivity|]. apply includes_spec.
      exists (trim text ++ nlnl ++ "Start URL: "), EmptyString.
      now rewrite append_nil_r, !append_assoc.
    + apply Adds_ret. split; [reflexivity|apply defaultTask_names_url].
  - apply Adds_throw. split; [reflexivity|exact I].
Qed.

Lemma provider_has_key p :
  effectiveProviderOf OPENAI_API_KEY ANTHROPIC_API_KEY (llm_provider i)
  = Some p ->
  (p = "openai" /\ OPENAI_API_KEY = true)
  \/ (p = "anthropic" /\ ANTHROPIC_API_KEY = true).
Proof.
  unfold effectiveProviderOf.
  destruct (String.eqb _ "openai" && OPENAI_API_KEY) eqn:E1.
  { apply andb_true_iff in E1. destruct E1 as [_ ->].
    intros H. inversion H. now left. }
  destruct (String.eqb _ "anthropic" && ANTHROPIC_API_KEY) eqn:E2.
  { apply andb_true_iff in E2. destruct E2 as [_ ->].
    intros H. inversion H. now right. }
  destruct OPENAI_API_KEY; [intros H; inversion H; now left|].
  destruct ANTHROPIC_API_KEY; [intros H; inversion H; now right|].
  discriminate.
Qed.

Local Abbreviation attempt :=
  (@attempt W OPENAI_API_KEY ANTHROPIC_API_KEY mkdir spawnRunner
     runPythonCommand parse autoInstall ensurePlaywright ensureChromium
     payloadError chatId).

Lemma attempt_adds :
  otruthy (url i) = true ->
  isHttpUrl (orEmpty (url i)) = true ->
  Adds (attempt i)
    (fun a out =>
       within good 0 3 a
       /\ match out with
          | inr r => success r = true -> 1 <= starts a
          | inl _ => True
          end).
Proof.
  intros Hurl Hhttp. unfold Browser.attempt.
  eapply Adds_bind; [apply Adds_lift| |].
  { intros a1 msg ->. split; [|exact I].
    eapply within_weaken; [apply within_nil|lia|lia]. }
  intros a1 _ ->. cbn [app].
  eapply Adds_bind; [apply agentTask_names_url| |].
  { intros a2 msg [-> _]. split; [|exact I].
    eapply within_weaken; [apply within_nil|lia|lia]. }
  intros a2 agentTask [-> Hnames]. cbn [app].
  destruct (effectiveProviderOf OPENAI_API_KEY ANTHROPIC_API_KEY
              (llm_provider i)) as [p|] eqn:Hp.
  2:{ apply Adds_ret. split; [|discriminate].
      eapply within_weaken; [apply within_nil|lia|lia]. }
  assert (Hg : good (Started agentTask p)).
  { repeat split; try assumption. now apply provider_has_key. }
  eapply Adds_bind with (Q1 := fun a (_ : string + unit) => a = []).
  { destruct payloadError; [now apply Adds_throw | now apply Adds_ret]. }
  { intros a3 msg ->. split; [|exact I].
    eapply within_weaken; [apply within_nil|lia|lia]. }
  intros a3 _ ->. cbn [app].
  eapply Adds_weaken.
  - eapply Adds_seq with (lo := 1) (hi := 1) (hi2 := 2) (good := good);
      [now apply runner_once|].
    intros [result stderr].
    eapply Adds_seq with (lo := 0) (hi := 1) (hi2 := 1) (good := good).
    { match goal with
      | |- Adds (if ?b then _ else _) _ => destruct b
      end.
      - eapply Adds_weaken.
        + eapply Adds_seq with (lo := 0) (hi := 0) (hi2 := 1) (good := good);
            [apply ensure_quiet|].
          intros ok. destruct ok.
          * eapply Adds_weaken; [now apply runner_once|].
            intros a out H. eapply within_weaken; [exact H|lia|lia].
          * eapply Adds_weaken; [apply ret_quiet|].
            intros a out H. eapply within_weaken; [exact H|lia|lia].
        + intros a out H. exact H.
      - eapply Adds_weaken; [apply ret_quiet|].
        intros a out H. eapply within_weaken; [exact H|lia|lia]. }
    intros [result2 stderr2].
    eapply Adds_seq with (lo := 0) (hi := 1) (hi2 := 0) (good := good).
    { match goal with
      | |- Adds (if ?b then _ else _) _ => destruct b
      end.
      - eapply Adds_weaken.
        + eapply Adds_seq with (lo := 0) (hi := 0) (hi2 := 1) (good := good);
            [now apply toChat_quiet|].
          intros _.
          eapply Adds_seq with (lo := 0) (hi := 0) (hi2 := 1) (good := good).
          * eapply Adds_weaken; [apply Adds_note|].
            intros a out [-> _]. now apply quiet_one.
          * intros _. eapply Adds_weaken; [now apply runner_once|].
            intros a out H. eapply within_weaken; [exact H|lia|lia].
        + intros a out H. exact H.
      - eapply Adds_weaken; [apply ret_quiet|].
        intros a out H. eapply within_weaken; [exact H|lia|lia]. }
    intros [result3 stderr3].
    destruct (negb (r_success result3)).
    + apply seq_quiet; [now apply toChat_quiet|]. intros _. apply ret_quiet.
    + apply seq_quiet.
      { match goal with
        | |- Adds (if ?b then _ else _) _ => destruct b
        end; [now apply toChat_quiet | apply ret_quiet]. }
      intros _. apply seq_quiet.
      { match goal with
        | |- Adds (if ?b then _ else _) _ => destruct b
        end; [now apply toChat_quiet | apply ret_quiet]. }
      intros _. apply ret_quiet.
  - intros a out [[L U] F]. split.
    + split; [split; lia | assumption].
    + destruct out; [exact I | intros _; lia].
Qed.

Local Abbreviation browseWebsite :=
  (@browseWebsite W isHttpUrl OPENAI_API_KEY ANTHROPIC_API_KEY mkdir
     spawnRunner runPythonCommand parse autoInstall ensurePlaywright
     ensureChromium payloadError chatId).

(** Whatever the machine does, [browseWebsite] starts the runner at most
    three times, and at least once before it reports success; it starts it
    only for an address that is there and that the URL parser accepts as
    http or https, with a task that names the address, and for the
    provider [openai] or [anthropic] whose API key is set. *)
Theorem browse_starts_runner_with_care (st : state W) :
  exists added,
    log (snd (browseWebsite i st)) = (log st ++ added)%list
    /\ starts added <= 3
    /\ Forall (goodStart isHttpUrl OPENAI_API_KEY ANTHROPIC_API_KEY i) added
    /\ (success (fst (browseWebsite i st)) = true -> 1 <= starts added).
Proof.
  unfold Browser.browseWebsite.
  destruct (negb (otruthy (url i)) || negb (isHttpUrl (orEmpty (url i))))
    eqn:Hguard.
  - exists []. rewrite app_nil_r. cbn [fst snd].
    split; [reflexivity|]. split; [unfold starts; simpl; lia|].
    split; [constructor | discriminate].
  - apply orb_false_iff in Hguard. destruct Hguard as [Hu Hh].
    apply negb_false_iff in Hu, Hh.
    destruct (attempt i st) as [[msg|r] st'] eqn:Ha;
      destruct (attempt_adds Hu Hh _ Ha) as (a & Hl & [[L U] F] & Hs);
      exists a; cbn [fst snd];
      (split; [exact Hl|]); (split; [exact U|]); (split; [exact F|]).
    + discriminate.
    + exact Hs.
Qed.

End BrowseFacts.

End BrowserFacts.
